(** * Gamal: a shallow embedding of [gamal.js]

  The JavaScript program is embedded function by function.  Strings are
  sequences of UTF-16 code units ([list N]), objects used as maps are
  association lists, promises that may reject are results carrying either a
  value or the thrown error, and everything the program obtains from the
  outside world (HTTP replies, the clock) is read from a scripted world that
  is threaded through the calls. *)

From Stdlib Require Import String Ascii.
From Stdlib Require Import List NArith ZArith Lia Bool Arith.
From Stdlib Require Import Permutation Sorted.
Import ListNotations.

Set Implicit Arguments.

(** ** JavaScript strings *)

Module JsString.

Definition char := N.
Definition str := list char.

(** An ASCII literal as a JavaScript string. *)
Definition lit (s : String.string) : str :=
  map Ascii.N_of_ascii (String.list_ascii_of_string s).
Arguments lit s%_string.

(** The same, with the apostrophe standing for the double quote, which is
    convenient for JSON texts. *)
Definition dq (s : String.string) : str :=
  map (fun c => if N.eqb c 39 then 34%N else c) (lit s).
Arguments dq s%_string.

Definition NL : char := 10%N.
Definition SPACE : char := 32%N.
Definition COLON : char := 58%N.

Fixpoint str_eqb (a b : str) : bool :=
  match a, b with
  | [], [] => true
  | x :: a', y :: b' => N.eqb x y && str_eqb a' b'
  | _, _ => false
  end.

(** [WhiteSpace] and [LineTerminator] of ECMAScript: what [trim] strips. *)
Definition is_ws (c : char) : bool :=
  existsb (N.eqb c)
    [9; 10; 11; 12; 13; 32; 160; 5760; 8232; 8233; 8239; 8287; 12288; 65279]%N
  || (N.leb 8192 c && N.leb c 8202).

Fixpoint trimStart (s : str) : str :=
  match s with
  | [] => []
  | c :: s' => if is_ws c then trimStart s' else s
  end.

Definition trimEnd (s : str) : str := rev (trimStart (rev s)).

Definition trim (s : str) : str := trimEnd (trimStart s).

(** [s.startsWith(pat)], also the test [s.substring(0, n) === pat] for a
    [pat] of length [n]. *)
Fixpoint starts_with (pat s : str) : bool :=
  match pat, s with
  | [], _ => true
  | p :: pat', c :: s' => N.eqb p c && starts_with pat' s'
  | _ :: _, [] => false
  end.

(** [s.indexOf(pat)]: [None] stands for -1. *)
Fixpoint indexOf (pat s : str) : option nat :=
  if starts_with pat s then Some 0
  else match s with
       | [] => None
       | _ :: s' => option_map S (indexOf pat s')
       end.

(** [s.lastIndexOf(pat)]: [None] stands for -1. *)
Fixpoint lastIndexOf (pat s : str) : option nat :=
  match s with
  | [] => if starts_with pat [] then Some 0 else None
  | _ :: s' =>
      match lastIndexOf pat s' with
      | Some i => Some (S i)
      | None => if starts_with pat s then Some 0 else None
      end
  end.

(** [s.substring(a)], [s.substr(a)], [s.slice(a)] for [0 <= a]. *)
Definition substring_from (a : nat) (s : str) : str := skipn a s.

(** [s.substring(a, b)]: the arguments are swapped when [a > b]. *)
Definition substring (a b : nat) (s : str) : str :=
  firstn (Nat.max a b - Nat.min a b) (skipn (Nat.min a b) s).

(** [s.substr(a, n)] for [0 <= a]. *)
Definition substr (a n : nat) (s : str) : str := firstn n (skipn a s).

(** [s.slice(0, b)] for [0 <= b]. *)
Definition slice_to (b : nat) (s : str) : str := firstn b s.

(** [s.split(sep)] for a separator of one code unit. *)
Fixpoint split (sep : char) (s : str) : list str :=
  match s with
  | [] => [[]]
  | c :: s' =>
      if N.eqb c sep then [] :: split sep s'
      else match split sep s' with
           | l :: ls => (c :: l) :: ls
           | [] => [[c]]
           end
  end.

(** [parts.join(sep)]. *)
Fixpoint join (sep : str) (parts : list str) : str :=
  match parts with
  | [] => []
  | [p] => p
  | p :: ps => p ++ sep ++ join sep ps
  end.

(** The replacement patterns of [String.prototype.replace] that apply to a
    string pattern: [$$], [$&], [$`] and [$']. *)
Fixpoint expand_replacement (repl matched before after : str) : str :=
  match repl with
  | 36%N :: 36%N :: r => 36%N :: expand_replacement r matched before after
  | 36%N :: 38%N :: r => matched ++ expand_replacement r matched before after
  | 36%N :: 96%N :: r => before ++ expand_replacement r matched before after
  | 36%N :: 39%N :: r => after ++ expand_replacement r matched before after
  | c :: r => c :: expand_replacement r matched before after
  | [] => []
  end.

(** [s.replace(pat, repl)] with a string pattern: the first occurrence
    only. *)
Definition replace (pat repl s : str) : str :=
  match indexOf pat s with
  | None => s
  | Some i =>
      let before := firstn i s in
      let after := skipn (i + length pat) s in
      before ++ expand_replacement repl pat before after ++ after
  end.

(** [toLowerCase] and [toUpperCase] on the ASCII letters; the program
    applies them to its marker names only. *)
Definition lower_char (c : char) : char :=
  if N.leb 65 c && N.leb c 90 then (c + 32)%N else c.
Definition upper_char (c : char) : char :=
  if N.leb 97 c && N.leb c 122 then (c - 32)%N else c.
Definition toLowerCase (s : str) : str := map lower_char s.
Definition toUpperCase (s : str) : str := map upper_char s.

(** Decimal digits, the integer a run of digits writes, and the decimal
    form of a natural number. *)
Definition is_digit (c : char) : bool := N.leb 48 c && N.leb c 57.

Definition digits_value (ds : str) : nat :=
  fold_left (fun acc c => 10 * acc + N.to_nat (c - 48)) ds 0.

(** The Number nearest to an integer: the integer itself when it has 53
    bits at most, else the integer rounded to 53 bits, to the even one of
    two neighbours that are as near.  [INFINITY] stands for the Number
    [Infinity], which is what everything from [2^1024 - 2^970] on rounds
    to. *)
Definition INFINITY : N := N.shiftl 1 1024.

Definition to_double (n : N) : N :=
  if (N.size n <=? 53)%N then n
  else
    let e := (N.size n - 53)%N in
    let q := N.shiftr n e in
    let r := N.land n (N.ones e) in
    let half := N.shiftl 1 (e - 1) in
    let q' := if (half <? r)%N || ((r =? half)%N && N.odd q) then (q + 1)%N else q in
    let rounded := N.shiftl q' e in
    if (INFINITY <=? rounded)%N then INFINITY else rounded.

(** [parseInt(s, 10)] on a run of digits: the Number nearest to the integer
    the digits write. *)
Definition parseInt (ds : str) : nat :=
  N.to_nat (to_double (N.of_nat (digits_value ds))).

Fixpoint nat_digits (fuel n : nat) (acc : str) : str :=
  match fuel with
  | 0 => acc
  | S f =>
      let acc' := N.of_nat (48 + n mod 10) :: acc in
      if n <? 10 then acc' else nat_digits f (n / 10) acc'
  end.

Definition nat_to_str (n : nat) : str := nat_digits (S n) n [].

(** String comparison [a <= b] of JavaScript: lexicographic on code
    units. *)
Fixpoint str_leb (a b : str) : bool :=
  match a, b with
  | [], _ => true
  | _ :: _, [] => false
  | x :: a', y :: b' =>
      if N.ltb x y then true
      else if N.eqb x y then str_leb a' b' else false
  end.

End JsString.

Import JsString.

(** ** The labelled-field codec *)

Module Codec.

(** A plain object with string values; a property that is missing reads as
    [undefined], here [None]. *)
Definition obj := list (str * str).

Fixpoint obj_get (o : obj) (k : str) : option str :=
  match o with
  | [] => None
  | (k', v) :: o' => if str_eqb k' k then Some v else obj_get o' k
  end.

Fixpoint obj_set (o : obj) (k v : str) : obj :=
  match o with
  | [] => [(k, v)]
  | (k', v') :: o' =>
      if str_eqb k' k then (k', v) :: o' else (k', v') :: obj_set o' k v
  end.

Definition PREDEFINED_KEYS : list str :=
  [lit "INQUIRY"; lit "TOOL"; lit "LANGUAGE"; lit "THOUGHT";
   lit "KEYPHRASES"; lit "OBSERVATION"; lit "TOPIC"].

(** The body of the [for] loop of [deconstruct], folded over [keys]. *)
Fixpoint deconstruct_loop (keys : list str) (s : str) (parts : obj) : obj :=
  match keys with
  | [] => parts
  | marker :: keys' =>
      match lastIndexOf (marker ++ [COLON]) s with
      | Some pos =>
          let substr := trim (substring_from (pos + length marker + 1) s) in
          let value := hd [] (split NL substr) in
          deconstruct_loop keys' (slice_to pos s)
            (obj_set parts (toLowerCase marker) value)
      | None => deconstruct_loop keys' s parts
      end
  end.

Definition deconstruct_with (markers : list str) (text : str) : obj :=
  let keys := rev markers in
  let anchor := last markers [] in
  match lastIndexOf (anchor ++ [COLON]) text with
  | Some start =>
      let topic :=
        trim (replace (anchor ++ [COLON]) [] (substring_from start text)) in
      deconstruct_loop keys (substring 0 start text)
        (obj_set [] (toLowerCase anchor) topic)
  | None => []
  end.

Definition deconstruct (text : str) : obj :=
  deconstruct_with PREDEFINED_KEYS text.

(** A string is truthy when it is not empty. *)
Definition truthy (v : option str) : bool :=
  match v with
  | Some (_ :: _) => true
  | _ => false
  end.

Definition construct (kv : obj) : str :=
  let present :=
    filter (fun key => truthy (obj_get kv (toLowerCase key))) PREDEFINED_KEYS in
  join [NL]
    (map (fun key =>
            match obj_get kv (toLowerCase key) with
            | Some (c :: v) => toUpperCase key ++ lit ": " ++ c :: v
            | _ => []
            end) present).

Definition breakdown (hint completion : str) : obj :=
  let text := hint ++ completion in
  let result := deconstruct text in
  if truthy (obj_get result (lit "topic")) then result
  else deconstruct (text ++ [NL] ++ lit "TOPIC: general knowledge.").

End Codec.

Import Codec.

(** ** JSON texts and the values [JSON.parse] builds from them *)

Module Json.

#[local] Unset Elimination Schemes.

Inductive value :=
| JNull
| JBool (b : bool)
| JNum (lexeme : str)
| JStr (s : str)
| JArr (items : list value)
| JObj (members : list (str * value)).

#[local] Set Elimination Schemes.

(** A JavaScript value read out of a parsed JSON document: [undefined], or a
    JSON value. *)
Inductive jsv :=
| Undef
| Val (v : value).

Definition is_json_ws (c : char) : bool :=
  N.eqb c 32 || N.eqb c 9 || N.eqb c 10 || N.eqb c 13.

Fixpoint skip_ws (s : str) : str :=
  match s with
  | c :: s' => if is_json_ws c then skip_ws s' else s
  | [] => []
  end.

Definition hex_value (c : char) : option N :=
  if N.leb 48 c && N.leb c 57 then Some (c - 48)%N
  else if N.leb 65 c && N.leb c 70 then Some (c - 55)%N
  else if N.leb 97 c && N.leb c 102 then Some (c - 87)%N
  else None.

Definition hex4 (a b c d : char) : option char :=
  match hex_value a, hex_value b, hex_value c, hex_value d with
  | Some x, Some y, Some z, Some t => Some (((x * 16 + y) * 16 + z) * 16 + t)%N
  | _, _, _, _ => None
  end.

Definition unescape (e : char) : option char :=
  if N.eqb e 34 then Some 34%N
  else if N.eqb e 92 then Some 92%N
  else if N.eqb e 47 then Some 47%N
  else if N.eqb e 98 then Some 8%N
  else if N.eqb e 102 then Some 12%N
  else if N.eqb e 110 then Some 10%N
  else if N.eqb e 114 then Some 13%N
  else if N.eqb e 116 then Some 9%N
  else None.

(** The characters of a string literal after its opening quote, up to and
    including the closing quote. *)
Fixpoint parse_chars (s acc : str) : option (str * str) :=
  match s with
  | [] => None
  | c :: r =>
      if N.eqb c 34 then Some (rev acc, r)
      else if N.eqb c 92 then
        match r with
        | [] => None
        | e :: r1 =>
            if N.eqb e 117 then
              match r1 with
              | h1 :: h2 :: h3 :: h4 :: r2 =>
                  match hex4 h1 h2 h3 h4 with
                  | Some u => parse_chars r2 (u :: acc)
                  | None => None
                  end
              | _ => None
              end
            else
              match unescape e with
              | Some u => parse_chars r1 (u :: acc)
              | None => None
              end
        end
      else if N.ltb c 32 then None
      else parse_chars r (c :: acc)
  end.

Fixpoint take_digits (s acc : str) : str * str :=
  match s with
  | c :: r => if is_digit c then take_digits r (c :: acc) else (rev acc, s)
  | [] => (rev acc, [])
  end.

(** A JSON number: an optional minus sign, an integer part without a leading
    zero, an optional fraction and an optional exponent. *)
Definition parse_number (s : str) : option (str * str) :=
  let (sign, s1) :=
    match s with
    | c :: r => if N.eqb c 45 then ([c], r) else ([], s)
    | [] => ([], s)
    end in
  let (int, s2) := take_digits s1 [] in
  match int with
  | [] => None
  | d :: ds =>
      if N.eqb d 48 && negb (match ds with [] => true | _ => false end) then None
      else
        let frac :=
          match s2 with
          | c :: r =>
              if N.eqb c 46 then
                let (fd, r') := take_digits r [] in
                match fd with
                | [] => None
                | _ => Some (c :: fd, r')
                end
              else Some ([], s2)
          | [] => Some ([], s2)
          end in
        match frac with
        | None => None
        | Some (fr, s3) =>
            let exp :=
              match s3 with
              | c :: r =>
                  if N.eqb c 101 || N.eqb c 69 then
                    let (sg, r1) :=
                      match r with
                      | c' :: r' =>
                          if N.eqb c' 43 || N.eqb c' 45 then ([c'], r') else ([], r)
                      | [] => ([], r)
                      end in
                    let (ed, r2) := take_digits r1 [] in
                    match ed with
                    | [] => None
                    | _ => Some (c :: sg ++ ed, r2)
                    end
                  else Some ([], s3)
              | [] => Some ([], s3)
              end in
            match exp with
            | None => None
            | Some (ex, s4) => Some (sign ++ int ++ fr ++ ex, s4)
            end
        end
  end.

Section Sequences.

Variable parse_value : str -> option (value * str).

(** The elements of an array after the first value has been announced: a
    value, then a comma and more, or the closing bracket. *)
Fixpoint parse_elements (n : nat) (s : str) (acc : list value)
  : option (list value * str) :=
  match n with
  | 0 => None
  | S n' =>
      match parse_value s with
      | None => None
      | Some (v, r) =>
          match skip_ws r with
          | c :: r' =>
              if N.eqb c 44 then parse_elements n' r' (v :: acc)
              else if N.eqb c 93 then Some (rev (v :: acc), r')
              else None
          | [] => None
          end
      end
  end.

Fixpoint parse_members (n : nat) (s : str) (acc : list (str * value))
  : option (list (str * value) * str) :=
  match n with
  | 0 => None
  | S n' =>
      match skip_ws s with
      | q :: r =>
          if N.eqb q 34 then
            match parse_chars r [] with
            | None => None
            | Some (k, r1) =>
                match skip_ws r1 with
                | c :: r2 =>
                    if N.eqb c 58 then
                      match parse_value r2 with
                      | None => None
                      | Some (v, r3) =>
                          match skip_ws r3 with
                          | c' :: r4 =>
                              if N.eqb c' 44 then parse_members n' r4 ((k, v) :: acc)
                              else if N.eqb c' 125 then Some (rev ((k, v) :: acc), r4)
                              else None
                          | [] => None
                          end
                      end
                    else None
                | [] => None
                end
            end
          else None
      | [] => None
      end
  end.

End Sequences.

Fixpoint parse_value (fuel : nat) (s : str) : option (value * str) :=
  match fuel with
  | 0 => None
  | S f =>
      match skip_ws s with
      | [] => None
      | c :: r =>
          if N.eqb c 123 then
            match skip_ws r with
            | c' :: r' =>
                if N.eqb c' 125 then Some (JObj [], r')
                else
                  match parse_members (parse_value f) (length r) r [] with
                  | Some (m, r2) => Some (JObj m, r2)
                  | None => None
                  end
            | [] => None
            end
          else if N.eqb c 91 then
            match skip_ws r with
            | c' :: r' =>
                if N.eqb c' 93 then Some (JArr [], r')
                else
                  match parse_elements (parse_value f) (length r) r [] with
                  | Some (l, r2) => Some (JArr l, r2)
                  | None => None
                  end
            | [] => None
            end
          else if N.eqb c 34 then
            match parse_chars r [] with
            | Some (x, r') => Some (JStr x, r')
            | None => None
            end
          else if starts_with (lit "true") (c :: r) then Some (JBool true, skipn 4 (c :: r))
          else if starts_with (lit "false") (c :: r) then Some (JBool false, skipn 5 (c :: r))
          else if starts_with (lit "null") (c :: r) then Some (JNull, skipn 4 (c :: r))
          else
            match parse_number (c :: r) with
            | Some (x, r') => Some (JNum x, r')
            | None => None
            end
      end
  end.

(** [JSON.parse(text)]; [None] is the [SyntaxError]. *)
Definition JSON_parse (text : str) : option value :=
  match parse_value (S (length text)) text with
  | Some (v, r) =>
      match skip_ws r with
      | [] => Some v
      | _ => None
      end
  | None => None
  end.

(** The last member with the key: a repeated key overwrites. *)
Fixpoint lookup (m : list (str * value)) (k : str) : option value :=
  match m with
  | [] => None
  | (k', v) :: m' =>
      match lookup m' k with
      | Some x => Some x
      | None => if str_eqb k' k then Some v else None
      end
  end.

(** [v.k] for a value [v] that is neither [null] nor [undefined].  The
    property names the program reads ([choices], [delta], [content],
    [message], [hits], ...) are defined on no prototype, so only own members
    answer, and [length] on arrays and strings. *)
Definition get (v : value) (k : str) : jsv :=
  match v with
  | JObj m =>
      match lookup m k with
      | Some x => Val x
      | None => Undef
      end
  | JArr l =>
      if str_eqb k (lit "length") then Val (JNum (nat_to_str (length l))) else Undef
  | JStr x =>
      if str_eqb k (lit "length") then Val (JNum (nat_to_str (length x))) else Undef
  | _ => Undef
  end.

(** [const { k } = x]: a [TypeError] ([None]) on [null] and [undefined]. *)
Definition destructure (x : jsv) (k : str) : option jsv :=
  match x with
  | Undef => None
  | Val JNull => None
  | Val v => Some (get v k)
  end.

(** [const [first] = x]: arrays and strings are the iterable JSON values; a
    string yields its first character. *)
Definition destructure_first (x : jsv) : option jsv :=
  match x with
  | Val (JArr []) => Some Undef
  | Val (JArr (v :: _)) => Some (Val v)
  | Val (JStr []) => Some Undef
  | Val (JStr (c :: _)) => Some (Val (JStr [c]))
  | _ => None
  end.

(** [x[0]]: a [TypeError] ([None]) on [null] and [undefined]. *)
Definition index0 (x : jsv) : option jsv :=
  match x with
  | Undef => None
  | Val JNull => None
  | Val (JArr []) => Some Undef
  | Val (JArr (v :: _)) => Some (Val v)
  | Val (JStr []) => Some Undef
  | Val (JStr (c :: _)) => Some (Val (JStr [c]))
  | Val v => Some (get v (lit "0"))
  end.

End Json.

Import Json.

(** ** Results of calls that may throw *)

Inductive error :=
| HttpError (status : nat)      (* [chat]: HTTP error with the status ... *)
| SearchFailed (status : nat)   (* [search]: You.com call failed with status ... *)
| TypeError
| SyntaxError
| NetworkError.                 (* [fetch] itself rejected *)

(** [Beyond] marks a run that relies on a JavaScript coercion this embedding
    does not cover (a number, array or object used where the program expects
    text); no statement below is about such a run. *)
Inductive result (A : Type) :=
| Ok (a : A)
| Throw (e : error)
| Beyond.

Arguments Ok {A} a.
Arguments Throw {A} e.
Arguments Beyond {A}.

(** ** The chat client: decoding the reply *)

Module Chat.

Definition DATA_PREFIX : str := lit "data: ".
Definition DONE_LINE : str := lit "data: [DONE]".

(** The inner function [parse] of [chat].  Its result starts as [null] and is
    replaced by [delta?.content] unless something throws on the way. *)
Definition parse (line : str) : jsv :=
  let prefix := substring 0 6 line in
  if str_eqb prefix DATA_PREFIX then
    let payload := substring_from 6 line in
    match JSON_parse payload with
    | None => Val JNull
    | Some data =>
        match destructure (Val data) (lit "choices") with
        | None => Val JNull
        | Some choices =>
            match destructure_first choices with
            | None => Val JNull
            | Some choice =>
                match destructure choice (lit "delta") with
                | None => Val JNull
                | Some Undef => Undef
                | Some (Val JNull) => Undef
                | Some (Val delta) => get delta (lit "content")
                end
            end
        end
    end
  else Val JNull.

(** The variables of the streaming loop, and what the sink has received so
    far (latest first). *)
Record stream_state := {
  answer : str;
  buffer : str;
  emitted : list str
}.

Definition initial : stream_state :=
  {| answer := []; buffer := []; emitted := [] |}.

Inductive step :=
| Next (st : stream_state)     (* go on with the next line *)
| Stop (st : stream_state)     (* [break]: leave the lines of this read *)
| Raise (st : stream_state) (e : error)
| Outside.

(** One turn of the [for] loop over the lines of a read. *)
Definition process_line (st : stream_state) (raw : str) : step :=
  let line := buffer st ++ raw in
  if match line with c :: _ => N.eqb c COLON | [] => false end then
    Next {| answer := answer st; buffer := []; emitted := emitted st |}
  else if str_eqb line DONE_LINE then Stop st
  else
    match line with
    | [] => Next st
    | _ :: _ =>
        match parse line with
        | Val JNull =>
            Next {| answer := answer st; buffer := line; emitted := emitted st |}
        | Val (JStr []) => Next st
        | Val (JStr (c :: d)) =>
            let partial := c :: d in
            match answer st with
            | [] =>
                let leading := trim partial in
                Next {| answer := leading; buffer := [];
                        emitted := match leading with
                                   | [] => emitted st
                                   | _ :: _ => leading :: emitted st
                                   end |}
            | _ :: _ =>
                Next {| answer := answer st ++ partial; buffer := [];
                        emitted := partial :: emitted st |}
            end
        | Val (JArr []) => Next st
        | Val (JArr (_ :: _)) =>
            match answer st with
            | [] => Raise {| answer := answer st; buffer := [];
                             emitted := emitted st |} TypeError
            | _ :: _ => Outside
            end
        | Val (JObj m) =>
            match lookup m (lit "length") with
            | None => Next st
            | Some _ => Outside
            end
        | Val (JBool _) => Next st
        | Val (JNum _) => Next st
        | Undef => Next st
        end
    end.

Fixpoint process_lines (st : stream_state) (lines : list str) : step :=
  match lines with
  | [] => Next st
  | raw :: rest =>
      match process_line st raw with
      | Next st' => process_lines st' rest
      | other => other
      end
  end.

(** The [while] loop over the reads of the body; [decoder.decode(value)] is
    taken as given, each read being the text it decodes to. *)
Fixpoint read_loop (st : stream_state) (reads : list str) : step :=
  match reads with
  | [] => Next st
  | value :: rest =>
      match process_lines st (split NL value) with
      | Next st' => read_loop st' rest
      | Stop st' => read_loop st' rest
      | other => other
      end
  end.

(** The streaming path: the returned answer (or what was thrown), and what
    the sink received, in order. *)
Definition chat_stream (reads : list str) : result str * list str :=
  match read_loop initial reads with
  | Next st => (Ok (answer st), rev (emitted st))
  | Stop st => (Ok (answer st), rev (emitted st))
  | Raise st e => (Throw e, rev (emitted st))
  | Outside => (Beyond, [])
  end.

(** The non-streaming path: [response.json()], then
    [choices[0].message.content.trim()]. *)
Definition chat_plain (body : str) : result str :=
  match JSON_parse body with
  | None => Throw SyntaxError
  | Some data =>
      match destructure (Val data) (lit "choices") with
      | None => Throw TypeError
      | Some choices =>
          match index0 choices with
          | None => Throw TypeError
          | Some first =>
              match destructure first (lit "message") with
              | None => Throw TypeError
              | Some message =>
                  match destructure message (lit "content") with
                  | Some (Val (JStr content)) => Ok (trim content)
                  | _ => Throw TypeError
                  end
              end
          end
      end
  end.

End Chat.

(** ** The citation rewriter of the terminal front-end, and the formatter of
    the Telegram front-end *)

Module Display.

Definition GRAY : str := 27%N :: lit "[90m".
Definition NORMAL : str := 27%N :: lit "[0m".

Definition MAX_LOOKAHEAD : nat := 3 * length (lit "[citation:x]").

Record display := {
  d_buffer : str;
  d_refs : list nat
}.

(** [refs.indexOf(num)]. *)
Fixpoint index_of (num : nat) (refs : list nat) : option nat :=
  match refs with
  | [] => None
  | r :: refs' => if Nat.eqb r num then Some 0 else option_map S (index_of num refs')
  end.

(** A match of [\[citation:(\d+)\]] at the start of [s]: the digits. *)
Definition match_here (s : str) : option str :=
  if starts_with (lit "[citation:") s then
    let (digits, rest) := take_digits (skipn 10 s) [] in
    match digits, rest with
    | _ :: _, c :: _ => if N.eqb c 93 then Some digits else None
    | _, _ => None
    end
  else None.

Fixpoint scan (s : str) (i : nat) : option (nat * str) :=
  match match_here s with
  | Some digits => Some (i, digits)
  | None =>
      match s with
      | [] => None
      | _ :: s' => scan s' (S i)
      end
  end.

(** [PATTERN.exec(buffer)] with the global flag: the leftmost match at or
    after [lastIndex], as its index and its group. *)
Definition exec (buffer : str) (lastIndex : nat) : option (nat * str) :=
  if length buffer <? lastIndex then None else scan (skipn lastIndex buffer) lastIndex.

(** [refs.push(num)] unless it is there, then [1 + refs.indexOf(num)]. *)
Definition cite (num : nat) (refs : list nat) : list nat * nat :=
  match index_of num refs with
  | Some i => (refs, 1 + i)
  | None => (refs ++ [num], 1 + length refs)
  end.

(** The [while] loop of [push]; [None] when the fuel does not suffice. *)
Fixpoint push_loop (fuel : nat) (buffer : str) (refs : list nat) (lastIndex : nat)
  : option (str * list nat) :=
  match exec buffer lastIndex with
  | None => Some (buffer, refs)
  | Some (index, number) =>
      match fuel with
      | 0 => None
      | S fuel' =>
          let lastIndex' := index + length (lit "[citation:") + length number + 1 in
          if str_leb (lit "0") number && str_leb number (lit "9") then
            let num := parseInt number in
            let (refs', citation) := cite num refs in
            let ref := GRAY ++ lit "[" ++ nat_to_str citation ++ lit "]" ++ NORMAL in
            push_loop fuel'
              (substr 0 index buffer ++ ref ++ substring_from (index + 12) buffer)
              refs' lastIndex'
          else push_loop fuel' buffer refs lastIndex'
      end
  end.

(** [push]: the new display and what was written to the terminal, if
    anything was. *)
Definition push (d : display) (text : str) : option (display * option str) :=
  let buffer := d_buffer d ++ text in
  match push_loop (length buffer) buffer (d_refs d) 0 with
  | None => None
  | Some (buffer', refs) =>
      if MAX_LOOKAHEAD <? length buffer' then
        Some ({| d_buffer := substring_from (length buffer' - MAX_LOOKAHEAD) buffer';
                 d_refs := refs |},
              Some (substr 0 (length buffer' - MAX_LOOKAHEAD) buffer'))
      else Some ({| d_buffer := buffer'; d_refs := refs |}, None)
  end.

Definition flush (d : display) : display * str :=
  ({| d_buffer := []; d_refs := [] |}, trimEnd (d_buffer d)).

(** The rewriting loop of [format]: [None] when the loop does not come to an
    end within the fuel.  It does not end at all when the character after
    [[citation:] is not a digit. *)
Fixpoint format_loop (fuel : nat) (buffer : str) (refs : list nat)
  : option (str * list nat) :=
  match indexOf (lit "[citation:") buffer with
  | None => Some (buffer, refs)
  | Some index =>
      match fuel with
      | 0 => None
      | S fuel' =>
          match nth_error buffer (index + 10) with
          | Some number =>
              if is_digit number then
                let num := parseInt [number] in
                let (refs', citation) := cite num refs in
                format_loop fuel'
                  (substr 0 index buffer ++ lit "[" ++ nat_to_str citation ++ lit "]"
                     ++ substring_from (index + 12) buffer)
                  refs'
              else format_loop fuel' buffer refs
          | None => format_loop fuel' buffer refs
          end
      end
  end.

End Display.

(** ** The pipeline: data carried between the stages *)

Module Pipeline.

Import Display.

Record Message := {
  role : str;
  content : str
}.

Record Reference := {
  position : nat;
  title : jsv;
  url : jsv;
  snippet : str
}.

(** The fields a stage hands to [leave]. *)
Inductive fields :=
| NoFields
| ReasonFields (language topic thought keyphrases observation : option str)
| SearchFields (references : list Reference)
| RespondFields (inquiry : str).

(** An entry of the [stages] array; [simplify] adds the duration. *)
Record StageEvent := {
  name : str;
  timestamp : Z;
  extra : fields;
  duration : option Z
}.

Record HistoryEntry := {
  h_inquiry : str;
  h_thought : option str;
  h_keyphrases : option str;
  h_topic : option str;
  h_references : option (list Reference);
  h_answer : option str;
  h_duration : Z;
  h_stages : list StageEvent
}.

(** *** The outside world

    What [fetch] answers is scripted: the n-th call to the chat endpoint
    gets [llm n], the n-th call to the search endpoint gets [web n], [None]
    being a rejected [fetch]; the n-th reading of [Date.now()] is [clock n].
    The world also holds what the program has sent out, and the variables of
    the front-end that its delegates update. *)

Record LlmReply := {
  llm_ok : bool;
  llm_status : nat;
  llm_reads : list str      (* the body, as the reads of the body deliver it *)
}.

Record WebReply := {
  web_ok : bool;
  web_status : nat;
  web_body : str
}.

Record LlmRequest := {
  req_messages : list Message;
  req_stream : bool
}.

Record World := {
  LLM_STREAMING : bool;
  llm : nat -> option LlmReply;
  web : nat -> option WebReply;
  clock : nat -> Z;
  llm_requests : list LlmRequest;   (* latest first *)
  web_queries : list str;           (* latest first *)
  clock_reads : nat;
  stages : list StageEvent;
  shown : display;
  written : list str;               (* latest first *)
  off_model : bool
}.

Definition log_llm (r : LlmRequest) (w : World) : World :=
  {| LLM_STREAMING := LLM_STREAMING w; llm := llm w; web := web w; clock := clock w;
     llm_requests := r :: llm_requests w; web_queries := web_queries w;
     clock_reads := clock_reads w; stages := stages w; shown := shown w;
     written := written w; off_model := off_model w |}.

Definition log_web (q : str) (w : World) : World :=
  {| LLM_STREAMING := LLM_STREAMING w; llm := llm w; web := web w; clock := clock w;
     llm_requests := llm_requests w; web_queries := q :: web_queries w;
     clock_reads := clock_reads w; stages := stages w; shown := shown w;
     written := written w; off_model := off_model w |}.

Definition tick (w : World) : World :=
  {| LLM_STREAMING := LLM_STREAMING w; llm := llm w; web := web w; clock := clock w;
     llm_requests := llm_requests w; web_queries := web_queries w;
     clock_reads := S (clock_reads w); stages := stages w; shown := shown w;
     written := written w; off_model := off_model w |}.

Definition set_stages (s : list StageEvent) (w : World) : World :=
  {| LLM_STREAMING := LLM_STREAMING w; llm := llm w; web := web w; clock := clock w;
     llm_requests := llm_requests w; web_queries := web_queries w;
     clock_reads := clock_reads w; stages := s; shown := shown w;
     written := written w; off_model := off_model w |}.

Definition set_shown (d : display) (out : list str) (off : bool) (w : World) : World :=
  {| LLM_STREAMING := LLM_STREAMING w; llm := llm w; web := web w; clock := clock w;
     llm_requests := llm_requests w; web_queries := web_queries w;
     clock_reads := clock_reads w; stages := stages w; shown := d;
     written := out; off_model := off |}.

(** [stages.push({ name, timestamp: Date.now(), ...fields })]. *)
Definition push_stage (n : str) (f : fields) (w : World) : World :=
  let e := {| name := n; timestamp := clock w (clock_reads w); extra := f;
              duration := None |} in
  set_stages (stages w ++ [e]) (tick w).

(** The three hooks a front-end may supply. *)
Record Delegates := {
  enter : option (str -> World -> World);
  leave : option (str -> fields -> World -> World);
  stream : option (str -> World -> World)
}.

Record Context := {
  inquiry : str;
  history : list HistoryEntry;
  delegates : Delegates;
  language : option str;
  topic : option str;
  thought : option str;
  keyphrases : option str;
  observation : option str;
  references : option (list Reference);
  answer : option str
}.

(** [{ inquiry, history, delegates }]. *)
Definition new_context (i : str) (h : list HistoryEntry) (d : Delegates) : Context :=
  {| inquiry := i; history := h; delegates := d; language := None; topic := None;
     thought := None; keyphrases := None; observation := None; references := None;
     answer := None |}.

(** *** Asynchronous functions *)

Definition M (A : Type) : Type := World -> result A * World.

Definition ret {A} (a : A) : M A := fun w => (Ok a, w).

Definition throw {A} (e : error) : M A := fun w => (Throw e, w).

Definition beyond {A} : M A := fun w => (Beyond, w).

Definition bind {A B} (m : M A) (k : A -> M B) : M B :=
  fun w =>
    match m w with
    | (Ok a, w') => k a w'
    | (Throw e, w') => (Throw e, w')
    | (Beyond, w') => (Beyond, w')
    end.

Definition effect (f : World -> World) : M unit := fun w => (Ok tt, f w).

Definition lift {A} (r : result A) : M A := fun w => (r, w).

Notation "x <- m ;; k" := (bind m (fun x => k))
  (at level 61, m at next level, right associativity).
Notation "m ;;; k" := (bind m (fun _ => k))
  (at level 61, right associativity).

(** [Date.now()]. *)
Definition now : M Z := fun w => (Ok (clock w (clock_reads w)), tick w).

(** [enter && enter(name)], [leave && leave(name, fields)]. *)
Definition call_enter (d : Delegates) (n : str) : M unit :=
  match enter d with
  | Some f => effect (f n)
  | None => ret tt
  end.

Definition call_leave (d : Delegates) (n : str) (f : fields) : M unit :=
  match leave d with
  | Some g => effect (g n f)
  | None => ret tt
  end.

(** *** [chat] *)

Definition chat (messages : list Message) (handler : option (str -> World -> World))
  : M str :=
  fun w =>
    let streaming :=
      LLM_STREAMING w && match handler with Some _ => true | None => false end in
    let reply := llm w (length (llm_requests w)) in
    let w1 := log_llm {| req_messages := messages; req_stream := streaming |} w in
    match reply with
    | None => (Throw NetworkError, w1)
    | Some r =>
        if negb (llm_ok r) then (Throw (HttpError (llm_status r)), w1)
        else if negb streaming then
          match Chat.chat_plain (concat (llm_reads r)) with
          | Ok text =>
              (Ok text, match handler with Some h => h text w1 | None => w1 end)
          | Throw e => (Throw e, w1)
          | Beyond => (Beyond, w1)
          end
        else
          let (res, deltas) := Chat.chat_stream (llm_reads r) in
          (res, match handler with
                | Some h => fold_left (fun w' d => h d w') deltas w1
                | None => w1
                end)
    end.

(** *** The prompts *)

Definition text_lines (ls : list str) : str := join [NL] ls.

Definition REASON_PROMPT : str :=
  text_lines
    [lit "You are Gamal, a world-class answering assistant.";
     lit "You are interacting with a human who gives you an inquiry.";
     lit "Your task is as follows.";
     lit "Use Google to search for the answer. Think step by step. Fix any misspelings.";
     lit "If necessary, refer to the relevant part of the previous conversation history.";
     lit "Use the same language as the inquiry.";
     [];
     lit "Always output your thought in the following format:";
     [];
     lit "TOOL: the search engine to use (must be Google).";
     lit "LANGUAGE: the language of the inquiry.";
     lit "THOUGHT: describe your thoughts about the inquiry.";
     lit "KEYPHRASES: the important query to give to Google.";
     lit "OBSERVATION: the concise result of the search tool.";
     lit "TOPIC: the specific topic covering the inquiry."].

(** The letters outside ASCII are given by their code units. *)
Definition REASON_EXAMPLE : str :=
  text_lines
    [[];
     [];
     lit "# Example";
     [];
     lit "Given an inquiry " ++ [34%N] ++ lit "Pour quoi le lac de Pitch " ++ [224%N]
       ++ lit " Trinidad est-il c" ++ [233%N] ++ lit "l" ++ [232%N] ++ lit "bre?"
       ++ [34%N] ++ lit ", you will output:";
     [];
     lit "TOOL: Google.";
     lit "LANGUAGE: French.";
     lit "THOUGHT: Cela concerne la g" ++ [233%N]
       ++ lit "ographie, je vais utiliser la recherche Google.";
     lit "KEYPHRASES: Pitch Lake in Trinidad famerenomm" ++ [233%N]
       ++ lit "e du lac de Pitch " ++ [224%N] ++ lit " Trinidad.";
     lit "OBSERVATION: Le lac de Pitch " ++ [224%N]
       ++ lit " Trinidad est le plus grand d" ++ [233%N] ++ lit "p" ++ [244%N]
       ++ lit "t naturel d'asphalte.";
     lit "TOPIC: g" ++ [233%N] ++ lit "ographie."].

Definition RESPOND_PROMPT : str :=
  text_lines
    [lit "You are a world-renowned research assistant.";
     lit "You are given a user question, and please write clean, concise and accurate answer to the question.";
     lit "You will be given a set of related references to the question, each starting with a reference number like [citation:x], where x is a number.";
     lit "Please use only 3 most relevant references, not all of them.";
     lit "Cite each reference at the end of each sentence.";
     [];
     lit "You are expected to provide an answer that is accurate, correct, and reflect expert knowledge.";
     lit "Your answer must maintain an unbiased and professional tone.";
     lit "Your answer should not exceed 3 sentences in length, unless the instruction is to do so.";
     [];
     lit "Do not give any information that is not related to the question, and do not repeat.";
     dq "No need to mention 'according to the references...' and other internal references.";
     [];
     lit "After every sentence, always cite the reference with the citation numbers, in the format [citation:x].";
     lit "If a sentence comes from multiple references, please list all applicable citations, like [citation:3][citation:5].";
     [];
     lit "Here are the set of references:";
     [];
     lit "{REFERENCES}";
     [];
     lit "Remember, don't blindly repeat the references verbatim.";
     lit "Only supply the answer and do not add any additional commentaries, notes, remarks, list of citations, literature references, extra translations, postanalysis.";
     [];
     lit "Your answer must be in the same language as the inquiry, i.e. {LANGUAGE}.";
     [];
     lit "And here is the user question:"].

(** *** Coercions to text *)

(** [String(x)] where the program puts a value into a text; [None] for the
    values whose text form is not covered here. *)
Definition to_text (x : jsv) : option str :=
  match x with
  | Undef => Some (lit "undefined")
  | Val JNull => Some (lit "null")
  | Val (JBool true) => Some (lit "true")
  | Val (JBool false) => Some (lit "false")
  | Val (JStr s) => Some s
  | _ => None
  end.

Definition text_or_undefined (x : option str) : str :=
  match x with
  | Some s => s
  | None => lit "undefined"
  end.

(** An object literal whose values may be [undefined]: reading a property
    that holds [undefined] and reading one that is missing give the same. *)
Fixpoint object_of (props : list (str * option str)) : obj :=
  match props with
  | [] => []
  | (k, Some v) :: ps => obj_set (object_of ps) k v
  | (_, None) :: ps => object_of ps
  end.

(** *** [reason] *)

(** [history.slice(-3)]. *)
Definition last_three {A} (l : list A) : list A := skipn (length l - 3) l.

Definition history_messages (relevant : list HistoryEntry) : list Message :=
  flat_map
    (fun msg =>
       let assistant :=
         construct
           (object_of [(lit "tool", Some (lit "Google."));
                       (lit "thought", h_thought msg);
                       (lit "keyphrases", h_keyphrases msg);
                       (lit "observation", h_answer msg);
                       (lit "topic", h_topic msg)]) in
       [{| role := lit "user"; content := h_inquiry msg |};
        {| role := lit "assistant"; content := assistant |}])
    relevant.

(** [{ language, topic, thought, keyphrases, observation, ...context }]: a
    property the context already has wins.  The front-ends start from a
    context with [inquiry], [history] and [delegates] only. *)
Definition or_else {A} (mine given : option A) : option A :=
  match given with
  | Some x => Some x
  | None => mine
  end.

Definition reason (context : Context) : M Context :=
  let d := delegates context in
  call_enter d (lit "Reason") ;;;
  let relevant := last_three (history context) in
  let prompt :=
    match relevant with
    | [] => REASON_PROMPT ++ REASON_EXAMPLE
    | _ :: _ => REASON_PROMPT
    end in
  let messages :=
    [{| role := lit "system"; content := prompt |}]
      ++ history_messages relevant
      ++ [{| role := lit "user"; content := inquiry context |}] in
  let hint := join [NL] [lit "TOOL: Google."; lit "LANGUAGE: "] in
  completion <- chat (messages ++ [{| role := lit "assistant"; content := hint |}]) None ;;
  let result := breakdown hint completion in
  result <-
    (if truthy (obj_get result (lit "keyphrases")) then ret result
     else
       let hint :=
         join [NL]
           [lit "TOOL: Google.";
            lit "THOUGHT: " ++ text_or_undefined (obj_get result (lit "thought"));
            lit "KEYPHRASES: "] in
       completion <-
         chat (messages ++ [{| role := lit "assistant"; content := hint |}]) None ;;
       ret (breakdown hint completion)) ;;
  let language' := obj_get result (lit "language") in
  let topic' := obj_get result (lit "topic") in
  let thought' := obj_get result (lit "thought") in
  let keyphrases' := obj_get result (lit "keyphrases") in
  let observation' := obj_get result (lit "observation") in
  call_leave d (lit "Reason")
    (ReasonFields language' topic' thought' keyphrases' observation') ;;;
  ret {| inquiry := inquiry context; history := history context;
         delegates := delegates context;
         language := or_else language' (language context);
         topic := or_else topic' (topic context);
         thought := or_else thought' (thought context);
         keyphrases := or_else keyphrases' (keyphrases context);
         observation := or_else observation' (observation context);
         references := references context;
         answer := answer context |}.

(** *** [search] *)

Definition TOP_K : nat := 3.
Definition MAX_CHARS : nat := 1000.

(** [keyphrases.replace(/\.$/, '').replace(/^"|"$/g, '')]. *)
Definition strip_final (c : char) (s : str) : str :=
  match rev s with
  | x :: r => if N.eqb x c then rev r else s
  | [] => s
  end.

Definition strip_first (c : char) (s : str) : str :=
  match s with
  | x :: r => if N.eqb x c then r else s
  | [] => s
  end.

Definition clean_query (keyphrases : str) : str :=
  strip_final 34%N (strip_first 34%N (strip_final 46%N keyphrases)).

(** [snippets.join('\n')] on an array of strings; [null] joins as the empty
    string. *)
Fixpoint snippet_texts (items : list value) : option (list str) :=
  match items with
  | [] => Some []
  | JStr s :: rest => option_map (cons s) (snippet_texts rest)
  | JNull :: rest => option_map (cons []) (snippet_texts rest)
  | _ :: _ => None
  end.

(** The callback of [hits.slice(0, TOP_K).map]. *)
Definition reference_of (hit : value) (i : nat) : result Reference :=
  match hit with
  | JNull => Throw TypeError
  | _ =>
      let description :=
        match get hit (lit "description") with
        | Undef => Val (JStr [])
        | x => x
        end in
      let snippets :=
        match get hit (lit "snippets") with
        | Undef => Val (JArr [])
        | x => x
        end in
      match snippets with
      | Val (JArr items) =>
          match snippet_texts items, to_text description with
          | Some texts, Some d =>
              Ok {| position := i + 1;
                    title := get hit (lit "title");
                    url := get hit (lit "url");
                    snippet := d ++ substring 0 MAX_CHARS (join [NL] texts) |}
          | _, _ => Beyond
          end
      | _ => Throw TypeError
      end
  end.

Fixpoint references_of (hits : list value) (i : nat) : result (list Reference) :=
  match hits with
  | [] => Ok []
  | hit :: rest =>
      match reference_of hit i with
      | Ok r =>
          match references_of rest (S i) with
          | Ok rs => Ok (r :: rs)
          | other => other
          end
      | Throw e => Throw e
      | Beyond => Beyond
      end
  end.

(** [fetch] of the search endpoint, then [response.json()]. *)
Definition fetch_search (query : str) : M (WebReply * value) :=
  fun w =>
    let reply := web w (length (web_queries w)) in
    let w1 := log_web query w in
    match reply with
    | None => (Throw NetworkError, w1)
    | Some r =>
        match JSON_parse (web_body r) with
        | None => (Throw SyntaxError, w1)
        | Some data => (Ok (r, data), w1)
        end
    end.

Definition with_references (context : Context) (refs : list Reference) : Context :=
  {| inquiry := inquiry context; history := history context;
     delegates := delegates context; language := language context;
     topic := topic context; thought := thought context;
     keyphrases := keyphrases context; observation := observation context;
     references := Some refs; answer := answer context |}.

(** The body of [search]; [again] is the call [search(context, attempt - 1)]
    when [attempt > 1], and nothing otherwise. *)
Definition search_attempt (again : option (M Context)) (context : Context)
  : M Context :=
  let d := delegates context in
  call_enter d (lit "Search") ;;;
  match keyphrases context with
  | None => throw TypeError
  | Some k =>
      let query := clean_query k in
      reply <- fetch_search query ;;
      let (response, data) := reply in
      if negb (web_ok response) then
        match again with
        | Some retry => retry
        | None => throw (SearchFailed (web_status response))
        end
      else
        match data with
        | JNull => throw TypeError
        | _ =>
            let hits :=
              match get data (lit "hits") with
              | Undef => Val (JArr [])
              | x => x
              end in
            let finish (refs : list Reference) : M Context :=
              call_leave d (lit "Search") (SearchFields refs) ;;;
              ret (with_references context refs) in
            match hits with
            | Val (JArr (h :: hs)) =>
                refs <- lift (references_of (firstn TOP_K (h :: hs)) 0) ;;
                finish refs
            | _ =>
                match again with
                | Some retry => retry
                | None => finish []
                end
            end
        end
  end.

(** [search(context, attempt)]; the pipeline calls it with the default
    [attempt = 3]. *)
Fixpoint search_from (attempt : nat) (context : Context) : M Context :=
  search_attempt
    match attempt with
    | S (S _ as less) => Some (search_from less context)
    | _ => None
    end
    context.

Definition search (context : Context) : M Context := search_from 3 context.

(** *** [respond] *)

Definition reference_line (r : Reference) : option str :=
  match to_text (title r) with
  | Some t =>
      Some (lit "[citation:" ++ nat_to_str (position r) ++ lit "] " ++ t
              ++ lit " - " ++ snippet r)
  | None => None
  end.

Fixpoint reference_lines (refs : list Reference) : option (list str) :=
  match refs with
  | [] => Some []
  | r :: rest =>
      match reference_line r, reference_lines rest with
      | Some l, Some ls => Some (l :: ls)
      | _, _ => None
      end
  end.

Definition respond (context : Context) : M Context :=
  let d := delegates context in
  call_enter d (lit "Respond") ;;;
  messages <-
    match references context with
    | Some (r :: rs) =>
        match reference_lines (r :: rs) with
        | Some refs =>
            let prompt :=
              replace (lit "{REFERENCES}") (join [NL] refs)
                (replace (lit "{LANGUAGE}") (text_or_undefined (language context))
                   RESPOND_PROMPT) in
            ret [{| role := lit "system"; content := prompt |};
                 {| role := lit "user"; content := inquiry context |}]
        | None => beyond
        end
    | _ => ret []
    end ;;
  text <- chat messages (stream d) ;;
  call_leave d (lit "Respond") (RespondFields (inquiry context)) ;;;
  ret {| inquiry := inquiry context; history := history context;
         delegates := delegates context; language := language context;
         topic := topic context; thought := thought context;
         keyphrases := keyphrases context; observation := observation context;
         references := references context;
         answer := or_else (Some text) (answer context) |}.

(** [pipe(reason, search, respond)]. *)
Definition pipeline (context : Context) : M Context :=
  c1 <- reason context ;;
  c2 <- search c1 ;;
  respond c2.

(** *** [simplify] *)

Definition isOdd (x : nat) : bool := negb (Nat.eqb (x mod 2) 0).

(** The callback of [stages.map]: the entry at an odd index gets its
    duration from the entry before it. *)
Definition with_duration (all : list StageEvent) (index : nat) (stage : StageEvent)
  : StageEvent :=
  if isOdd index then
    match nth_error all (index - 1) with
    | Some before =>
        {| name := name stage; timestamp := timestamp stage; extra := extra stage;
           duration := Some (timestamp stage - timestamp before)%Z |}
    | None => stage
    end
  else stage.

Fixpoint map_index {A B} (f : nat -> A -> B) (i : nat) (l : list A) : list B :=
  match l with
  | [] => []
  | x :: l' => f i x :: map_index f (S i) l'
  end.

Fixpoint filter_index {A} (p : nat -> bool) (i : nat) (l : list A) : list A :=
  match l with
  | [] => []
  | x :: l' => if p i then x :: filter_index p (S i) l' else filter_index p (S i) l'
  end.

Definition simplify (all : list StageEvent) : list StageEvent :=
  filter_index isOdd 0 (map_index (with_duration all) 0 all).

(** *** [format], of the Telegram front-end *)

Fixpoint reference_list (refs : list nat) (i : nat) (references : list Reference)
  : result str :=
  match refs with
  | [] => Ok []
  | ref :: rest =>
      match (if Nat.eqb ref 0 then None else nth_error references (ref - 1)) with
      | None => Throw TypeError
      | Some r =>
          match to_text (url r), reference_list rest (S i) references with
          | Some u, Ok more =>
              Ok (lit "[" ++ nat_to_str (i + 1) ++ lit "] " ++ u ++ [NL] ++ more)
          | None, _ => Beyond
          | _, other => other
          end
      end
  end.

(** [None] when the rewriting loop does not come to an end. *)
Definition format (text : str) (references : option (list Reference))
  : option (result str) :=
  match format_loop (length text) text [] with
  | None => None
  | Some (buffer, refs) =>
      match references with
      | Some rs =>
          if length refs <=? length rs then
            match reference_list refs 0 rs with
            | Ok more => Some (Ok (buffer ++ [NL; NL] ++ lit "References:" ++ [NL] ++ more))
            | Throw e => Some (Throw e)
            | Beyond => Some Beyond
            end
          else Some (Ok buffer)
      | None => Some (Ok buffer)
      end
  end.

(** *** The front-ends: one inquiry *)

(** The [enter] and [leave] closures all front-ends define; the terminal
    front-end also prints a line from [leave], which is not kept here. *)
Definition record_enter (n : str) (w : World) : World := push_stage n NoFields w.
Definition record_leave (n : str) (f : fields) (w : World) : World := push_stage n f w.

(** [stream] of the terminal front-end: [display = push(display, text)]. *)
Definition show_text (text : str) (w : World) : World :=
  match push (shown w) text with
  | Some (d, Some out) => set_shown d (out :: written w) (off_model w) w
  | Some (d, None) => set_shown d (written w) (off_model w) w
  | None => set_shown (shown w) (written w) true w
  end.

Definition test_delegates : Delegates :=
  {| enter := Some record_enter; leave := Some record_leave; stream := None |}.

Definition terminal_delegates : Delegates :=
  {| enter := Some record_enter; leave := Some record_leave; stream := Some show_text |}.

Definition read_stages : M (list StageEvent) := fun w => (Ok (stages w), w).

Definition within_model : M unit :=
  fun w => if off_model w then (Beyond, w) else (Ok tt, w).

(** The [User] branch of [handle] in [evaluate]: the history after it. *)
Definition evaluate_user (history : list HistoryEntry) (inquiry : str)
  : M (list HistoryEntry) :=
  effect (set_stages []) ;;;
  let context := new_context inquiry history test_delegates in
  start <- now ;;
  result <- pipeline context ;;
  finish <- now ;;
  recorded <- read_stages ;;
  ret (history ++
         [{| h_inquiry := inquiry; h_thought := thought result;
             h_keyphrases := keyphrases result; h_topic := topic result;
             h_references := references result; h_answer := answer result;
             h_duration := (finish - start)%Z; h_stages := recorded |}]).

(** [references[ref - 1]] for every [ref], as the terminal front-end reads
    them to print the links. *)
Fixpoint print_links (refs : list nat) (references : list Reference) : result unit :=
  match refs with
  | [] => Ok tt
  | ref :: rest =>
      match (if Nat.eqb ref 0 then None else nth_error references (ref - 1)) with
      | None => Throw TypeError
      | Some _ => print_links rest references
      end
  end.

(** The last branch of the callback of [qa] in [interact]. *)
Definition interact_inquiry (history : list HistoryEntry) (inquiry : str)
  : M (list HistoryEntry) :=
  effect (set_stages []) ;;;
  let context := new_context inquiry history terminal_delegates in
  start <- now ;;
  result <- pipeline context ;;
  within_model ;;;
  refs <- (fun w => (Ok (d_refs (shown w)), w)) ;;
  effect (fun w => let (d, out) := flush (shown w) in
                   set_shown d (out :: written w) (off_model w) w) ;;;
  finish <- now ;;
  match references result with
   | Some rs =>
       if length refs <=? length rs then lift (print_links refs rs) else ret tt
   | None => ret tt
   end ;;;
  recorded <- read_stages ;;
  ret (history ++
         [{| h_inquiry := inquiry; h_thought := thought result;
             h_keyphrases := keyphrases result; h_topic := topic result;
             h_references := None; h_answer := answer result;
             h_duration := (finish - start)%Z; h_stages := recorded |}]).

(** A world in which nothing has happened yet. *)
Definition fresh (streaming : bool) (l : nat -> option LlmReply)
  (s : nat -> option WebReply) (c : nat -> Z) : World :=
  {| LLM_STREAMING := streaming; llm := l; web := s; clock := c;
     llm_requests := []; web_queries := []; clock_reads := 0; stages := [];
     shown := {| d_buffer := []; d_refs := [] |}; written := []; off_model := false |}.

End Pipeline.

(** ** What the statements below speak about *)

Module Spec.

Import Chat Display Pipeline.

(** *** The codec *)

Definition RECOGNIZED : list str :=
  [lit "tool"; lit "language"; lit "thought"; lit "keyphrases"; lit "observation";
   lit "topic"].

(** A mapping over the six recognized keys with non-empty values. *)
Definition recognized (m : obj) : Prop :=
  forall k v, In (k, v) m -> In k RECOGNIZED /\ v <> [].

(** Parsing the serialization gives back every key of [m] with its value. *)
Definition restores (m : obj) : Prop :=
  forall k v, obj_get m k = Some v -> obj_get (deconstruct (construct m)) k = Some v.

(** No marker followed by a colon occurs in [v]. *)
Definition marker_free (v : str) : Prop :=
  forall K, In K PREDEFINED_KEYS -> lastIndexOf (K ++ [COLON]) v = None.

(** A value on one line, without white space at either end, in which no
    marker occurs. *)
Definition plain_value (v : str) : Prop :=
  trim v = v /\ ~ In NL v /\ marker_free v.

(** The line [construct] writes for a marker and its value; the lines of
    several markers, each closed by a newline. *)
Definition line (K v : str) : str := K ++ COLON :: SPACE :: v.

Fixpoint body (es : list (str * str)) : str :=
  match es with
  | [] => []
  | e :: es' => line (fst e) (snd e) ++ NL :: body es'
  end.

(** The markers of [ks] that have a non-empty value in [m], with it. *)
Definition entries_of (ks : list str) (m : obj) : list (str * str) :=
  flat_map
    (fun K =>
       match obj_get m (toLowerCase K) with
       | Some (c :: v) => [(K, c :: v)]
       | _ => []
       end) ks.

(** The assignments [parts[key] = value], one after the other. *)
Definition store (parts : obj) (es : list (str * str)) : obj :=
  fold_left (fun p e => obj_set p (toLowerCase (fst e)) (snd e)) es parts.

Inductive subseq {A : Type} : list A -> list A -> Prop :=
| subseq_nil : forall l, subseq [] l
| subseq_take : forall x l1 l2, subseq l1 l2 -> subseq (x :: l1) (x :: l2)
| subseq_skip : forall x l1 l2, subseq l1 l2 -> subseq l1 (x :: l2).

Definition entry_ok (e : str * str) : Prop :=
  In (fst e) PREDEFINED_KEYS /\ plain_value (snd e).

(** *** The streaming path of [chat] *)

(** The lines of a read up to the terminator: the loop over the lines of a
    read stops there, and goes on with the next read. *)
Fixpoint until_done (lines : list str) : list str :=
  match lines with
  | [] => []
  | l :: rest => if str_eqb l DONE_LINE then [] else l :: until_done rest
  end.

Definition lines_of (reads : list str) : list str :=
  flat_map (fun value => until_done (split NL value)) reads.

(** The text a line carries: the string [parse] finds in it, if any. *)
Definition text_of (l : str) : str :=
  match parse l with
  | Val (JStr d) => d
  | _ => []
  end.

(** The deltas of a transcript, line by line (empty for a line without
    text). *)
Definition deltas_of (reads : list str) : list str := map text_of (lines_of reads).

(** A line that is blank, or holds a whole frame: not a comment, not the
    terminator, and [parse] finds a string in it or no [content] at all. *)
Definition whole (l : str) : Prop :=
  l = [] \/
  (hd_error l <> Some COLON /\ l <> DONE_LINE /\
   ((exists d, parse l = Val (JStr d)) \/ parse l = Undef)).

Definition is_empty (d : str) : bool :=
  match d with
  | [] => true
  | _ :: _ => false
  end.

(** Nothing but white space. *)
Definition is_blank (d : str) : bool := is_empty (trimStart d).

(** The first delta that is not blank. *)
Fixpoint first_visible (ds : list str) : option str :=
  match ds with
  | [] => None
  | d :: ds' => if is_blank d then first_visible ds' else Some d
  end.

(** What the sink is to receive: nothing for the blank deltas that come
    first, the first visible delta without its leading white space, then
    every non-empty delta as it is. *)
Fixpoint emissions (ds : list str) : list str :=
  match ds with
  | [] => []
  | d :: ds' =>
      if is_blank d then emissions ds'
      else trimStart d :: filter (fun x => negb (is_empty x)) ds'
  end.

(** C4 as it is worded: the leading white space is stripped from the first
    non-empty delta, and from that one only. *)
Definition claimed_emissions (ds : list str) : list str :=
  match filter (fun x => negb (is_empty x)) ds with
  | [] => []
  | d :: rest => trimStart d :: rest
  end.

(** The variables of the loop after a whole line with the text [d]. *)
Definition absorb (st : stream_state) (d : str) : stream_state :=
  match d with
  | [] => st
  | _ :: _ =>
      match Chat.answer st with
      | [] =>
          {| Chat.answer := trim d; Chat.buffer := [];
             Chat.emitted := match trim d with
                             | [] => Chat.emitted st
                             | _ :: _ => trim d :: Chat.emitted st
                             end |}
      | _ :: _ =>
          {| Chat.answer := Chat.answer st ++ d; Chat.buffer := [];
             Chat.emitted := d :: Chat.emitted st |}
      end
  end.


(** A frame with the text [d], for a [d] that needs no escapes. *)
Definition frame_line (d : str) : str :=
  dq "data: {'choices':[{'delta':{'content':'" ++ d ++ dq "'}}]}".

(** A frame that announces the role and has an empty text. *)
Definition silent_frame : str :=
  dq "data: {'choices':[{'delta':{'role':'assistant','content':''}}]}".

Definition hello_reads : list str :=
  [frame_line (lit " Hello") ++ [NL; NL];
   frame_line (lit " world") ++ [NL; NL] ++ DONE_LINE ++ [NL; NL]].

Definition blank_first_reads : list str :=
  [frame_line (lit " ") ++ [NL; NL] ++ frame_line (lit " hi") ++ [NL; NL]
     ++ DONE_LINE ++ [NL; NL]].

Definition silent_transcript : str :=
  silent_frame ++ [NL; NL] ++ frame_line (lit "Hi") ++ [NL; NL] ++ DONE_LINE ++ [NL; NL].

(** *** The citation rewriter *)

(** The chunks pushed one after the other, then the flush: everything that
    was written to the terminal, and the references seen before the flush. *)
Fixpoint feed (d : display) (chunks : list str) (out : str)
  : option (display * str) :=
  match chunks with
  | [] => Some (d, out)
  | text :: rest =>
      match push d text with
      | Some (d', Some o) => feed d' rest (out ++ o)
      | Some (d', None) => feed d' rest out
      | None => None
      end
  end.

Definition rewritten (chunks : list str) : option (str * list nat) :=
  match feed {| d_buffer := []; d_refs := [] |} chunks [] with
  | Some (d, out) => Some (out ++ snd (flush d), d_refs d)
  | None => None
  end.



(** *** Scripted worlds for the pipeline *)

Definition script {A : Type} (l : list A) (n : nat) : option A := nth_error l n.

Definition steady_clock (n : nat) : Z := Z.of_nat (10 * n).

(** A reply of the chat endpoint to a request without streaming, with the
    given text, written as it stands inside the JSON string. *)
Definition plain_reply (text : str) : LlmReply :=
  {| llm_ok := true; llm_status := 200;
     llm_reads := [dq "{'choices':[{'message':{'content':'" ++ text ++ dq "'}}]}"] |}.

Definition web_hits : WebReply :=
  {| web_ok := true; web_status := 200;
     web_body := dq "{'hits':[{'title':'Tea','url':'http://tea.example','description':'About tea. ','snippets':['Tea is a drink.']}]}" |}.

Definition web_no_hits : WebReply :=
  {| web_ok := true; web_status := 200; web_body := dq "{'hits':[]}" |}.

(** An error with a JSON body, and one with the plain body of a gateway. *)
Definition web_error (status : nat) : WebReply :=
  {| web_ok := false; web_status := status; web_body := dq "{'error':'failed'}" |}.

Definition web_gateway_error : WebReply :=
  {| web_ok := false; web_status := 502; web_body := lit "Bad Gateway" |}.

Definition tea : str := lit "What is tea?".

Definition reasoned : LlmReply :=
  plain_reply (lit "English.\nTHOUGHT: about tea.\nKEYPHRASES: green tea.\nTOPIC: drinks.").

Definition answered : LlmReply := plain_reply (lit "Tea is a drink [citation:1].").

(** *** The front-ends *)

Inductive frontend :=
| TestRunner
| Terminal.

Definition delegates_of (f : frontend) : Delegates :=
  match f with
  | TestRunner => test_delegates
  | Terminal => terminal_delegates
  end.

Definition turn (f : frontend) : list HistoryEntry -> str -> M (list HistoryEntry) :=
  match f with
  | TestRunner => evaluate_user
  | Terminal => interact_inquiry
  end.

(** The history variable of the front-end after a turn: the push happens
    only when the turn gets that far. *)
Definition history_after (h : list HistoryEntry) (r : result (list HistoryEntry))
  : list HistoryEntry :=
  match r with
  | Ok h' => h'
  | _ => h
  end.

(** The world in which the pipeline of a turn starts: no stage recorded yet,
    and the clock read once. *)
Definition start_world (w : World) : World := tick (set_stages [] w).

Definition turn_pipeline (f : frontend) (h : list HistoryEntry) (i : str) : M Context :=
  pipeline (new_context i h (delegates_of f)).

Definition is_enter (e : StageEvent) : bool :=
  match extra e with
  | NoFields => true
  | _ => false
  end.

Definition ok_value {A : Type} (r : result A) : option A :=
  match r with
  | Ok a => Some a
  | _ => None
  end.

(** [{ answer, ...context }] for a context that has no answer yet. *)
Definition with_answer (context : Context) (text : str) : Context :=
  {| inquiry := inquiry context; history := history context;
     delegates := delegates context; language := language context;
     topic := topic context; thought := thought context;
     keyphrases := keyphrases context; observation := observation context;
     references := references context; answer := Some text |}.

(** A reply of the search endpoint that is a success and names no hit. *)
Definition without_hits (r : WebReply) : Prop :=
  web_ok r = true /\
  exists data, JSON_parse (web_body r) = Some data /\ data <> JNull /\
    match get data (lit "hits") with
    | Val (JArr (_ :: _)) => False
    | _ => True
    end.

(** Reading a field of a world that the delegates have updated. *)
Ltac queries :=
  unfold record_enter, record_leave, push_stage, set_stages, tick, log_web;
  simpl; lia.

End Spec.

(** ** The test runner: expectations, matches and their display *)

Module Regex.

Import Display.

Definition SLASH : char := 47%N.
Definition BACKSLASH : char := 92%N.

(** The inner function [filler] of [regexify]: the index of the first slash
    at or after [index], or the length of the text. *)
Fixpoint filler_from (s : str) (i : nat) : nat :=
  match s with
  | [] => i
  | c :: s' => if N.eqb c SLASH then i else filler_from s' (S i)
  end.

Definition filler (text : str) (index : nat) : nat :=
  filler_from (skipn index text) index.

(** The inner function [pattern]: from a slash at [index], the index of the
    next slash that has no backslash before it, or the length of the text;
    [index] itself when there is no slash at [index]. *)
Fixpoint pattern_from (prev : char) (s : str) (i : nat) : nat :=
  match s with
  | [] => i
  | c :: s' =>
      if N.eqb c SLASH && negb (N.eqb prev BACKSLASH) then i
      else pattern_from c s' (S i)
  end.

Definition pattern (text : str) (index : nat) : nat :=
  match skipn index text with
  | c :: rest => if N.eqb c SLASH then pattern_from c rest (S index) else index
  | [] => index
  end.

Section Constructor.

(** Whether [RegExp(source, 'gi')] returns: the engine refuses the sources
    that are no regular expressions, and the call then throws a
    [SyntaxError].  Which sources it takes is the matter of the engine. *)
Variable accepted : str -> bool.

(** The [while] loop of [regexify], over the sources of the regular
    expressions; [None] when the fuel does not suffice. *)
Fixpoint regexify_loop (fuel : nat) (m : str) (pos : nat) (regexes : list str)
  : option (result (list str)) :=
  if pos <? length m then
    match fuel with
    | 0 => None
    | S fuel' =>
        let pos := filler m pos in
        let next := pattern m pos in
        if (pos <? next) && (next <? length m) then
          let sub := substring (pos + 1) next m in
          if accepted sub then regexify_loop fuel' m (next + 1) (regexes ++ [sub])
          else Some (Throw SyntaxError)
        else Some (Ok regexes)
    end
  else Some (Ok regexes).

(** [regexify(match)]: the regular expressions it returns, each given by
    its source, all with the flags [gi]. *)
Definition regexify (m : str) : option (result (list str)) :=
  match regexify_loop (length m) m 0 [] with
  | Some (Ok []) => if accepted m then Some (Ok [m]) else Some (Throw SyntaxError)
  | other => other
  end.

End Constructor.

(** A span of a text: what [match] keeps of a match. *)
Record span := {
  s_index : nat;
  s_length : nat
}.

Section Engine.

(** [RegExp(source, 'gi').exec(text)] on a regular expression that has not
    been used before: the first match, as its index and its text. *)
Variable exec : str -> str -> option (nat * str).

(** [match(text, regexes)], the regular expressions being given by their
    sources. *)
Definition matches (text : str) (regexes : list str) : list span :=
  flat_map
    (fun regex =>
       match exec regex text with
       | None => []
       | Some (index, first) => [{| s_index := index; s_length := length first |}]
       end)
    regexes.

End Engine.

Definition BOLD : str := 27%N :: lit "[1m".
Definition GREEN : str := 27%N :: lit "[92m".

(** [spans.sort((p, q) => q.index - p.index)]: by falling index, spans with
    the same index staying in the order they had. *)
Fixpoint insert_span (s : span) (sorted : list span) : list span :=
  match sorted with
  | [] => [s]
  | x :: rest =>
      if s_index x <? s_index s then s :: x :: rest else x :: insert_span s rest
  end.

Definition sort_spans (spans : list span) : list span :=
  fold_left (fun sorted s => insert_span s sorted) spans [].

(** The callback of [forEach] in [highlight]. *)
Definition paint (color : str) (result : str) (s : span) : str :=
  let prefix := substring 0 (s_index s) result in
  let content := substring (s_index s) (s_index s + s_length s) result in
  let suffix := substring_from (s_index s + s_length s) result in
  prefix ++ color ++ content ++ NORMAL ++ suffix.

Definition highlight (text : str) (spans : list span) (color : str) : str :=
  fold_left (paint color) (sort_spans spans) text.

End Regex.

Module Evaluate.

Definition HASH : char := 35%N.

(** The inner function [trim] of [evaluate]: a line of the test file
    without its comment. *)
Definition trim (input : str) : str :=
  let text := JsString.trim input in
  match indexOf [HASH] text with
  | Some marker => JsString.trim (substr 0 marker text)
  | None => text
  end.

(** The head of [handle]: the role and the content of a line, when the line
    has a colon. *)
Definition parts (line : str) : list str :=
  match line with
  | [] => []
  | _ :: _ => split COLON line
  end.

Definition role_and_content (line : str) : option (str * str) :=
  match parts line with
  | role :: _ :: _ =>
      Some (role, JsString.trim (substring_from (length role + 1) line))
  | _ => None
  end.

(** The lines of a test file as [handle] gets them. *)
Definition lines (file : str) : list str := map trim (split NL file).

End Evaluate.

(** ** [review] *)

Module Review.

Import Pipeline.

Definition QUOTE : char := 34%N.
Definition REVERSE_SOLIDUS : char := 92%N.

(** A hexadecimal digit in lower case; [\uXXXX]. *)
Definition hex_digit (n : N) : char := if N.ltb n 10 then (48 + n)%N else (87 + n)%N.

Definition unicode_escape (c : char) : str :=
  [REVERSE_SOLIDUS; 117%N; hex_digit (c / 4096); hex_digit ((c / 256) mod 16);
   hex_digit ((c / 16) mod 16); hex_digit (c mod 16)]%N.

Definition leading_surrogate (c : char) : bool := N.leb 55296 c && N.leb c 56319.
Definition trailing_surrogate (c : char) : bool := N.leb 56320 c && N.leb c 57343.

Definition escape (c : char) : str :=
  if N.eqb c QUOTE then [REVERSE_SOLIDUS; QUOTE]
  else if N.eqb c REVERSE_SOLIDUS then [REVERSE_SOLIDUS; REVERSE_SOLIDUS]
  else if N.eqb c 8 then [REVERSE_SOLIDUS; 98%N]
  else if N.eqb c 12 then [REVERSE_SOLIDUS; 102%N]
  else if N.eqb c 10 then [REVERSE_SOLIDUS; 110%N]
  else if N.eqb c 13 then [REVERSE_SOLIDUS; 114%N]
  else if N.eqb c 9 then [REVERSE_SOLIDUS; 116%N]
  else if N.ltb c 32 then unicode_escape c
  else if leading_surrogate c || trailing_surrogate c then unicode_escape c
  else [c].

(** The characters of a string as [JSON.stringify] writes them: a pair of
    surrogates stays, a surrogate on its own is escaped. *)
Fixpoint quote_chars (s : str) : str :=
  match s with
  | [] => []
  | c :: rest =>
      match rest with
      | d :: rest' =>
          if leading_surrogate c && trailing_surrogate d
          then c :: d :: quote_chars rest'
          else escape c ++ quote_chars rest
      | [] => escape c
      end
  end.

Definition quote (s : str) : str := QUOTE :: quote_chars s ++ [QUOTE].

(** [`${z}`] for an integer that a number holds exactly. *)
Definition integer_text (z : Z) : option str :=
  if (Z.abs z <? 2 ^ 53)%Z then
    Some match z with
         | Z0 => lit "0"
         | Zpos p => nat_to_str (Pos.to_nat p)
         | Zneg p => lit "-" ++ nat_to_str (Pos.to_nat p)
         end
  else None.

(** A property of a reference as [JSON.stringify] sees it: left out when it
    is [undefined]; written when it is [null], a boolean or a string; the
    other values are not covered here. *)
Definition property (key : str) (x : jsv) : option (list str) :=
  match x with
  | Undef => Some []
  | Val JNull => Some [quote key ++ lit ": null"]
  | Val (JBool true) => Some [quote key ++ lit ": true"]
  | Val (JBool false) => Some [quote key ++ lit ": false"]
  | Val (JStr s) => Some [quote key ++ lit ": " ++ quote s]
  | _ => None
  end.

(** An element of [JSON.stringify(references, null, 2)]. *)
Definition reference_text (r : Reference) : option str :=
  match property (lit "title") (title r), property (lit "url") (url r) with
  | Some t, Some u =>
      let members :=
        [quote (lit "position") ++ lit ": " ++ nat_to_str (position r)]
          ++ t ++ u ++ [quote (lit "snippet") ++ lit ": " ++ quote (snippet r)] in
      Some (lit "{" ++ NL :: lit "    "
              ++ join (lit "," ++ NL :: lit "    ") members
              ++ NL :: lit "  }")
  | _, _ => None
  end.

Fixpoint reference_texts (refs : list Reference) : option (list str) :=
  match refs with
  | [] => Some []
  | r :: rest =>
      match reference_text r, reference_texts rest with
      | Some t, Some ts => Some (t :: ts)
      | _, _ => None
      end
  end.

(** [JSON.stringify(references, null, 2)]. *)
Definition stringify (refs : list Reference) : option str :=
  match refs with
  | [] => Some (lit "[]")
  | _ :: _ =>
      match reference_texts refs with
      | Some texts =>
          Some (lit "[" ++ NL :: lit "  " ++ join (lit "," ++ NL :: lit "  ") texts
                  ++ NL :: lit "]")
      | None => None
      end
  end.

(** [value.toString()] on a field that holds a string or [undefined]. *)
Definition text_of_field (x : option str) : result str :=
  match x with
  | Some s => Ok s
  | None => Throw TypeError
  end.

(** The properties of a stage besides [name], [duration] and [timestamp], in
    the order in which the stage got them, each with the text [review]
    makes of it. *)
Definition field_texts (f : fields) : list (str * result str) :=
  match f with
  | NoFields => []
  | ReasonFields language topic thought keyphrases observation =>
      [(lit "language", text_of_field language); (lit "topic", text_of_field topic);
       (lit "thought", text_of_field thought);
       (lit "keyphrases", text_of_field keyphrases);
       (lit "observation", text_of_field observation)]
  | SearchFields references =>
      [(lit "references",
        match stringify references with
        | Some text => Ok text
        | None => Beyond
        end)]
  | RespondFields inquiry => [(lit "inquiry", Ok inquiry)]
  end.

(** The lines [Object.keys(fields).map] adds to the buffer. *)
Fixpoint field_lines (fs : list (str * result str)) : result str :=
  match fs with
  | [] => Ok []
  | (key, Ok text) :: rest =>
      match field_lines rest with
      | Ok more => Ok (key ++ lit ": " ++ text ++ [NL] ++ more)
      | other => other
      end
  | (_, Throw e) :: _ => Throw e
  | (_, Beyond) :: _ => Beyond
  end.

(** What one stage adds to the buffer. *)
Definition stage_text (index : nat) (stage : StageEvent) : result str :=
  let time :=
    match duration stage with
    | None => Some (lit "undefined")
    | Some z => integer_text z
    end in
  match time with
  | None => Beyond
  | Some ms =>
      match field_lines (field_texts (extra stage)) with
      | Ok lines =>
          Ok (NL :: lit "Stage #" ++ nat_to_str (index + 1) ++ lit " " ++ name stage
                ++ lit " [" ++ ms ++ lit " ms]" ++ [NL] ++ lines)
      | Throw e => Throw e
      | Beyond => Beyond
      end
  end.

Fixpoint review_from (index : nat) (stages : list StageEvent) : result str :=
  match stages with
  | [] => Ok []
  | stage :: rest =>
      match stage_text index stage with
      | Ok text =>
          match review_from (S index) rest with
          | Ok more => Ok (text ++ more)
          | other => other
          end
      | Throw e => Throw e
      | Beyond => Beyond
      end
  end.

(** [review(stages)]: the buffer it returns; what it prints on the way is
    not kept. *)
Definition review (stages : list StageEvent) : result str :=
  match review_from 0 stages with
  | Ok text => Ok (lit "Pipeline review:" ++ [NL] ++ text)
  | other => other
  end.

End Review.

Module Terms.
Import Chat Display Pipeline Spec.

(** A comment line of the event stream. *)
Definition comment (l : str) : Prop := hd_error l = Some COLON.

Definition keep_alive_reads : list str :=
  [lit ": OPENROUTER PROCESSING" ++ [NL; NL] ++ frame_line (lit "Hello") ++ [NL; NL];
   lit ": ping" ++ [NL; NL] ++ frame_line (lit " world") ++ [NL; NL] ++ DONE_LINE ++ [NL; NL]].

(** A line the loop passes over or takes a delta from. *)
Definition quiet (l : str) : Prop := whole l \/ comment l.

(** What the streaming loop keeps true of its variables. *)
Definition sound (st : stream_state) : Prop :=
  concat (rev (Chat.emitted st)) = Chat.answer st
  /\ Forall (fun d => d <> []) (Chat.emitted st)
  /\ trimStart (Chat.answer st) = Chat.answer st.

(** *** The codec *)

(** [pat] occurs in [s]. *)
Definition occurs (pat s : str) : Prop := exists a b, s = a ++ pat ++ b.

Definition TOPIC_MARKER : str := lit "TOPIC:".

(** An entry as [deconstruct] writes it: one of the seven keys, a value
    without white space in front and, for every key but the topic, on one
    line. *)
Definition entry_shape (k v : str) : Prop :=
  In k (map toLowerCase PREDEFINED_KEYS)
  /\ trimStart v = v
  /\ (k <> lit "topic" -> ~ In NL v).

(** *** The pipeline *)

(** The world after an attempt of [search] has entered and sent its
    request. *)
Definition asked (q : str) (w : World) : World :=
  log_web q (record_enter (lit "Search") w).

(** An event of the stage log, as far as its place in the log goes: the name
    of the stage, and whether it is an enter. *)
Definition kind (e : StageEvent) : str * bool := (name e, is_enter e).

(** References numbered from one, [TOP_K] at most. *)
Definition numbered (refs : list Reference) : Prop :=
  length refs <= TOP_K /\ map position refs = seq 1 (length refs).

(** A request without streaming. *)
Definition unstreamed (messages : list Message) : LlmRequest :=
  {| req_messages := messages; req_stream := false |}.

(** The messages [reason] puts before its hint. *)
Definition reason_messages (context : Context) : list Message :=
  [{| role := lit "system";
      content := match last_three (history context) with
                 | [] => REASON_PROMPT ++ REASON_EXAMPLE
                 | _ :: _ => REASON_PROMPT
                 end |}]
    ++ history_messages (last_three (history context))
    ++ [{| role := lit "user"; content := inquiry context |}].

Definition hinted (context : Context) (hint : str) : list Message :=
  reason_messages context ++ [{| role := lit "assistant"; content := hint |}].

Definition first_hint : str := join [NL] [lit "TOOL: Google."; lit "LANGUAGE: "].

Definition second_hint (thought : option str) : str :=
  join [NL]
    [lit "TOOL: Google."; lit "THOUGHT: " ++ text_or_undefined thought;
     lit "KEYPHRASES: "].

(** The context [reason] returns for what [breakdown] has found. *)
Definition reasoned_context (context : Context) (result : obj) : Context :=
  {| inquiry := inquiry context; history := history context;
     delegates := delegates context;
     language := or_else (obj_get result (lit "language")) (language context);
     topic := or_else (obj_get result (lit "topic")) (topic context);
     thought := or_else (obj_get result (lit "thought")) (thought context);
     keyphrases := or_else (obj_get result (lit "keyphrases")) (keyphrases context);
     observation := or_else (obj_get result (lit "observation")) (observation context);
     references := references context;
     answer := answer context |}.

Definition reason_fields (result : obj) : fields :=
  ReasonFields (obj_get result (lit "language")) (obj_get result (lit "topic"))
    (obj_get result (lit "thought")) (obj_get result (lit "keyphrases"))
    (obj_get result (lit "observation")).

(** The mapping whose text the second completion of [reason] is read
    from, when the completion is a plain text and no topic is found. *)
Definition retried (thought keyphrases : str) : obj :=
  [(lit "tool", lit "Google."); (lit "thought", thought);
   (lit "keyphrases", keyphrases); (lit "topic", lit "general knowledge.")].

(** A world in which the first completion brings no keyphrases and the
    second one is a plain text. *)
Definition halting_world : World :=
  fresh true
    (script [plain_reply (lit "English.\nTHOUGHT: about tea."); plain_reply (lit "green tea")])
    (script [web_hits]) steady_clock.

(** The calls a world has seen go out: to the chat endpoint, and to the
    search endpoint. *)
Definition llm_calls (w : World) : nat := length (llm_requests w).
Definition web_calls (w : World) : nat := length (web_queries w).

(** A context that has been through [reason], for a run of [search] alone. *)
Definition tea_context (f : frontend) : Context :=
  {| inquiry := tea; history := []; delegates := delegates_of f;
     language := Some (lit "English."); topic := Some (lit "drinks.");
     thought := Some (lit "about tea."); keyphrases := Some (lit "green tea.");
     observation := None; references := None; answer := None |}.

(** Worlds in which the search endpoint fails three times, and has no hits
    three times. *)
Definition failing_world : World :=
  fresh true (script []) (script [web_error 500; web_error 502; web_error 503])
    steady_clock.


(** A world in which the search endpoint fails once and then answers. *)
Definition retry_world : World :=
  fresh true (script [reasoned; answered]) (script [web_error 500; web_hits]) steady_clock.

(** *** [simplify] *)

(** A log made of pairs, the enter and then the leave of each. *)
Fixpoint interleave (ps : list (StageEvent * StageEvent)) : list StageEvent :=
  match ps with
  | [] => []
  | (a, b) :: ps' => a :: b :: interleave ps'
  end.

(** The second event of a pair, with the time that passed since the first. *)
Definition collapse (p : StageEvent * StageEvent) : StageEvent :=
  {| name := name (snd p); timestamp := timestamp (snd p); extra := extra (snd p);
     duration := Some (timestamp (snd p) - timestamp (fst p))%Z |}.

(** *** Expectations *)

(** Every slash of [p] has a backslash before it, and [p] does not end in a
    backslash; [prev] is the character before [p]. *)
Fixpoint escaped (prev : char) (p : str) : Prop :=
  match p with
  | [] => prev <> Regex.BACKSLASH
  | c :: p' => (c = Regex.SLASH -> prev = Regex.BACKSLASH) /\ escaped c p'
  end.

(** A pattern as it stands between two slashes. *)
Definition enclosed (p : str) : Prop := escaped Regex.SLASH p.

(** Patterns between slashes, each followed by a text without slashes. *)
Fixpoint slashed (items : list (str * str)) : str :=
  match items with
  | [] => []
  | (p, f) :: rest => Regex.SLASH :: p ++ Regex.SLASH :: f ++ slashed rest
  end.

Definition well_slashed (item : str * str) : Prop :=
  enclosed (fst item) /\ ~ In Regex.SLASH (snd item).

(** What [regexify] comes to when it makes regular expressions of the
    sources, one after the other. *)
Definition compiled (accepted : str -> bool) (sources : list str)
  : result (list str) :=
  if forallb accepted sources then Ok sources else Throw SyntaxError.

(** An engine for the examples: it refuses the sources whose parentheses
    do not match, and takes every other. *)
Fixpoint balanced_from (depth : nat) (s : str) : bool :=
  match s with
  | [] => Nat.eqb depth 0
  | c :: s' =>
      if N.eqb c 40 then balanced_from (S depth) s'
      else if N.eqb c 41 then
        match depth with
        | 0 => false
        | S d => balanced_from d s'
        end
      else balanced_from depth s'
  end.

Definition balanced (s : str) : bool := balanced_from 0 s.

(** Nothing, or a slash that is not closed. *)
Definition unclosed (tail : str) : Prop :=
  tail = [] \/ exists q, tail = Regex.SLASH :: q /\ ~ In Regex.SLASH q.

(** *** Highlighting *)

(** Spans in rising order that do not overlap, are not empty and lie in a
    text of the length [n]; the first begins at [from] or later. *)
Fixpoint apart (from n : nat) (spans : list Regex.span) : Prop :=
  match spans with
  | [] => from <= n
  | s :: rest =>
      from <= Regex.s_index s /\ 0 < Regex.s_length s
      /\ apart (Regex.s_index s + Regex.s_length s) n rest
  end.

(** The text from [from] on, with each of the spans set between [color] and
    [NORMAL]. *)
Fixpoint wrapped (color text : str) (from : nat) (spans : list Regex.span) : str :=
  match spans with
  | [] => skipn from text
  | s :: rest =>
      substring from (Regex.s_index s) text ++ color
        ++ substring (Regex.s_index s) (Regex.s_index s + Regex.s_length s) text
        ++ NORMAL
        ++ wrapped color text (Regex.s_index s + Regex.s_length s) rest
  end.

(** *** The display *)

Definition BRACKET : char := 91%N.

(** What [push] keeps true of what it has written and what it holds back,
    for a text that has come in so far: nothing is lost, and once something
    has been written, [MAX_LOOKAHEAD] characters are held back. *)
Definition held (total out buffer : str) : Prop :=
  out ++ buffer = total
  /\ length buffer <= MAX_LOOKAHEAD
  /\ (out <> [] -> length buffer = MAX_LOOKAHEAD).

(** What [push] puts in the place of a marker: the number of the citation
    in gray. *)
Definition coloured (citation : nat) : str :=
  GRAY ++ lit "[" ++ nat_to_str citation ++ lit "]" ++ NORMAL.

(** The end of [push]: what is written of the buffer as it stands after the
    loop, and what is kept. *)
Definition settled (buffer : str) (refs : list nat) : display * option str :=
  if MAX_LOOKAHEAD <? length buffer then
    ({| d_buffer := skipn (length buffer - MAX_LOOKAHEAD) buffer; d_refs := refs |},
     Some (firstn (length buffer - MAX_LOOKAHEAD) buffer))
  else ({| d_buffer := buffer; d_refs := refs |}, None).

(** What has been written in the end of a text of which the display holds
    [total], rewritten, after the flush. *)
Definition shown_of (total : str) : str :=
  firstn (length total - MAX_LOOKAHEAD) total
    ++ trimEnd (skipn (length total - MAX_LOOKAHEAD) total).

(** A marker with the single character [digit] for its number. *)
Definition marker (digit : char) : str := lit "[citation:" ++ [digit; 93%N].

(** A reference to cite. *)
Definition tea_reference : Reference :=
  {| position := 1; title := Val (JStr (lit "Tea"));
     url := Val (JStr (lit "http://tea.example")); snippet := lit "Tea is a drink." |}.

(** *** [review] *)

(** A stage of [Reason] in which one of the five fields is [undefined]. *)
Definition lacking (f : fields) : Prop :=
  match f with
  | ReasonFields language topic thought keyphrases observation =>
      language = None \/ topic = None \/ thought = None \/ keyphrases = None
      \/ observation = None
  | _ => False
  end.

(** A stage whose duration and references [review] can write, as far as
    they are covered here. *)
Definition printable (e : StageEvent) : Prop :=
  (forall z, duration e = Some z -> (Z.abs z < 2 ^ 53)%Z)
  /\ match extra e with
     | SearchFields refs => exists text, Review.stringify refs = Some text
     | _ => True
     end.

(** The text around the first occurrence of [pat] in [s]. *)
Definition DOLLAR : char := 36%N.

Definition around (pat s : str) : str * str :=
  match indexOf pat s with
  | Some i => (firstn i s, skipn (i + length pat) s)
  | None => (s, [])
  end.

(** [RESPOND_PROMPT] with [refs] in the place of its [{REFERENCES}] and
    [language] in the place of its [{LANGUAGE}], each as it stands. *)
Definition filled (refs language : str) : str :=
  let (head, rest) := around (lit "{REFERENCES}") RESPOND_PROMPT in
  let (middle, tail) := around (lit "{LANGUAGE}") rest in
  head ++ refs ++ middle ++ language ++ tail.

(** A context that has been through [search], with one reference. *)
Definition searched_context (f : frontend) : Context :=
  {| inquiry := tea; history := []; delegates := delegates_of f;
     language := Some (lit "English."); topic := Some (lit "drinks.");
     thought := Some (lit "about tea."); keyphrases := Some (lit "green tea.");
     observation := None;
     references := Some [{| position := 1; title := Val (JStr (lit "Tea"));
                            url := Val (JStr (lit "http://tea.example"));
                            snippet := lit "Tea is a drink." |}];
     answer := None |}.

(** The world of a turn in which everything goes well. *)
Definition calm_world : World :=
  fresh true (script [reasoned; answered]) (script [web_hits]) steady_clock.

End Terms.

(** ** Facts about strings *)

Module StringFacts.

(** [to_double] leaves the integers below [2^53] as they are, and rounds
    from there on: [2^53 + 1] and [2^53] are the same Number. *)
Lemma to_double_small (n : N) : (n < 2 ^ 53)%N -> to_double n = n.
Proof.
  intros H. unfold to_double.
  assert (Hs : (N.size n <= 53)%N).
  { destruct n as [|p]; [cbn; lia|].
    rewrite N.size_log2 by discriminate.
    apply N.le_succ_l. apply N.log2_lt_pow2; [reflexivity|exact H]. }
  apply N.leb_le in Hs. now rewrite Hs.
Qed.

Lemma to_double_rounds :
  to_double (2 ^ 53 + 1) = (2 ^ 53)%N /\ to_double (2 ^ 53 + 3) = (2 ^ 53 + 4)%N
  /\ to_double (10 ^ 309) = INFINITY.
Proof. split; [|split]; vm_compute; reflexivity. Qed.

Lemma str_eqb_eq (a b : str) : str_eqb a b = true <-> a = b.
Proof.
  revert b; induction a as [|x a IH]; intros [|y b]; simpl; split; intros H;
    try reflexivity; try discriminate.
  - apply andb_true_iff in H as [Hx Hr]. apply N.eqb_eq in Hx. apply IH in Hr.
    now subst.
  - injection H as -> ->. rewrite N.eqb_refl. simpl. now apply IH.
Qed.

Lemma str_eqb_refl (a : str) : str_eqb a a = true.
Proof. now apply str_eqb_eq. Qed.

Lemma str_eqb_neq (a b : str) : a <> b -> str_eqb a b = false.
Proof.
  intros H. destruct (str_eqb a b) eqn:E; [|reflexivity].
  apply str_eqb_eq in E. contradiction.
Qed.

Lemma starts_with_app (pat s : str) : starts_with pat (pat ++ s) = true.
Proof. induction pat as [|p pat IH]; simpl; [reflexivity|]. now rewrite N.eqb_refl. Qed.

(** A pattern cannot reach across a character it does not contain. *)
Lemma starts_with_sep (c : char) (pat a b : str) :
  ~ In c pat -> starts_with pat (a ++ c :: b) = starts_with pat a.
Proof.
  revert a; induction pat as [|p pat IH]; intros a Hc; [reflexivity|].
  destruct a as [|x a]; simpl.
  - destruct (N.eqb_spec p c) as [->|]; [|reflexivity].
    exfalso. apply Hc. now left.
  - rewrite IH; [reflexivity|]. intros H. apply Hc. now right.
Qed.

Lemma lastIndexOf_sep (c : char) (pat a b : str) :
  ~ In c pat -> pat <> [] ->
  lastIndexOf pat (a ++ c :: b) =
  match lastIndexOf pat b with
  | Some i => Some (length a + 1 + i)
  | None => lastIndexOf pat a
  end.
Proof.
  intros Hc Hp. induction a as [|x a IH].
  - simpl. destruct (lastIndexOf pat b); [reflexivity|].
    destruct pat as [|p pat]; [contradiction|]. simpl.
    destruct (N.eqb_spec p c) as [->|]; [|reflexivity].
    exfalso. apply Hc. now left.
  - change ((x :: a) ++ c :: b) with (x :: (a ++ c :: b)).
    cbn [lastIndexOf]. rewrite IH.
    destruct (lastIndexOf pat b) as [i|]; [reflexivity|].
    destruct (lastIndexOf pat a); [reflexivity|].
    change (x :: a ++ c :: b) with ((x :: a) ++ c :: b).
    now rewrite starts_with_sep.
Qed.

(** An occurrence in the second part is the last one of the whole. *)
Lemma lastIndexOf_app_found (pat a b : str) (i : nat) :
  lastIndexOf pat b = Some i -> lastIndexOf pat (a ++ b) = Some (length a + i).
Proof.
  intros H. induction a as [|x a IH]; [exact H|].
  simpl. now rewrite IH.
Qed.

Lemma starts_with_short (pat s : str) :
  length s < length pat -> starts_with pat s = false.
Proof.
  revert s; induction pat as [|p pat IH]; intros s H; [simpl in H; lia|].
  destruct s as [|x s]; [reflexivity|]. simpl in *.
  rewrite IH by lia. apply andb_false_r.
Qed.

Lemma lastIndexOf_short (pat s : str) :
  length s < length pat -> lastIndexOf pat s = None.
Proof.
  induction s as [|x s IH]; intros H.
  - simpl. now rewrite starts_with_short.
  - simpl. rewrite IH by (simpl in H; lia). now rewrite starts_with_short.
Qed.

Lemma lastIndexOf_self (pat : str) : pat <> [] -> lastIndexOf pat pat = Some 0.
Proof.
  destruct pat as [|p pat]; [contradiction|]. intros _.
  simpl. rewrite lastIndexOf_short by (simpl; lia).
  rewrite N.eqb_refl. simpl.
  pose proof (starts_with_app pat []) as H. rewrite app_nil_r in H. now rewrite H.
Qed.

Lemma indexOf_prefix (pat s : str) : indexOf pat (pat ++ s) = Some 0.
Proof.
  pose proof (starts_with_app pat s) as H.
  destruct (pat ++ s); simpl; now rewrite H.
Qed.

Lemma replace_prefix_empty (pat s : str) : replace pat [] (pat ++ s) = s.
Proof.
  unfold replace. rewrite indexOf_prefix. simpl.
  now rewrite skipn_app, skipn_all, Nat.sub_diag.
Qed.

(** [trim] *)

Lemma trimStart_length (s : str) : length (trimStart s) <= length s.
Proof. induction s as [|c s IH]; simpl; [lia|]. destruct (is_ws c); simpl; lia. Qed.

Lemma trimEnd_length (s : str) : length (trimEnd s) <= length s.
Proof.
  unfold trimEnd. rewrite length_rev.
  pose proof (trimStart_length (rev s)) as H. now rewrite length_rev in H.
Qed.

Lemma trimStart_fixed (s : str) : length (trimStart s) = length s -> trimStart s = s.
Proof.
  destruct s as [|c s]; [reflexivity|]. simpl.
  destruct (is_ws c); [|reflexivity].
  intros H. pose proof (trimStart_length s). simpl in H. lia.
Qed.

Lemma trim_fixed (s : str) : trim s = s -> trimStart s = s /\ trimEnd s = s.
Proof.
  intros H. unfold trim in H.
  assert (Hs : trimStart s = s).
  { apply trimStart_fixed. pose proof (trimEnd_length (trimStart s)) as H1.
    pose proof (trimStart_length s) as H2. rewrite H in H1. lia. }
  split; [exact Hs|]. now rewrite Hs in H.
Qed.

Lemma trimStart_app_keep (s t : str) :
  trimStart s <> [] -> trimStart (s ++ t) = trimStart s ++ t.
Proof.
  induction s as [|c s IH]; simpl; [contradiction|].
  destruct (is_ws c); [exact IH|reflexivity].
Qed.

Lemma trimStart_app_drop (s t : str) :
  trimStart s = [] -> trimStart (s ++ t) = trimStart t.
Proof.
  induction s as [|c s IH]; simpl; [reflexivity|].
  destruct (is_ws c); [exact IH|discriminate].
Qed.

Lemma trimEnd_snoc_ws (s : str) (c : char) :
  is_ws c = true -> trimEnd (s ++ [c]) = trimEnd s.
Proof. intros H. unfold trimEnd. rewrite rev_app_distr. simpl. now rewrite H. Qed.

(** The text between a marker and the next line, as [deconstruct] reads it. *)
Lemma trim_padded (v : str) :
  trim v = v -> trim (SPACE :: v ++ [NL]) = v.
Proof.
  intros H. destruct (trim_fixed H) as [Hs He].
  unfold trim. change (trimStart (SPACE :: v ++ [NL])) with (trimStart (v ++ [NL])).
  destruct v as [|c v].
  - reflexivity.
  - rewrite trimStart_app_keep by (rewrite Hs; discriminate).
    rewrite Hs. now rewrite trimEnd_snoc_ws.
Qed.

Lemma trim_space_cons (v : str) : trim (SPACE :: v) = trim v.
Proof. reflexivity. Qed.

Lemma split_no_sep (c : char) (s : str) : ~ In c s -> split c s = [s].
Proof.
  induction s as [|x s IH]; intros H; [reflexivity|]. simpl.
  destruct (N.eqb_spec x c) as [->|]; [exfalso; apply H; now left|].
  rewrite IH; [reflexivity|]. intros Hin. apply H. now right.
Qed.

End StringFacts.

(** ** The codec: serializing and parsing back *)

Module CodecFacts.

Import Spec StringFacts.

Lemma obj_get_set_same (o : obj) (k v : str) : obj_get (obj_set o k v) k = Some v.
Proof.
  induction o as [|[k' v'] o IH]; simpl.
  - now rewrite str_eqb_refl.
  - destruct (str_eqb k' k) eqn:E; simpl; rewrite E; [reflexivity|exact IH].
Qed.

Lemma obj_get_set_other (o : obj) (k k' v : str) :
  k <> k' -> obj_get (obj_set o k v) k' = obj_get o k'.
Proof.
  intros Hk. induction o as [|[k0 v0] o IH]; simpl.
  - now rewrite str_eqb_neq.
  - destruct (str_eqb k0 k) eqn:E; simpl.
    + apply str_eqb_eq in E. subst k0. now rewrite str_eqb_neq.
    + destruct (str_eqb k0 k'); [reflexivity|exact IH].
Qed.

Lemma obj_get_In (o : obj) (k v : str) : obj_get o k = Some v -> In (k, v) o.
Proof.
  induction o as [|[k' v'] o IH]; simpl; [discriminate|].
  destruct (str_eqb k' k) eqn:E.
  - intros [= ->]. apply str_eqb_eq in E. subst. now left.
  - intros H. right. now apply IH.
Qed.

Lemma store_get_other (es : list (str * str)) (parts : obj) (k : str) :
  (forall e, In e es -> toLowerCase (fst e) <> k) ->
  obj_get (store parts es) k = obj_get parts k.
Proof.
  revert parts; induction es as [|e es IH]; intros parts H; [reflexivity|].
  change (store parts (e :: es))
    with (store (obj_set parts (toLowerCase (fst e)) (snd e)) es).
  rewrite IH by (intros; apply H; now right).
  apply obj_get_set_other. apply H. now left.
Qed.

Lemma store_get_in (es : list (str * str)) (parts : obj) (K v : str) :
  NoDup (map (fun e => toLowerCase (fst e)) es) ->
  In (K, v) es ->
  obj_get (store parts es) (toLowerCase K) = Some v.
Proof.
  revert parts; induction es as [|e es IH]; intros parts Hnd Hin; [contradiction|].
  simpl in Hnd. inversion Hnd as [|x l Hx Hl]; subst.
  destruct Hin as [->|Hin].
  - change (store parts ((K, v) :: es))
      with (store (obj_set parts (toLowerCase K) v) es).
    rewrite store_get_other; [apply obj_get_set_same|].
    intros e He Heq. apply Hx. simpl. rewrite <- Heq.
    now apply (in_map (fun e => toLowerCase (fst e))).
  - change (store parts (e :: es))
      with (store (obj_set parts (toLowerCase (fst e)) (snd e)) es).
    now apply IH.
Qed.

(** Subsequences *)

Lemma subseq_In {A} (l1 l2 : list A) (x : A) : subseq l1 l2 -> In x l1 -> In x l2.
Proof.
  induction 1 as [l|y l1 l2 _ IH|y l1 l2 _ IH]; simpl; intros H.
  - contradiction.
  - destruct H; [now left|right; now apply IH].
  - right. now apply IH.
Qed.

Lemma subseq_refl {A} (l : list A) : subseq l l.
Proof. induction l; constructor; assumption. Qed.

Lemma subseq_app {A} (a b c d : list A) :
  subseq a b -> subseq c d -> subseq (a ++ c) (b ++ d).
Proof.
  intros Hab Hcd. induction Hab as [l|y l1 l2 _ IH|y l1 l2 _ IH]; simpl.
  - induction l as [|x l IH]; simpl; [exact Hcd|now apply subseq_skip].
  - now apply subseq_take.
  - now apply subseq_skip.
Qed.

Lemma subseq_rev {A} (a b : list A) : subseq a b -> subseq (rev a) (rev b).
Proof.
  induction 1 as [l|y l1 l2 _ IH|y l1 l2 _ IH]; simpl.
  - apply subseq_nil.
  - apply subseq_app; [exact IH|apply subseq_refl].
  - rewrite <- (app_nil_r (rev l1)). apply subseq_app; [exact IH|apply subseq_nil].
Qed.

Lemma subseq_map {A B} (f : A -> B) (a b : list A) :
  subseq a b -> subseq (map f a) (map f b).
Proof. induction 1; simpl; constructor; assumption. Qed.

Lemma subseq_NoDup {A} (a b : list A) : subseq a b -> NoDup b -> NoDup a.
Proof.
  induction 1 as [l|y l1 l2 Hs IH|y l1 l2 Hs IH]; intros Hnd.
  - constructor.
  - inversion Hnd; subst. constructor; [|now apply IH].
    intros Hin. eapply subseq_In in Hin; eauto.
  - inversion Hnd; subst. now apply IH.
Qed.

End CodecFacts.

(** ** The round trip of the codec *)

Module RoundTrip.

Import Spec StringFacts CodecFacts.

Lemma marker_pattern (M : str) :
  In M PREDEFINED_KEYS ->
  ~ In SPACE (M ++ [COLON]) /\ ~ In NL (M ++ [COLON]) /\ M ++ [COLON] <> []
  /\ toUpperCase M = M.
Proof.
  intros H. repeat (destruct H as [<-|H]; [vm_compute; intuition discriminate|]).
  contradiction.
Qed.

Lemma marker_on_marker (M K : str) :
  In M PREDEFINED_KEYS -> In K PREDEFINED_KEYS ->
  lastIndexOf (M ++ [COLON]) (K ++ [COLON]) = if str_eqb M K then Some 0 else None.
Proof.
  intros HM HK.
  repeat (destruct HM as [<-|HM]; [
    repeat (destruct HK as [<-|HK]; [vm_compute; reflexivity|]); contradiction|]).
  contradiction.
Qed.

Lemma line_split (K v t : str) :
  line K v ++ t = (K ++ [COLON]) ++ SPACE :: v ++ t.
Proof. unfold line. now rewrite <- !app_assoc. Qed.

(** Where a marker is found in a line that is followed by more text. *)
Lemma lastIndexOf_line (M K v rest : str) :
  In M PREDEFINED_KEYS -> In K PREDEFINED_KEYS -> marker_free v ->
  lastIndexOf (M ++ [COLON]) (line K v ++ NL :: rest) =
  match lastIndexOf (M ++ [COLON]) rest with
  | Some i => Some (length (line K v) + 1 + i)
  | None => if str_eqb M K then Some 0 else None
  end.
Proof.
  intros HM HK Hv. destruct (marker_pattern HM) as (Hsp & Hnl & Hne & _).
  rewrite line_split, lastIndexOf_sep by assumption.
  rewrite lastIndexOf_sep by assumption.
  rewrite (Hv M HM).
  destruct (lastIndexOf (M ++ [COLON]) rest) as [i|].
  - f_equal. unfold line. rewrite !length_app. simpl. lia.
  - now apply marker_on_marker.
Qed.

Lemma body_app (a b : list (str * str)) : body (a ++ b) = body a ++ body b.
Proof.
  induction a as [|e a IH]; simpl; [reflexivity|].
  now rewrite IH, <- app_assoc.
Qed.

Lemma lastIndexOf_body_absent (M : str) (es : list (str * str)) :
  In M PREDEFINED_KEYS -> Forall entry_ok es -> ~ In M (map fst es) ->
  lastIndexOf (M ++ [COLON]) (body es) = None.
Proof.
  intros HM Hes Hin. induction Hes as [|e es [HK (_ & _ & Hv)] _ IH].
  - apply lastIndexOf_short. rewrite length_app. simpl. lia.
  - simpl body. rewrite lastIndexOf_line by assumption.
    rewrite IH by (intros H; apply Hin; now right).
    rewrite str_eqb_neq; [reflexivity|].
    intros ->. apply Hin. now left.
Qed.

Lemma lastIndexOf_body_last (M v : str) (es : list (str * str)) :
  entry_ok (M, v) ->
  lastIndexOf (M ++ [COLON]) (body (es ++ [(M, v)])) = Some (length (body es)).
Proof.
  intros [HM (_ & _ & Hv)]. simpl in HM, Hv.
  rewrite body_app. rewrite <- (Nat.add_0_r (length (body es))).
  apply lastIndexOf_app_found.
  simpl body. rewrite lastIndexOf_line by assumption.
  rewrite lastIndexOf_short by (rewrite length_app; simpl; lia).
  now rewrite str_eqb_refl.
Qed.

Lemma skipn_past (a b : str) (n : nat) : skipn (length a + n) (a ++ b) = skipn n b.
Proof.
  rewrite skipn_app, skipn_all2 by lia.
  replace (length a + n - length a) with n by lia. reflexivity.
Qed.

Lemma firstn_exact (a b : str) : firstn (length a) (a ++ b) = a.
Proof. rewrite firstn_app, Nat.sub_diag, firstn_all. simpl. apply app_nil_r. Qed.

(** The loop of [deconstruct] reads the lines back from the last to the
    first. *)
Lemma loop_reads_back (ks : list str) :
  NoDup ks -> (forall K, In K ks -> In K PREDEFINED_KEYS) ->
  forall (res : list (str * str)) (parts : obj),
    subseq (map fst res) ks -> Forall entry_ok res ->
    deconstruct_loop ks (body (rev res)) parts = store parts res.
Proof.
  induction ks as [|M ks IH]; intros Hnd Hks res parts Hsub Hok.
  - inversion Hsub as [l Hl| |]. destruct res; [reflexivity|discriminate].
  - inversion Hnd as [|x l HM Hnd']; subst.
    assert (HMk : In M PREDEFINED_KEYS) by (apply Hks; now left).
    assert (Hks' : forall K, In K ks -> In K PREDEFINED_KEYS)
      by (intros; apply Hks; now right).
    assert (Hskip : subseq (map fst res) ks ->
                    deconstruct_loop (M :: ks) (body (rev res)) parts = store parts res).
    { intros Hs. simpl deconstruct_loop.
      rewrite lastIndexOf_body_absent; [now apply IH| assumption | |].
      - apply Forall_rev. exact Hok.
      - rewrite map_rev, <- in_rev. intros Hin. apply HM.
        eapply subseq_In; eauto. }
    destruct res as [|[K v] res]; [apply Hskip; constructor|].
    simpl in Hsub. inversion Hsub as [|x l1 l2 Hs|x l1 l2 Hs]; subst;
      [|now apply Hskip].
    inversion Hok as [|e l He Hok']; subst.
    simpl rev. simpl deconstruct_loop.
    rewrite lastIndexOf_body_last by assumption.
    unfold substring_from, slice_to.
    rewrite body_app, firstn_exact.
    rewrite <- Nat.add_assoc, skipn_past.
    simpl body. rewrite line_split.
    replace (length M + 1) with (length (M ++ [COLON]) + 0)
      by (rewrite length_app; simpl; lia).
    rewrite skipn_past. simpl skipn.
    destruct He as [_ (Htrim & Hnl & _)]. simpl in Htrim, Hnl.
    rewrite trim_padded by assumption.
    rewrite split_no_sep by assumption. simpl hd.
    change (store parts ((M, v) :: res))
      with (store (obj_set parts (toLowerCase M) v) res).
    now apply IH.
Qed.

Lemma NoDup_by_nodup (l : list str) :
  nodup (list_eq_dec N.eq_dec) l = l -> NoDup l.
Proof. intros <-. apply NoDup_nodup. Qed.

Lemma entries_keys (ks : list str) (m : obj) : subseq (map fst (entries_of ks m)) ks.
Proof.
  induction ks as [|K ks IH]; simpl; [constructor|].
  destruct (obj_get m (toLowerCase K)) as [[|c v]|]; simpl; now constructor.
Qed.

Lemma entries_In (ks : list str) (m : obj) (K v : str) :
  In K ks -> obj_get m (toLowerCase K) = Some v -> v <> [] ->
  In (K, v) (entries_of ks m).
Proof.
  intros HK Hm Hv. apply in_flat_map. exists K. split; [exact HK|].
  rewrite Hm. destruct v; [contradiction|now left].
Qed.

Lemma entries_ok (ks : list str) (m : obj) :
  (forall K, In K ks -> In K PREDEFINED_KEYS) ->
  (forall k v, obj_get m k = Some v -> plain_value v) ->
  Forall entry_ok (entries_of ks m).
Proof.
  intros Hks Hm. apply Forall_forall. intros e He.
  apply in_flat_map in He as (K & HK & He).
  destruct (obj_get m (toLowerCase K)) as [[|c v]|] eqn:E; try contradiction.
  destruct He as [<-|[]]. split; [now apply Hks|now apply (Hm _ _ E)].
Qed.

Lemma construct_lines (ks : list str) (m : obj) :
  (forall K, In K ks -> toUpperCase K = K) ->
  map (fun key =>
         match obj_get m (toLowerCase key) with
         | Some (c :: v) => toUpperCase key ++ lit ": " ++ c :: v
         | _ => []
         end)
      (filter (fun key => truthy (obj_get m (toLowerCase key))) ks)
  = map (fun e => line (fst e) (snd e)) (entries_of ks m).
Proof.
  intros Hup. induction ks as [|K ks IH]; [reflexivity|].
  assert (IH' := IH (fun K' H => Hup K' (or_intror H))). clear IH.
  unfold entries_of in *. cbn [filter flat_map].
  destruct (obj_get m (toLowerCase K)) as [[|c v]|] eqn:E; cbn [truthy app map];
    try exact IH'.
  rewrite E, IH'. rewrite Hup by now left. reflexivity.
Qed.

Lemma join_lines (es : list (str * str)) (e : str * str) :
  join [NL] (map (fun e => line (fst e) (snd e)) (es ++ [e]))
  = body es ++ line (fst e) (snd e).
Proof.
  induction es as [|x es IH]; [reflexivity|].
  simpl map. simpl body. rewrite <- app_assoc. simpl app at 2.
  rewrite <- IH.
  destruct (map (fun e0 => line (fst e0) (snd e0)) (es ++ [e])) eqn:E; [|reflexivity].
  destruct es; discriminate.
Qed.

Lemma markers_split :
  PREDEFINED_KEYS = firstn 6 PREDEFINED_KEYS ++ [lit "TOPIC"].
Proof. reflexivity. Qed.

Lemma earlier_markers (K : str) :
  In K (firstn 6 PREDEFINED_KEYS) ->
  In K PREDEFINED_KEYS /\ toLowerCase K <> lit "topic".
Proof.
  intros H. repeat (destruct H as [<-|H]; [vm_compute; split; [tauto|discriminate]|]).
  contradiction.
Qed.

(** What [deconstruct] makes of the text [construct] writes for a mapping
    that has a topic. *)
Lemma deconstruct_construct (m : obj) (vt : str) :
  obj_get m (lit "topic") = Some vt -> vt <> [] ->
  (forall k v, obj_get m k = Some v -> plain_value v) ->
  deconstruct (construct m)
  = store [(lit "topic", vt)] (rev (entries_of (firstn 6 PREDEFINED_KEYS) m)).
Proof.
  intros Et Hvt Hplain.
  set (es := entries_of (firstn 6 PREDEFINED_KEYS) m).
  assert (Hok : Forall entry_ok es).
  { apply entries_ok; [|exact Hplain]. intros K HK. now apply earlier_markers. }
  assert (Hsub : subseq (map fst es) (firstn 6 PREDEFINED_KEYS)) by apply entries_keys.
  assert (Htopic : In (lit "TOPIC") PREDEFINED_KEYS) by (vm_compute; tauto).
  destruct (Hplain _ _ Et) as (Htrim & Hnl & Hfree).
  assert (Htext : construct m = body es ++ line (lit "TOPIC") vt).
  { unfold construct. rewrite construct_lines
      by (intros K HK; now apply (marker_pattern HK)).
    rewrite markers_split at 1. unfold entries_of. rewrite flat_map_app.
    fold (entries_of (firstn 6 PREDEFINED_KEYS) m). fold es.
    cbn [flat_map]. change (toLowerCase (lit "TOPIC")) with (lit "topic").
    rewrite Et. destruct vt as [|c vt]; [contradiction|].
    cbn [app]. apply (join_lines es (lit "TOPIC", c :: vt)). }
  rewrite Htext. unfold deconstruct, deconstruct_with.
  change (last PREDEFINED_KEYS []) with (lit "TOPIC").
  destruct (marker_pattern Htopic) as (Hsp & _ & Hne & _).
  assert (Hpos : lastIndexOf (lit "TOPIC" ++ [COLON]) (body es ++ line (lit "TOPIC") vt)
                 = Some (length (body es) + 0)).
  { apply lastIndexOf_app_found.
    rewrite <- (app_nil_r (line _ vt)), line_split, app_nil_r.
    rewrite lastIndexOf_sep by assumption. rewrite (Hfree _ Htopic).
    now apply lastIndexOf_self. }
  rewrite Hpos. unfold substring_from, substring.
  rewrite Nat.max_0_l, Nat.min_0_l, Nat.sub_0_r, Nat.add_0_r.
  cbn [skipn]. rewrite firstn_exact.
  rewrite <- (Nat.add_0_r (length (body es))) at 1. rewrite skipn_past. cbn [skipn].
  rewrite <- (app_nil_r (line _ vt)), line_split, app_nil_r.
  rewrite replace_prefix_empty, trim_space_cons, Htrim.
  change (toLowerCase (lit "TOPIC")) with (lit "topic"). cbn [obj_set].
  rewrite <- (rev_involutive es) at 1.
  apply loop_reads_back.
  - apply NoDup_rev. apply NoDup_by_nodup. vm_compute. reflexivity.
  - intros K HK. now apply in_rev in HK.
  - rewrite map_rev. apply subseq_rev. rewrite markers_split.
    rewrite <- (app_nil_r (map fst es)). apply subseq_app; [exact Hsub|constructor].
  - apply Forall_rev. exact Hok.
Qed.

(** C1, amended.  For every mapping over the six recognized keys whose values
    are non-empty, stand on one line, carry no white space at either end and
    contain no marker followed by a colon, and which has a topic, parsing the
    serialization restores every key with its value. *)
Theorem roundtrip_with_topic (m : obj) :
  recognized m ->
  truthy (obj_get m (lit "topic")) = true ->
  (forall k v, obj_get m k = Some v -> plain_value v) ->
  restores m.
Proof.
  intros Hrec Htopic Hplain.
  destruct (obj_get m (lit "topic")) as [[|c vt]|] eqn:Et; try discriminate.
  intros k v Hk.
  rewrite (deconstruct_construct m Et) by (discriminate || exact Hplain).
  set (es := entries_of (firstn 6 PREDEFINED_KEYS) m).
  assert (Hsub : subseq (map fst es) (firstn 6 PREDEFINED_KEYS)) by apply entries_keys.
  destruct (Hrec k v (obj_get_In _ _ Hk)) as [Hin Hv].
  assert (Hearlier : forall K, In K (firstn 6 PREDEFINED_KEYS) -> k = toLowerCase K ->
            obj_get (store [(lit "topic", c :: vt)] (rev es)) k = Some v).
  { intros K HK ->. apply store_get_in.
    - rewrite map_rev. apply NoDup_rev.
      rewrite <- (map_map fst toLowerCase).
      apply (subseq_NoDup (subseq_map toLowerCase Hsub)).
      apply NoDup_by_nodup. vm_compute. reflexivity.
    - apply -> in_rev. now apply entries_In. }
  destruct Hin as [<-|[<-|[<-|[<-|[<-|[<-|[]]]]]]].
  - apply (Hearlier (lit "TOOL")); [vm_compute; tauto|reflexivity].
  - apply (Hearlier (lit "LANGUAGE")); [vm_compute; tauto|reflexivity].
  - apply (Hearlier (lit "THOUGHT")); [vm_compute; tauto|reflexivity].
  - apply (Hearlier (lit "KEYPHRASES")); [vm_compute; tauto|reflexivity].
  - apply (Hearlier (lit "OBSERVATION")); [vm_compute; tauto|reflexivity].
  - rewrite store_get_other.
    + cbn [obj_get]. rewrite str_eqb_refl. now rewrite Et in Hk.
    + intros e He. apply in_rev in He.
      apply earlier_markers.
      eapply subseq_In; [exact Hsub|]. now apply in_map.
Qed.

(** A mapping with three of the keys, at which the theorem applies. *)
Lemma roundtrip_with_topic_witness :
  let m := [(lit "tool", lit "Google."); (lit "thought", lit "tea time");
            (lit "topic", lit "drinks")] in
  recognized m /\ truthy (obj_get m (lit "topic")) = true /\ restores m.
Proof.
  intros m.
  assert (Hrec : recognized m).
  { intros k v [[= <- <-]|[[= <- <-]|[[= <- <-]|[]]]];
      (split; [vm_compute; tauto|discriminate]). }
  assert (Hplain : forall k v, obj_get m k = Some v -> plain_value v).
  { intros k v H. apply obj_get_In in H.
    destruct H as [[= <- <-]|[[= <- <-]|[[= <- <-]|[]]]];
      (split; [reflexivity|split; [vm_compute; intuition discriminate|]]);
      intros K HK;
      repeat (destruct HK as [<-|HK]; [vm_compute; reflexivity|]); contradiction. }
  split; [exact Hrec|]. split; [reflexivity|].
  apply (roundtrip_with_topic Hrec); [reflexivity|exact Hplain].
Defined.

(** C1, as stated, fails: a mapping without a topic serializes to a text in
    which [deconstruct] finds no anchor, and nothing is restored. *)
Lemma roundtrip_fails_without_topic :
  ~ (forall m, recognized m -> restores m).
Proof.
  intros H.
  assert (Hrec : recognized [(lit "tool", lit "Google.")]).
  { intros k v [[= <- <-]|[]]. split; [vm_compute; tauto|discriminate]. }
  specialize (H _ Hrec (lit "tool") (lit "Google.") eq_refl).
  vm_compute in H. discriminate.
Qed.

(** With a topic, the round trip still fails for a value that begins with
    white space, for one of two lines, and for one that holds a marker which
    the loop looks for before it looks for the key of the value. *)
Lemma roundtrip_needs_plain_values :
  let topic := (lit "topic", lit "tea") in
  obj_get (deconstruct (construct [(lit "thought", lit " padded"); topic])) (lit "thought")
    = Some (lit "padded")
  /\ obj_get (deconstruct (construct [(lit "thought", [97; 10; 98]%N); topic]))
       (lit "thought")
     = Some (lit "a")
  /\ obj_get (deconstruct (construct [(lit "thought", lit "the KEYPHRASES: nail"); topic]))
       (lit "thought")
     = Some (lit "the")
  /\ obj_get (deconstruct (construct [(lit "thought", lit "the KEYPHRASES: nail"); topic]))
       (lit "keyphrases")
     = Some (lit "nail").
Proof. cbv zeta. split; [|split; [|split]]; vm_compute; reflexivity. Qed.

End RoundTrip.

(** ** The streaming path of [chat] *)

Module ChatFacts.

Import Spec StringFacts.
Import Chat.

Lemma trimStart_split (d : str) :
  exists w, d = w ++ trimStart d /\ forallb is_ws w = true.
Proof.
  induction d as [|c d (w & Hd & Hw)]; [now exists []|].
  simpl. destruct (is_ws c) eqn:E.
  - exists (c :: w). simpl. rewrite E, Hw. split; [now f_equal|reflexivity].
  - now exists [].
Qed.

(** A delta that does not end in white space loses only its leading white
    space when it is trimmed. *)
Lemma trim_no_trailing (d : str) :
  trimEnd d = d -> trimStart d <> [] -> trim d = trimStart d.
Proof.
  intros He Hs. unfold trim, trimEnd.
  destruct (trimStart_split d) as (w & Hd & Hw).
  assert (Hr : trimStart (rev d) = rev d).
  { unfold trimEnd in He. rewrite <- He at 2. now rewrite rev_involutive. }
  rewrite Hd, rev_app_distr in Hr.
  remember (rev (trimStart d)) as t eqn:Ht.
  destruct t as [|c t].
  - exfalso. apply Hs. rewrite <- (rev_involutive (trimStart d)), <- Ht. reflexivity.
  - simpl in Hr. destruct (is_ws c) eqn:E.
    + exfalso. pose proof (trimStart_length (t ++ rev w)) as Hl.
      rewrite Hr in Hl. simpl in Hl. lia.
    + simpl. rewrite E. rewrite Ht. apply rev_involutive.
Qed.

Lemma process_line_blank (st : stream_state) :
  buffer st = [] -> process_line st [] = Next st.
Proof. intros Hb. unfold process_line. rewrite Hb. reflexivity. Qed.

(** A whole line, met with an empty carry-over buffer. *)
Lemma process_line_whole (st : stream_state) (l : str) :
  buffer st = [] -> whole l -> process_line st l = Next (absorb st (text_of l)).
Proof.
  intros Hb [->|(Hc & Hd & Hp)].
  - now rewrite process_line_blank.
  - unfold process_line, text_of. rewrite Hb. cbn [app].
    destruct l as [|c l].
    + exfalso. destruct Hp as [[d Hp]|Hp]; vm_compute in Hp; discriminate.
    + destruct (N.eqb_spec c COLON) as [->|_]; [now elim Hc|].
      rewrite (str_eqb_neq Hd).
      destruct Hp as [[d Hp]|Hp]; rewrite Hp; [|reflexivity].
      destruct d as [|x d]; [reflexivity|].
      unfold absorb. destruct (answer st); reflexivity.
Qed.

Lemma absorb_buffer (st : stream_state) (d : str) :
  buffer st = [] -> buffer (absorb st d) = [].
Proof.
  intros Hb. unfold absorb. destruct d; [exact Hb|]. now destruct (answer st).
Qed.

Lemma fold_absorb_buffer (ds : list str) (st : stream_state) :
  buffer st = [] -> buffer (fold_left absorb ds st) = [].
Proof.
  revert st; induction ds as [|d ds IH]; intros st Hb; [exact Hb|].
  simpl. apply IH. now apply absorb_buffer.
Qed.

Lemma process_line_done (st : stream_state) :
  buffer st = [] -> process_line st DONE_LINE = Stop st.
Proof. intros Hb. unfold process_line. rewrite Hb. reflexivity. Qed.

(** The lines of a read, all whole up to the terminator if there is one. *)
Lemma process_lines_whole (ls : list str) (st : stream_state) :
  buffer st = [] -> Forall whole (until_done ls) ->
  let st' := fold_left absorb (map text_of (until_done ls)) st in
  process_lines st ls = Next st' \/ process_lines st ls = Stop st'.
Proof.
  revert st; induction ls as [|l ls IH]; intros st Hb Hw; [now left|].
  cbn [until_done] in *. destruct (str_eqb l DONE_LINE) eqn:E.
  - apply str_eqb_eq in E. subst l. right. cbn [process_lines].
    now rewrite process_line_done.
  - inversion Hw; subst. cbn [process_lines map fold_left].
    rewrite process_line_whole by assumption.
    apply IH; [now apply absorb_buffer|assumption].
Qed.

Lemma read_loop_whole (reads : list str) (st : stream_state) :
  buffer st = [] -> Forall whole (lines_of reads) ->
  read_loop st reads = Next (fold_left absorb (deltas_of reads) st).
Proof.
  revert st; induction reads as [|r reads IH]; intros st Hb Hw; [reflexivity|].
  unfold lines_of in Hw. cbn [flat_map] in Hw. apply Forall_app in Hw as [Hr Hrs].
  assert (E : read_loop st (r :: reads)
              = read_loop (fold_left absorb (map text_of (until_done (split NL r))) st)
                  reads).
  { cbn [read_loop].
    destruct (process_lines_whole (split NL r) st Hb Hr) as [-> | ->]; reflexivity. }
  rewrite E, IH; [|now apply fold_absorb_buffer|exact Hrs].
  unfold deltas_of, lines_of. cbn [flat_map]. now rewrite map_app, fold_left_app.
Qed.

Lemma absorb_rest (ds : list str) (st : stream_state) :
  answer st <> [] -> buffer st = [] ->
  fold_left absorb ds st =
  {| answer := answer st ++ concat ds; buffer := [];
     emitted := rev (filter (fun x => negb (is_empty x)) ds) ++ emitted st |}.
Proof.
  revert st; induction ds as [|d ds IH]; intros st Ha Hb.
  - simpl. rewrite app_nil_r. destruct st; simpl in *. now subst.
  - simpl fold_left. destruct d as [|c d].
    + simpl. now apply IH.
    + unfold absorb at 2. destruct (answer st) as [|a0 a] eqn:Ea; [contradiction|].
      rewrite IH by (simpl; discriminate || reflexivity).
      simpl. rewrite <- !app_assoc. reflexivity.
Qed.

(** Until then, blank deltas leave everything as it was. *)
Lemma absorb_all (ds : list str) (st : stream_state) :
  answer st = [] -> buffer st = [] ->
  (forall d, first_visible ds = Some d -> trimEnd d = d) ->
  fold_left absorb ds st =
  {| answer := trimStart (concat ds); buffer := [];
     emitted := rev (emissions ds) ++ emitted st |}.
Proof.
  revert st; induction ds as [|d ds IH]; intros st Ha Hb Hv.
  - simpl. destruct st; simpl in *. now subst.
  - simpl fold_left. simpl first_visible in Hv. simpl emissions. simpl concat.
    unfold is_blank in *. destruct (trimStart d) as [|c t] eqn:Et; simpl is_empty in *.
    + rewrite trimStart_app_drop by assumption.
      assert (Hst : absorb st d = st).
      { unfold absorb. destruct d; [reflexivity|]. rewrite Ha.
        unfold trim. rewrite Et. destruct st; simpl in *. now subst. }
      rewrite Hst. now apply IH.
    + assert (Htrim : trim d = c :: t).
      { rewrite <- Et. apply trim_no_trailing; [now apply Hv|].
        rewrite Et. discriminate. }
      rewrite trimStart_app_keep by (rewrite Et; discriminate).
      unfold absorb at 2. destruct d as [|x d]; [discriminate|].
      rewrite Ha, Htrim.
      rewrite absorb_rest by (simpl; discriminate || reflexivity).
      rewrite Et. simpl. rewrite <- !app_assoc. reflexivity.
Qed.

(** C4, amended.  When every line the loop gets to see is blank or a whole
    frame, the answer is the concatenation of the deltas without its
    leading white space: the blank deltas that come first are dropped and
    not emitted, the first visible delta is emitted without its leading
    white space, and every later non-empty delta is appended and emitted as
    it is; this for a first visible delta that does not end in white
    space. *)
Theorem stream_answer (reads : list str) :
  Forall whole (lines_of reads) ->
  (forall d, first_visible (deltas_of reads) = Some d -> trimEnd d = d) ->
  chat_stream reads
  = (Ok (trimStart (concat (deltas_of reads))), emissions (deltas_of reads)).
Proof.
  intros Hw Hv. unfold chat_stream.
  rewrite read_loop_whole by (reflexivity || assumption).
  rewrite absorb_all by (reflexivity || assumption).
  cbn [answer emitted initial]. now rewrite app_nil_r, rev_involutive.
Qed.

(** Two frames and the terminator in two reads, at which the theorem
    applies. *)
Lemma stream_answer_witness :
  Forall whole (lines_of hello_reads)
  /\ chat_stream hello_reads = (Ok (lit "Hello world"), [lit "Hello"; lit " world"]).
Proof.
  assert (Hw : Forall whole (lines_of hello_reads)).
  { change (lines_of hello_reads)
      with [frame_line (lit " Hello"); []; []; frame_line (lit " world"); []].
    repeat (apply Forall_cons;
            [first [ now left
                   | right;
                     (split; [vm_compute; discriminate|]);
                     (split; [intros H; vm_compute in H; discriminate|]);
                     left; eexists; vm_compute; reflexivity ]|]).
    apply Forall_nil. }
  split; [exact Hw|].
  rewrite (stream_answer hello_reads Hw).
  - vm_compute. reflexivity.
  - intros d Hd. vm_compute in Hd. injection Hd as <-. reflexivity.
Defined.

(** C4, as stated, fails: when the first non-empty delta is blank, the code
    strips the leading white space of the next one as well. *)
Lemma blank_first_delta :
  filter (fun x => negb (is_empty x)) (deltas_of blank_first_reads)
    = [lit " "; lit " hi"]
  /\ chat_stream blank_first_reads = (Ok (lit "hi"), [lit "hi"])
  /\ concat (claimed_emissions (deltas_of blank_first_reads)) = lit " hi"
  /\ fst (chat_stream blank_first_reads)
      <> Ok (concat (claimed_emissions (deltas_of blank_first_reads))).
Proof.
  repeat split; try (vm_compute; reflexivity).
  intros H. vm_compute in H. discriminate.
Qed.

(** C2 at its failing input.  The transcript opens with a frame that has an
    empty [content], as the first frame of a reply usually has.  Read in
    one piece it gives the answer; read in two pieces, the first of which
    ends inside that frame, it gives the empty answer: the piece stays in
    the carry-over buffer after the frame has been put together, and is
    prepended to every line that follows. *)
Theorem split_inside_silent_frame :
  chat_stream [silent_transcript] = (Ok (lit "Hi"), [lit "Hi"])
  /\ firstn 20 silent_transcript ++ skipn 20 silent_transcript = silent_transcript
  /\ chat_stream [firstn 20 silent_transcript; skipn 20 silent_transcript]
      = (Ok [], []).
Proof. repeat split; vm_compute; reflexivity. Qed.

(** C10, as stated, fails at the terminator: it is not empty, does not begin
    with a colon and is no JSON frame, yet the loop stops there and leaves
    the buffer as it was. *)
Lemma terminator_not_carried :
  ~ (forall st raw,
       let line := buffer st ++ raw in
       line <> [] -> hd_error line <> Some COLON -> parse line = Val JNull ->
       process_line st raw
       = Next {| answer := answer st; buffer := line; emitted := emitted st |}).
Proof.
  intros H. specialize (H initial DONE_LINE).
  assert (E : process_line initial DONE_LINE = Stop initial) by reflexivity.
  rewrite E in H. discriminate H; vm_compute; (discriminate || reflexivity).
Qed.

(** C10, amended.  Every non-empty line other than the terminator that does
    not begin with a colon and in which [parse] finds no frame is stored in
    the carry-over buffer, and the next line is examined with it in front.
    So a field line such as [event: message] is merged with whatever line
    follows, and the two stay in the buffer together. *)
Theorem carried_over (st : stream_state) (raw : str) :
  let line := buffer st ++ raw in
  line <> [] -> hd_error line <> Some COLON -> line <> DONE_LINE ->
  parse line = Val JNull ->
  process_line st raw
  = Next {| answer := answer st; buffer := line; emitted := emitted st |}
  /\ (forall next rest,
        process_lines st (raw :: next :: rest)
        = process_lines {| answer := answer st; buffer := line; emitted := emitted st |}
            (next :: rest))
  /\ (forall next,
        process_lines initial [lit "event: message"; next]
        = Next {| answer := []; buffer := lit "event: message" ++ next;
                  emitted := [] |}).
Proof.
  intros line Hne Hc Hd Hp.
  assert (E : process_line st raw
              = Next {| answer := answer st; buffer := line; emitted := emitted st |}).
  { unfold process_line. fold line. destruct line as [|c l]; [contradiction|].
    destruct (N.eqb_spec c COLON) as [->|_]; [now elim Hc|].
    rewrite (str_eqb_neq Hd), Hp. reflexivity. }
  split; [exact E|]. split.
  - intros next rest. cbn [process_lines]. now rewrite E.
  - intros next. reflexivity.
Qed.

Lemma carried_over_witness :
  process_line initial (lit "event: message")
  = Next {| answer := []; buffer := lit "event: message"; emitted := [] |}.
Proof.
  apply (@carried_over initial (lit "event: message"));
    try (intros H; vm_compute in H; discriminate).
  reflexivity.
Defined.

End ChatFacts.

(** ** The citation rewriter *)

Module DisplayFacts.

Import Spec.
Import Display Pipeline.



(** C8 at its failing input: a marker with the number 12 passes the test
    [number >= '0' && number <= '9'], which compares strings, and is
    rewritten as if it were twelve characters long. *)
Theorem two_digits_rewritten :
  str_leb (lit "0") (lit "12") && str_leb (lit "12") (lit "9") = true
  /\ rewritten [lit "see [citation:12]."]
     = Some (lit "see " ++ GRAY ++ lit "[1]" ++ NORMAL ++ lit "].", [12])
  /\ format (lit "see [citation:12].") None = Some (Ok (lit "see [1]]."))
  /\ rewritten [lit "see [citation:95]."] = Some (lit "see [citation:95].", []).
Proof. split; [|split; [|split]]; vm_compute; reflexivity. Qed.

End DisplayFacts.

(** ** The pipeline *)

Module PipelineFacts.

Import Spec.
Import Display Pipeline.

Lemma bind_ok {A B} (m : M A) (k : A -> M B) (w w' : World) (b : B) :
  bind m k w = (Ok b, w') ->
  exists a w1, m w = (Ok a, w1) /\ k a w1 = (Ok b, w').
Proof.
  unfold bind. destruct (m w) as [[a|e|] w1]; intros H; try discriminate.
  now exists a, w1.
Qed.

(** C3 at its failing input: the search endpoint fails once and then
    answers.  The pipeline ends well with seven events, [Search] having been
    entered twice and left once, and [simplify] pairs the two enters of
    [Search] with each other, the leave of [Search] with the enter of
    [Respond], and drops the leave of [Respond]. *)
Theorem retry_enters_twice :
  let run := evaluate_user [] tea
               (fresh true (script [reasoned; answered])
                  (script [web_error 500; web_hits]) steady_clock) in
  (exists h, fst run = Ok h)
  /\ map name (stages (snd run))
     = [lit "Reason"; lit "Reason"; lit "Search"; lit "Search"; lit "Search";
        lit "Respond"; lit "Respond"]
  /\ map is_enter (stages (snd run)) = [true; false; true; true; false; true; false]
  /\ Nat.odd (length (stages (snd run))) = true
  /\ map (fun e => (name e, is_enter e, duration e)) (simplify (stages (snd run)))
     = [(lit "Reason", false, Some 10%Z); (lit "Search", true, Some 10%Z);
        (lit "Respond", true, Some 10%Z)].
Proof.
  cbv zeta. split; [eexists; vm_compute; reflexivity|].
  split; [vm_compute; reflexivity|]. split; [vm_compute; reflexivity|].
  split; vm_compute; reflexivity.
Qed.

(** For comparison, the same run without the failure: six events in pairs,
    and one entry for each stage. *)
Lemma single_attempt_pairs :
  let run := evaluate_user [] tea
               (fresh true (script [reasoned; answered]) (script [web_hits])
                  steady_clock) in
  map name (stages (snd run))
  = [lit "Reason"; lit "Reason"; lit "Search"; lit "Search"; lit "Respond";
     lit "Respond"]
  /\ map is_enter (stages (snd run)) = [true; false; true; false; true; false]
  /\ map (fun e => (name e, is_enter e, duration e)) (simplify (stages (snd run)))
     = [(lit "Reason", false, Some 10%Z); (lit "Search", false, Some 10%Z);
        (lit "Respond", false, Some 10%Z)].
Proof.
  cbv zeta. split; [vm_compute; reflexivity|]. split; vm_compute; reflexivity.
Qed.

(** C5 at its failing input: the first reply is an error whose body is not
    JSON.  [response.json()] comes before the test of [response.ok], so the
    call throws at once, although a second attempt would have been
    answered; with a JSON body the same error is retried. *)
Theorem gateway_error_not_retried :
  let asked :=
    {| inquiry := tea; history := []; delegates := test_delegates;
       language := None; topic := None; thought := None;
       keyphrases := Some (lit "green tea."); observation := None;
       references := None; answer := None |} in
  let run := search asked (fresh true (script []) (script [web_gateway_error; web_hits])
                             steady_clock) in
  let rerun := search asked (fresh true (script []) (script [web_error 502; web_hits])
                               steady_clock) in
  fst run = Throw SyntaxError
  /\ web_queries (snd run) = [lit "green tea"]
  /\ (exists c r, fst rerun = Ok c /\ references c = Some [r])
  /\ web_queries (snd rerun) = [lit "green tea"; lit "green tea"].
Proof.
  cbv zeta.
  split; [vm_compute; reflexivity|]. split; [vm_compute; reflexivity|].
  split; [|vm_compute; reflexivity].
  eexists. eexists. split; vm_compute; reflexivity.
Qed.

(** What the stages keep of the context they are given *)

Lemma reason_keeps (context c1 : Context) (w w1 : World) :
  reason context w = (Ok c1, w1) ->
  inquiry c1 = inquiry context /\ delegates c1 = delegates context
  /\ references c1 = references context /\ answer c1 = answer context.
Proof.
  intros H. unfold reason in H.
  apply bind_ok in H as (? & ? & _ & H). apply bind_ok in H as (? & ? & _ & H).
  apply bind_ok in H as (? & ? & _ & H). apply bind_ok in H as (? & ? & _ & H).
  unfold ret in H. injection H as <- _. simpl. auto.
Qed.

Lemma search_attempt_result (again : option (M Context)) (context c2 : Context)
  (w w2 : World) :
  search_attempt again context w = (Ok c2, w2) ->
  (exists refs, c2 = with_references context refs)
  \/ (exists retry w', again = Some retry /\ retry w' = (Ok c2, w2)).
Proof.
  intros H. unfold search_attempt in H.
  apply bind_ok in H as (? & w0 & _ & H).
  destruct (keyphrases context) as [k|]; [|discriminate].
  apply bind_ok in H as ([response data] & w' & _ & H).
  assert (Hagain : match again with
                   | Some retry => retry
                   | None => throw (SearchFailed (web_status response))
                   end w' = (Ok c2, w2) ->
                   exists retry w', again = Some retry /\ retry w' = (Ok c2, w2)).
  { destruct again as [retry|]; [|discriminate]. intros E. now exists retry, w'. }
  assert (Hfinish : forall refs w3,
             (call_leave (delegates context) (lit "Search") (SearchFields refs) ;;;
              ret (with_references context refs)) w3 = (Ok c2, w2) ->
             exists refs, c2 = with_references context refs).
  { intros refs w3 E. apply bind_ok in E as (? & ? & _ & E).
    unfold ret in E. injection E as <- _. now exists refs. }
  assert (Hnone : match again with
                  | Some retry => retry
                  | None =>
                      call_leave (delegates context) (lit "Search") (SearchFields []) ;;;
                      ret (with_references context [])
                  end w' = (Ok c2, w2) ->
                  (exists refs, c2 = with_references context refs)
                  \/ (exists retry w', again = Some retry /\ retry w' = (Ok c2, w2))).
  { destruct again as [retry|]; intros E.
    - right. now exists retry, w'.
    - left. eapply Hfinish. exact E. }
  destruct (web_ok response); cbn [negb] in H; [|right; now apply Hagain].
  destruct data; try discriminate;
    (destruct (get _ (lit "hits")) as [|[| | | |[|h hs]|]];
     try (now apply Hnone));
    apply bind_ok in H as (refs & w3 & _ & H); left; eapply Hfinish; exact H.
Qed.

Lemma search_from_result (attempt : nat) (context c2 : Context) (w w2 : World) :
  search_from attempt context w = (Ok c2, w2) ->
  exists refs, c2 = with_references context refs.
Proof.
  revert w. induction attempt as [|a IH]; intros w H.
  - apply search_attempt_result in H as [H|(retry & w' & E & _)];
      [exact H|discriminate].
  - destruct a as [|n].
    + apply search_attempt_result in H as [H|(retry & w' & E & _)];
        [exact H|discriminate].
    + cbn [search_from] in H.
      apply search_attempt_result in H as [H|(retry & w' & E & H)]; [exact H|].
      injection E as <-. eapply IH. exact H.
Qed.

Lemma pipeline_ok (context c : Context) (w w' : World) :
  pipeline context w = (Ok c, w') ->
  exists c1 w1 c2 w2,
    reason context w = (Ok c1, w1) /\ search c1 w1 = (Ok c2, w2)
    /\ respond c2 w2 = (Ok c, w').
Proof.
  intros H. unfold pipeline in H.
  apply bind_ok in H as (c1 & w1 & H1 & H).
  apply bind_ok in H as (c2 & w2 & H2 & H).
  now exists c1, w1, c2, w2.
Qed.

(** When [respond] returns, the answer is there and the last event recorded
    is its leave. *)
Lemma respond_leaves (f : frontend) (c2 c : Context) (w2 w' : World) :
  delegates c2 = delegates_of f -> respond c2 w2 = (Ok c, w') ->
  (exists t, answer c = Some t)
  /\ exists before ev, stages w' = before ++ [ev] /\ name ev = lit "Respond"
       /\ extra ev = RespondFields (inquiry c2).
Proof.
  intros Hd H. unfold respond in H. rewrite Hd in H.
  apply bind_ok in H as (? & ? & _ & H). apply bind_ok in H as (? & ? & _ & H).
  apply bind_ok in H as (text & w3 & _ & H). apply bind_ok in H as (? & w4 & Hl & H).
  unfold ret in H. injection H as <- <-. split.
  - simpl. unfold or_else. destruct (answer c2); eauto.
  - assert (E : w4 = record_leave (lit "Respond") (RespondFields (inquiry c2)) w3)
      by (destruct f; simpl in Hl; unfold effect in Hl; now injection Hl as _ <-).
    rewrite E. eexists. eexists. split; [reflexivity|]. split; reflexivity.
Qed.

(** C9.  When a stage of the pipeline throws, the turn of the front-end ends
    with that error and the history it holds is the history it held before.
    The history changes only in a turn whose pipeline has returned, and then
    by one entry put at the end, which carries the inquiry, the answer of
    [respond] and the stages recorded, the last of them being the leave of
    [Respond]. *)
Theorem history_only_after_respond (f : frontend) (h : list HistoryEntry)
  (i : str) (w : World) :
  let run := turn_pipeline f h i (start_world w) in
  (forall e, fst run = Throw e ->
             fst (turn f h i w) = Throw e
             /\ history_after h (fst (turn f h i w)) = h)
  /\ (forall h', fst (turn f h i w) = Ok h' ->
        exists c e,
          fst run = Ok c /\ h' = h ++ [e] /\ h_inquiry e = i
          /\ h_answer e = answer c /\ (exists t, answer c = Some t)
          /\ h_stages e = stages (snd run)
          /\ exists before ev,
               stages (snd run) = before ++ [ev] /\ name ev = lit "Respond"
               /\ extra ev = RespondFields i).
Proof.
  intros run.
  assert (Hturn : turn f h i w =
                  bind (turn_pipeline f h i)
                    (fun result =>
                       match f with
                       | TestRunner =>
                           finish <- now ;;
                           recorded <- read_stages ;;
                           ret (h ++
                                  [{| h_inquiry := i; h_thought := thought result;
                                      h_keyphrases := keyphrases result;
                                      h_topic := topic result;
                                      h_references := references result;
                                      h_answer := answer result;
                                      h_duration := (finish - clock w (clock_reads w))%Z;
                                      h_stages := recorded |}])
                       | Terminal =>
                           within_model ;;;
                           refs <- (fun w => (Ok (d_refs (shown w)), w)) ;;
                           effect (fun w => let (d, out) := flush (shown w) in
                                            set_shown d (out :: written w) (off_model w) w) ;;;
                           finish <- now ;;
                           match references result with
                           | Some rs =>
                               if length refs <=? length rs
                               then lift (print_links refs rs) else ret tt
                           | None => ret tt
                           end ;;;
                           recorded <- read_stages ;;
                           ret (h ++
                                  [{| h_inquiry := i; h_thought := thought result;
                                      h_keyphrases := keyphrases result;
                                      h_topic := topic result;
                                      h_references := None;
                                      h_answer := answer result;
                                      h_duration := (finish - clock w (clock_reads w))%Z;
                                      h_stages := recorded |}])
                       end) (start_world w)) by (destruct f; reflexivity).
  rewrite Hturn. unfold bind. subst run.
  destruct (turn_pipeline f h i (start_world w)) as [[c|e|] w1] eqn:E;
    cbn [fst snd history_after].
  2:{ split; [intros e' [= <-]; now split|discriminate]. }
  2:{ split; discriminate. }
  split; [discriminate|].
  assert (Hc : (exists t, answer c = Some t)
               /\ exists before ev, stages w1 = before ++ [ev]
                    /\ name ev = lit "Respond" /\ extra ev = RespondFields i).
  { apply pipeline_ok in E as (c1 & wa & c2 & wb & Hr & Hs & Hp).
    apply reason_keeps in Hr as (Hi & Hd & _).
    apply search_from_result in Hs as (refs & ->).
    replace i with (inquiry (with_references c1 refs)) by exact Hi.
    eapply respond_leaves; [|exact Hp]. exact Hd. }
  destruct Hc as [Ht Hev].
  destruct f.
  - intros h' [= <-]. eexists. eexists.
    repeat split; try reflexivity; try assumption.
  - unfold bind, within_model, effect, now, read_stages, ret, lift.
    destruct (off_model w1); [discriminate|].
    destruct (flush (shown w1)) as [d out] eqn:Ef.
    cbn [fst snd].
    match goal with
    | |- context [let (r, w') := ?X in _] => destruct X as [[[]|e|] w5] eqn:Ep
    end; cbn [fst]; try discriminate.
    intros h' [= <-]. eexists. eexists. split; [reflexivity|]. split; [reflexivity|].
    repeat split; try reflexivity; try assumption.
    assert (Hs5 : stages w5 = stages w1).
    { destruct (references c) as [rs|].
      - destruct (length (d_refs (shown w1)) <=? length rs).
        + unfold lift in Ep. now injection Ep as _ <-.
        + unfold ret in Ep. now injection Ep as <-.
      - unfold ret in Ep. now injection Ep as <-. }
    cbn [h_stages]. exact Hs5.
Qed.

(** Two runs at which the theorem applies: one in which the chat endpoint
    fails at once, and nothing is added to the history; and one that
    returns, after which the history has one entry more. *)
Lemma history_only_after_respond_witness :
  let w := fresh true (script [{| llm_ok := false; llm_status := 500; llm_reads := [] |}])
             (script [web_hits]) steady_clock in
  let w' := fresh true (script [reasoned; answered]) (script [web_hits]) steady_clock in
  (fst (turn_pipeline Terminal [] tea (start_world w)) = Throw (HttpError 500)
   /\ history_after [] (fst (turn Terminal [] tea w)) = [])
  /\ exists e before ev,
       fst (turn TestRunner [] tea w') = Ok [e] /\ h_inquiry e = tea
       /\ h_stages e = before ++ [ev] /\ name ev = lit "Respond".
Proof.
  intros w w'. split.
  - assert (E : fst (turn_pipeline Terminal [] tea (start_world w))
                = Throw (HttpError 500)) by (vm_compute; reflexivity).
    split; [exact E|].
    apply (proj1 (history_only_after_respond Terminal [] tea w) _ E).
  - set (h' := match fst (turn TestRunner [] tea w') with Ok h => h | _ => [] end).
    assert (E : fst (turn TestRunner [] tea w') = Ok h') by (vm_compute; reflexivity).
    destruct (proj2 (history_only_after_respond TestRunner [] tea w') h' E)
      as (c & e & _ & Hh & Hi & _ & _ & Hst & before & ev & Hs & Hn & _).
    exists e, before, ev.
    split; [rewrite E, Hh; reflexivity|]. split; [exact Hi|].
    split; [rewrite Hst; exact Hs|exact Hn].
Defined.

(** The request [chat] sends is logged, whatever comes back. *)
Lemma show_text_requests (text : str) (w : World) :
  llm_requests (show_text text w) = llm_requests w.
Proof. unfold show_text. destruct (push (shown w) text) as [[d [o|]]|]; reflexivity. Qed.

Lemma shown_requests (deltas : list str) (w : World) :
  llm_requests (fold_left (fun w' d => show_text d w') deltas w) = llm_requests w.
Proof.
  revert w; induction deltas as [|d ds IH]; intros w; [reflexivity|].
  simpl. rewrite IH. apply show_text_requests.
Qed.

Lemma chat_logged (f : frontend) (messages : list Message) (w : World) :
  option_map req_messages
    (hd_error (llm_requests (snd (chat messages (stream (delegates_of f)) w))))
  = Some messages.
Proof.
  unfold chat. destruct (llm w (length (llm_requests w))) as [r|]; [|reflexivity].
  destruct (llm_ok r); cbn [negb]; [|reflexivity].
  destruct f; cbn [delegates_of stream test_delegates terminal_delegates].
  - rewrite andb_false_r. cbn [negb].
    destruct (Chat.chat_plain (concat (llm_reads r))); reflexivity.
  - rewrite andb_true_r. destruct (LLM_STREAMING w); cbn [negb].
    + destruct (Chat.chat_stream (llm_reads r)) as [res deltas]. cbn [snd].
      now rewrite shown_requests.
    + destruct (Chat.chat_plain (concat (llm_reads r))); cbn [snd];
        try reflexivity. now rewrite show_text_requests.
Qed.

(** The world after [search] has entered and sent its request. *)
Lemma search_attempt_without_hits (f : frontend) (again : option (M Context))
  (context : Context) (k : str) (w : World) (r : WebReply) :
  delegates context = delegates_of f -> keyphrases context = Some k ->
  web w (length (web_queries w)) = Some r -> without_hits r ->
  let w' := log_web (clean_query k) (record_enter (lit "Search") w) in
  search_attempt again context w =
  match again with
  | Some retry => retry w'
  | None => (Ok (with_references context []),
             record_leave (lit "Search") (SearchFields []) w')
  end.
Proof.
  intros Hd Hk Hw (Hok & data & Hdata & Hnull & Hhits) w'.
  unfold search_attempt. rewrite Hd, Hk.
  assert (Henter : call_enter (delegates_of f) (lit "Search")
                   = effect (record_enter (lit "Search"))) by now destruct f.
  assert (Hleave : forall x, call_leave (delegates_of f) (lit "Search") x
                   = effect (record_leave (lit "Search") x)) by now destruct f.
  rewrite Henter. unfold bind at 1. unfold effect at 1.
  unfold bind at 1. unfold fetch_search.
  change (web (record_enter (lit "Search") w)) with (web w).
  change (web_queries (record_enter (lit "Search") w)) with (web_queries w).
  rewrite Hw, Hdata, Hok. cbn [negb]. fold w'.
  destruct data as [| | | | |]; try contradiction;
    try (destruct again; [reflexivity|rewrite Hleave; reflexivity]);
    destruct (get _ (lit "hits")) as [|[| | | |[|h hs]|]];
    try contradiction;
    (destruct again; [reflexivity|rewrite Hleave; reflexivity]).
Qed.

(** C6, as stated, fails: with empty keyphrases the search is a request
    like any other.  When it is refused three times the pipeline aborts;
    and when it has no hits, the answer is what the chat endpoint makes of
    an empty list of messages, which need not be empty. *)
Lemma empty_keyphrases_abort :
  let context := new_context tea [] test_delegates in
  let replies := script [plain_reply []; plain_reply []; plain_reply (lit "Hello there.")] in
  let w := fresh true replies
             (script [web_error 400; web_error 400; web_error 400]) steady_clock in
  let w' := fresh true replies
              (script [web_no_hits; web_no_hits; web_no_hits]) steady_clock in
  option_map keyphrases (ok_value (fst (reason context w))) = Some (Some [])
  /\ length (llm_requests (snd (reason context w))) = 2
  /\ fst (pipeline context w) = Throw (SearchFailed 400)
  /\ web_queries (snd (pipeline context w)) = [[]; []; []]
  /\ option_map answer (ok_value (fst (pipeline context w')))
     = Some (Some (lit "Hello there.")).
Proof.
  cbv zeta.
  split; [vm_compute; reflexivity|]. split; [vm_compute; reflexivity|].
  split; [vm_compute; reflexivity|]. split; vm_compute; reflexivity.
Qed.

(** Besides: the keyphrases can be missing altogether after the retry, when
    the thought that is put into the second hint holds a marker of its own;
    [search] then throws on [keyphrases.replace]. *)
Lemma missing_keyphrases_throw :
  let context := new_context tea [] test_delegates in
  let w := fresh true
             (script [plain_reply (lit "English.\nTHOUGHT: see OBSERVATION: a OBSERVATION: b\nTOPIC: tea.");
                      plain_reply (lit "green tea\nTOPIC: tea.")])
             (script [web_hits]) steady_clock in
  option_map keyphrases (ok_value (fst (reason context w))) = Some None
  /\ length (llm_requests (snd (reason context w))) = 2
  /\ fst (pipeline context w) = Throw TypeError.
Proof.
  cbv zeta.
  split; [vm_compute; reflexivity|]. split; vm_compute; reflexivity.
Qed.

End PipelineFacts.

(** ** The retry policy of [search] *)

Module SearchFacts.

Import Spec.
Import Display Pipeline PipelineFacts.

Lemma enter_search (f : frontend) :
  call_enter (delegates_of f) (lit "Search") = effect (record_enter (lit "Search")).
Proof. now destruct f. Qed.

Lemma leave_search (f : frontend) (x : fields) :
  call_leave (delegates_of f) (lit "Search") x = effect (record_leave (lit "Search") x).
Proof. now destruct f. Qed.

(** An attempt sends at most one request of its own, and either ends there or
    hands over to the retry. *)
Lemma search_attempt_cases (f : frontend) (again : option (M Context))
  (context : Context) (w : World) :
  delegates context = delegates_of f ->
  length (web_queries (snd (search_attempt again context w)))
    <= S (length (web_queries w))
  \/ exists retry w',
       again = Some retry /\ search_attempt again context w = retry w'
       /\ length (web_queries w') = S (length (web_queries w)).
Proof.
  intros Hd.
  pattern (search_attempt again context w).
  match goal with |- ?Q _ => set (P := Q) end.
  unfold search_attempt. rewrite Hd, enter_search.
  assert (Hleave : forall x, call_leave (delegates_of f) (lit "Search") x
                   = effect (record_leave (lit "Search") x)) by apply leave_search.
  destruct (keyphrases context) as [k|];
    [|left; unfold bind, effect, throw; queries].
  unfold bind at 1. unfold effect at 1. unfold bind at 1. unfold fetch_search.
  change (web (record_enter (lit "Search") w)) with (web w).
  change (web_queries (record_enter (lit "Search") w)) with (web_queries w).
  set (w' := log_web (clean_query k) (record_enter (lit "Search") w)).
  assert (Hw' : length (web_queries w') = S (length (web_queries w))) by reflexivity.
  assert (Hend : forall (r : result Context) (w'' : World),
             length (web_queries w'') = S (length (web_queries w)) -> P (r, w''))
    by (intros r w'' H; left; cbn [snd]; lia).
  destruct (web w (length (web_queries w))) as [r|]; [|now apply Hend].
  destruct (JSON_parse (web_body r)) as [data|]; [|now apply Hend].
  assert (Hagain : forall (other : M Context),
             P (other w') ->
             P (match again with Some retry => retry | None => other end w')).
  { intros other Ho. destruct again as [retry|]; [right|exact Ho].
    exists retry, w'. split; [reflexivity|]. split; [reflexivity|exact Hw']. }
  assert (Hfinish : forall refs,
             P ((call_leave (delegates_of f) (lit "Search") (SearchFields refs) ;;;
                 ret (with_references context refs)) w')).
  { intros refs. rewrite Hleave. apply Hend. exact Hw'. }
  destruct (web_ok r); cbn [negb]; [|apply Hagain; now apply Hend].
  destruct data; try (now apply Hend);
    (destruct (get _ (lit "hits")) as [|[| | | |[|h hs]|]];
     try (apply Hagain; apply Hfinish));
    unfold bind at 1, lift at 1;
    (destruct (references_of _ 0) as [refs|e|];
     [apply Hfinish|now apply Hend|now apply Hend]).
Qed.

(** [search(context, attempt)] sends at most [attempt] requests (one when
    [attempt] is zero): three for the call the pipeline makes. *)
Lemma search_from_requests (f : frontend) (attempt : nat) (context : Context)
  (w : World) :
  delegates context = delegates_of f ->
  length (web_queries (snd (search_from attempt context w)))
    <= length (web_queries w) + Nat.max 1 attempt.
Proof.
  intros Hd. revert w. induction attempt as [|a IH]; intros w.
  - destruct (search_attempt_cases f None context w Hd) as [H|(? & ? & E & _)];
      [cbn [search_from Nat.max]; lia|discriminate].
  - destruct a as [|n].
    + destruct (search_attempt_cases f None context w Hd) as [H|(? & ? & E & _)];
        [cbn [search_from Nat.max]; lia|discriminate].
    + change (search_from (S (S n)) context)
        with (search_attempt (Some (search_from (S n) context)) context).
      destruct (search_attempt_cases f (Some (search_from (S n) context)) context w Hd)
        as [H|(retry & w' & E & Hs & Hl)]; [lia|].
      assert (E' : search_from (S n) context = retry) by congruence.
      rewrite Hs, <- E'. specialize (IH w'). lia.
Qed.

Lemma search_at_most_three (f : frontend) (context : Context) (w : World) :
  delegates context = delegates_of f ->
  length (web_queries (snd (search context w))) <= length (web_queries w) + 3.
Proof. intros Hd. apply (search_from_requests f 3 context w Hd). Qed.

(** A reply that is an error with a JSON body. *)
Lemma search_attempt_failed (f : frontend) (again : option (M Context))
  (context : Context) (k : str) (w : World) (r : WebReply) (data : value) :
  delegates context = delegates_of f -> keyphrases context = Some k ->
  web w (length (web_queries w)) = Some r ->
  web_ok r = false -> JSON_parse (web_body r) = Some data ->
  let w' := log_web (clean_query k) (record_enter (lit "Search") w) in
  search_attempt again context w =
  match again with
  | Some retry => retry w'
  | None => (Throw (SearchFailed (web_status r)), w')
  end.
Proof.
  intros Hd Hk Hw Hok Hdata w'.
  unfold search_attempt. rewrite Hd, Hk, enter_search.
  unfold bind at 1. unfold effect at 1. unfold bind at 1. unfold fetch_search.
  change (web (record_enter (lit "Search") w)) with (web w).
  change (web_queries (record_enter (lit "Search") w)) with (web_queries w).
  rewrite Hw, Hdata, Hok. cbn [negb]. fold w'. now destruct again.
Qed.

(** X1.  After three replies in a row that are errors with a JSON body, [search]
    throws with the status of the last, having sent three requests. *)
Lemma search_three_failures (f : frontend) (context : Context) (k : str) (w : World)
  (r0 r1 r2 : WebReply) (d0 d1 d2 : value) :
  delegates context = delegates_of f -> keyphrases context = Some k ->
  let n := length (web_queries w) in
  web w n = Some r0 -> web w (S n) = Some r1 -> web w (S (S n)) = Some r2 ->
  web_ok r0 = false -> web_ok r1 = false -> web_ok r2 = false ->
  JSON_parse (web_body r0) = Some d0 -> JSON_parse (web_body r1) = Some d1 ->
  JSON_parse (web_body r2) = Some d2 ->
  fst (search context w) = Throw (SearchFailed (web_status r2))
  /\ web_queries (snd (search context w))
     = clean_query k :: clean_query k :: clean_query k :: web_queries w.
Proof.
  intros Hd Hk n H0 H1 H2 Hf0 Hf1 Hf2 Hj0 Hj1 Hj2.
  set (asked := fun w => log_web (clean_query k) (record_enter (lit "Search") w)).
  unfold search. cbn [search_from].
  rewrite (search_attempt_failed f _ context w Hd Hk H0 Hf0 Hj0).
  rewrite (search_attempt_failed f _ context (asked w) Hd Hk H1 Hf1 Hj1).
  rewrite (search_attempt_failed f _ context (asked (asked w)) Hd Hk H2 Hf2 Hj2).
  split; reflexivity.
Qed.


End SearchFacts.

Module TrimFacts.
Import StringFacts.

Lemma trimStart_idem (s : str) : trimStart (trimStart s) = trimStart s.
Proof.
  induction s as [|c s IH]; [reflexivity|]. simpl.
  destruct (is_ws c) eqn:E; [exact IH|]. simpl. now rewrite E.
Qed.

Lemma trimStart_head (s : str) :
  trimStart s = s <-> match s with [] => True | c :: _ => is_ws c = false end.
Proof.
  destruct s as [|c s]; [simpl; tauto|]. simpl. destruct (is_ws c) eqn:E.
  - split; [|discriminate]. intros H. pose proof (trimStart_length s) as Hl.
    rewrite H in Hl. simpl in Hl. lia.
  - tauto.
Qed.

Lemma trimStart_snoc (l : str) (c : char) :
  is_ws c = false -> exists l', trimStart (l ++ [c]) = l' ++ [c].
Proof.
  intros Hc. induction l as [|x l (l' & IH)].
  - exists []. simpl. now rewrite Hc.
  - simpl. destruct (is_ws x); [now exists l'|]. now exists (x :: l).
Qed.

(** Stripping the end leaves the beginning as it is. *)
Lemma trimStart_trimEnd (s : str) : trimStart s = s -> trimStart (trimEnd s) = trimEnd s.
Proof.
  intros H. apply trimStart_head in H. destruct s as [|c s]; [reflexivity|].
  unfold trimEnd. simpl rev.
  destruct (trimStart_snoc (rev s) c H) as (l' & ->).
  rewrite rev_app_distr. simpl. now rewrite H.
Qed.

Lemma trimEnd_idem (s : str) : trimEnd (trimEnd s) = trimEnd s.
Proof. unfold trimEnd. now rewrite rev_involutive, trimStart_idem. Qed.

Lemma trim_trimStart (s : str) : trimStart (trim s) = trim s.
Proof. unfold trim. apply trimStart_trimEnd. apply trimStart_idem. Qed.

Lemma trim_trimEnd (s : str) : trimEnd (trim s) = trim s.
Proof. unfold trim. apply trimEnd_idem. Qed.

Lemma trim_idem (s : str) : trim (trim s) = trim s.
Proof. unfold trim at 1. now rewrite trim_trimStart, trim_trimEnd. Qed.

Lemma trimStart_In (s : str) (c : char) : In c (trimStart s) -> In c s.
Proof.
  induction s as [|x s IH]; simpl; [tauto|].
  destruct (is_ws x); [intros H; right; now apply IH|simpl; tauto].
Qed.

Lemma trim_In (s : str) (c : char) : In c (trim s) -> In c s.
Proof.
  unfold trim, trimEnd. intros H. apply in_rev in H. apply trimStart_In in H.
  apply in_rev in H. now apply trimStart_In.
Qed.

End TrimFacts.

Module StreamFacts.
Import Spec StringFacts TrimFacts ChatFacts.
Import Chat.
Import Terms.

Lemma process_line_sound (st : stream_state) (raw : str) :
  sound st ->
  match process_line st raw with
  | Next st' | Stop st' | Raise st' _ => sound st'
  | Outside => True
  end.
Proof.
  intros (Hc & Hn & Ht). unfold process_line.
  destruct (match buffer st ++ raw with c :: _ => N.eqb c COLON | [] => false end);
    [now repeat split|].
  destruct (str_eqb (buffer st ++ raw) DONE_LINE); [now repeat split|].
  destruct (buffer st ++ raw) as [|c0 l0]; [now repeat split|].
  destruct (parse (c0 :: l0)) as [|[|b|x|[|c d]|[|i items]|m]]; try (now repeat split).
  - destruct (answer st) as [|a0 a] eqn:Ea.
    + destruct (trim (c :: d)) as [|t0 t] eqn:Et.
      * now repeat split.
      * split; [|split]; cbn [answer emitted].
        -- simpl rev. rewrite concat_app, Hc. simpl. now rewrite app_nil_r.
        -- constructor; [discriminate|exact Hn].
        -- rewrite <- Et. apply trim_trimStart.
    + split; [|split]; cbn [answer emitted].
      * simpl rev. rewrite concat_app, Hc. simpl. now rewrite app_nil_r.
      * constructor; [discriminate|exact Hn].
      * rewrite trimStart_app_keep by (rewrite Ht; discriminate). now rewrite Ht.
  - destruct (answer st); [now repeat split|exact I].
  - destruct (lookup m (lit "length")); [exact I|now repeat split].
Qed.

Lemma process_lines_sound (ls : list str) (st : stream_state) :
  sound st ->
  match process_lines st ls with
  | Next st' | Stop st' | Raise st' _ => sound st'
  | Outside => True
  end.
Proof.
  revert st; induction ls as [|l ls IH]; intros st H; [exact H|].
  cbn [process_lines]. pose proof (@process_line_sound st l H) as Hl.
  destruct (process_line st l); try exact Hl. now apply IH.
Qed.

Lemma read_loop_sound (reads : list str) (st : stream_state) :
  sound st ->
  match read_loop st reads with
  | Next st' | Stop st' | Raise st' _ => sound st'
  | Outside => True
  end.
Proof.
  revert st; induction reads as [|r reads IH]; intros st H; [exact H|].
  cbn [read_loop]. pose proof (@process_lines_sound (split NL r) st H) as Hl.
  destruct (process_lines st (split NL r)); try exact Hl; now apply IH.
Qed.

Lemma initial_sound : sound initial.
Proof. repeat split. constructor. Qed.

(** X3.  Whatever the reads are, when the streaming path returns, the pieces
    the handler has received are non-empty and, put together in the order
    in which they came, are the answer that is returned. *)
Theorem stream_pieces_add_up (reads : list str) (a : str) (pieces : list str) :
  chat_stream reads = (Ok a, pieces) ->
  concat pieces = a /\ Forall (fun d => d <> []) pieces.
Proof.
  unfold chat_stream. pose proof (@read_loop_sound reads initial initial_sound) as H.
  destruct (read_loop initial reads) as [st|st|st e|]; intros [= <- <-];
    destruct H as (Hc & Hn & _); (split; [exact Hc|]);
    apply Forall_rev; exact Hn.
Qed.

Lemma stream_pieces_add_up_witness :
  chat_stream hello_reads = (Ok (lit "Hello world"), [lit "Hello"; lit " world"])
  /\ concat [lit "Hello"; lit " world"] = lit "Hello world".
Proof.
  assert (E : chat_stream hello_reads = (Ok (lit "Hello world"), [lit "Hello"; lit " world"]))
    by (vm_compute; reflexivity).
  split; [exact E|]. exact (proj1 (stream_pieces_add_up hello_reads E)).
Defined.

Lemma stream_trimmed (reads : list str) (a : str) :
  fst (chat_stream reads) = Ok a -> trimStart a = a.
Proof.
  unfold chat_stream. pose proof (@read_loop_sound reads initial initial_sound) as H.
  destruct (read_loop initial reads) as [st|st|st e|]; cbn [fst]; intros [= <-];
    now destruct H as (_ & _ & Ht).
Qed.

Lemma plain_trimmed (body a : str) : chat_plain body = Ok a -> trim a = a.
Proof.
  unfold chat_plain. destruct (JSON_parse body) as [data|]; [|discriminate].
  destruct (destructure (Val data) (lit "choices")) as [choices|]; [|discriminate].
  destruct (index0 choices) as [first|]; [|discriminate].
  destruct (destructure first (lit "message")) as [message|]; [|discriminate].
  destruct (destructure message (lit "content")) as [[|[| | |content| |]]|];
    try discriminate.
  intros [= <-]. apply trim_idem.
Qed.


(** A comment line, met with an empty carry-over buffer, changes nothing. *)
Lemma process_line_comment (st : stream_state) (l : str) :
  buffer st = [] -> comment l -> process_line st l = Next (absorb st (text_of l)).
Proof.
  intros Hb Hc. destruct l as [|c l]; [discriminate|]. injection Hc as ->.
  unfold process_line, text_of, parse. rewrite Hb. cbn [app].
  change (N.eqb COLON COLON) with true. cbv iota.
  change (str_eqb (substring 0 6 (COLON :: l)) DATA_PREFIX) with false. cbv iota.
  cbn [absorb]. destruct st; simpl in *. now subst.
Qed.

Lemma process_line_quiet (st : stream_state) (l : str) :
  buffer st = [] -> quiet l -> process_line st l = Next (absorb st (text_of l)).
Proof.
  intros Hb [H|H]; [now apply process_line_whole|now apply process_line_comment].
Qed.

Lemma process_lines_quiet (ls : list str) (st : stream_state) :
  buffer st = [] -> Forall quiet (until_done ls) ->
  let st' := fold_left absorb (map text_of (until_done ls)) st in
  process_lines st ls = Next st' \/ process_lines st ls = Stop st'.
Proof.
  revert st; induction ls as [|l ls IH]; intros st Hb Hw; [now left|].
  cbn [until_done] in *. destruct (str_eqb l DONE_LINE) eqn:E.
  - apply str_eqb_eq in E. subst l. right. cbn [process_lines].
    now rewrite process_line_done.
  - inversion Hw; subst. cbn [process_lines map fold_left].
    rewrite process_line_quiet by assumption.
    apply IH; [now apply absorb_buffer|assumption].
Qed.

Lemma read_loop_quiet (reads : list str) (st : stream_state) :
  buffer st = [] -> Forall quiet (lines_of reads) ->
  read_loop st reads = Next (fold_left absorb (deltas_of reads) st).
Proof.
  revert st; induction reads as [|r reads IH]; intros st Hb Hw; [reflexivity|].
  unfold lines_of in Hw. cbn [flat_map] in Hw. apply Forall_app in Hw as [Hr Hrs].
  assert (E : read_loop st (r :: reads)
              = read_loop (fold_left absorb (map text_of (until_done (split NL r))) st)
                  reads).
  { cbn [read_loop].
    destruct (process_lines_quiet (split NL r) st Hb Hr) as [-> | ->]; reflexivity. }
  rewrite E, IH; [|now apply fold_absorb_buffer|exact Hrs].
  unfold deltas_of, lines_of. cbn [flat_map]. now rewrite map_app, fold_left_app.
Qed.

(** X4.  Comment lines (lines that begin with a colon, which servers send to
    keep the connection alive) between whole frames are passed over: the
    answer is made of the deltas of the frames alone. *)
Theorem comments_passed_over (reads : list str) :
  Forall (fun l => whole l \/ comment l) (lines_of reads) ->
  (forall d, first_visible (deltas_of reads) = Some d -> trimEnd d = d) ->
  Forall (fun l => comment l -> text_of l = []) (lines_of reads)
  /\ chat_stream reads
     = (Ok (trimStart (concat (deltas_of reads))), emissions (deltas_of reads)).
Proof.
  intros Hq Hv. split.
  - apply Forall_forall. intros l _ Hc. destruct l as [|c l]; [reflexivity|].
    injection Hc as ->. reflexivity.
  - unfold chat_stream.
    rewrite read_loop_quiet by (reflexivity || exact Hq).
    rewrite absorb_all by (reflexivity || assumption).
    cbn [answer emitted initial]. now rewrite app_nil_r, rev_involutive.
Qed.

Lemma comments_passed_over_witness :
  chat_stream keep_alive_reads = (Ok (lit "Hello world"), [lit "Hello"; lit " world"]).
Proof.
  assert (Hq : Forall (fun l => whole l \/ comment l) (lines_of keep_alive_reads)).
  { change (lines_of keep_alive_reads)
      with [lit ": OPENROUTER PROCESSING"; []; frame_line (lit "Hello"); []; [];
            lit ": ping"; []; frame_line (lit " world"); []].
    repeat (apply Forall_cons;
            [first [ now (left; left)
                   | now right
                   | left; right;
                     (split; [vm_compute; discriminate|]);
                     (split; [intros H; vm_compute in H; discriminate|]);
                     left; eexists; vm_compute; reflexivity ]|]).
    apply Forall_nil. }
  assert (Hv : forall d, first_visible (deltas_of keep_alive_reads) = Some d -> trimEnd d = d).
  { intros d Hd. vm_compute in Hd. injection Hd as <-. reflexivity. }
  rewrite (proj2 (comments_passed_over keep_alive_reads Hq Hv)).
  vm_compute. reflexivity.
Defined.

End StreamFacts.

Module ChatCallFacts.
Import Spec StringFacts TrimFacts StreamFacts.
Import Display Pipeline.

(** X5.  Whatever the endpoint sends, an answer that [chat] returns does not
    begin with white space; without streaming it does not end with white
    space either. *)
Theorem chat_answer_trimmed (messages : list Message)
  (handler : option (str -> World -> World)) (w w' : World) (text : str) :
  chat messages handler w = (Ok text, w') ->
  trimStart text = text
  /\ (LLM_STREAMING w && match handler with Some _ => true | None => false end = false ->
      trimEnd text = text).
Proof.
  unfold chat. destruct (llm w (length (llm_requests w))) as [r|]; [|discriminate].
  destruct (llm_ok r); cbn [negb]; [|discriminate].
  destruct (LLM_STREAMING w && match handler with Some _ => true | None => false end);
    cbn [negb].
  - destruct (Chat.chat_stream (llm_reads r)) as [res deltas] eqn:E.
    intros [= -> _]. split; [|discriminate].
    apply (@stream_trimmed (llm_reads r)). now rewrite E.
  - destruct (Chat.chat_plain (concat (llm_reads r))) as [a| |] eqn:E; try discriminate.
    intros [= <- _]. apply plain_trimmed in E.
    destruct (trim_fixed E) as [Hs He]. now split.
Qed.

Lemma chat_answer_trimmed_witness :
  let w := fresh true (script [plain_reply (lit "  Tea is a drink. ")]) (script [])
             steady_clock in
  fst (chat [] None w) = Ok (lit "Tea is a drink.")
  /\ trimStart (lit "Tea is a drink.") = lit "Tea is a drink.".
Proof.
  intros w.
  assert (E : chat [] None w = (Ok (lit "Tea is a drink."), snd (chat [] None w)))
    by (vm_compute; reflexivity).
  split; [now rewrite E|]. exact (proj1 (chat_answer_trimmed _ _ _ E)).
Defined.

End ChatCallFacts.

(** ** The codec: what [deconstruct] and [breakdown] give for any text *)

Module DeconstructFacts.

Import Spec StringFacts CodecFacts RoundTrip TrimFacts.
Import Terms.

Lemma starts_with_prefix (pat s : str) :
  starts_with pat s = true <-> exists b, s = pat ++ b.
Proof.
  split.
  - revert s; induction pat as [|p pat IH]; intros s H; [now exists s|].
    destruct s as [|x s]; [discriminate|]. simpl in H.
    apply andb_true_iff in H as [Hx Hr]. apply N.eqb_eq in Hx. subst x.
    destruct (IH _ Hr) as (b & ->). now exists b.
  - intros (b & ->). apply starts_with_app.
Qed.

(** [lastIndexOf] answers -1 exactly when there is no occurrence. *)
Lemma lastIndexOf_none (pat s : str) : lastIndexOf pat s = None <-> ~ occurs pat s.
Proof.
  split.
  - induction s as [|x s IH]; simpl.
    + destruct (starts_with pat []) eqn:E; [discriminate|]. intros _ (a & b & H).
      destruct a; [|discriminate]. destruct pat; [discriminate|discriminate].
    + destruct (lastIndexOf pat s); [discriminate|].
      destruct (starts_with pat (x :: s)) eqn:E; [discriminate|]. intros _ (a & b & H).
      destruct a as [|y a].
      * assert (E' : starts_with pat (x :: s) = true)
          by (apply starts_with_prefix; now exists b).
        congruence.
      * injection H as _ H. apply IH; [reflexivity|]. now exists a, b.
  - intros H. destruct (lastIndexOf pat s) as [i|] eqn:E; [|reflexivity].
    exfalso. apply H. clear H. revert i E. induction s as [|x s IH]; simpl; intros i.
    + destruct (starts_with pat []) eqn:E; [|discriminate].
      apply starts_with_prefix in E as (b & E). intros _. now exists [], b.
    + destruct (lastIndexOf pat s) as [j|].
      * intros _. destruct (IH j eq_refl) as (a & b & ->). now exists (x :: a), b.
      * destruct (starts_with pat (x :: s)) eqn:E; [|discriminate].
        apply starts_with_prefix in E as (b & E). intros _. now exists [], b.
Qed.

Lemma obj_get_set (o : obj) (k k' v : str) :
  obj_get (obj_set o k v) k' = if str_eqb k k' then Some v else obj_get o k'.
Proof.
  destruct (str_eqb k k') eqn:E.
  - apply str_eqb_eq in E. subst. apply obj_get_set_same.
  - apply obj_get_set_other. intros ->. now rewrite str_eqb_refl in E.
Qed.

(** The loop leaves alone the keys it is not looking for. *)
Lemma loop_keeps (keys : list str) (s : str) (parts : obj) (k : str) :
  (forall K, In K keys -> toLowerCase K <> k) ->
  obj_get (deconstruct_loop keys s parts) k = obj_get parts k.
Proof.
  revert s parts; induction keys as [|K keys IH]; intros s parts H; [reflexivity|].
  simpl. destruct (lastIndexOf (K ++ [COLON]) s).
  - rewrite IH by (intros; apply H; now right).
    apply obj_get_set_other. apply H. now left.
  - apply IH. intros; apply H; now right.
Qed.

(** The loop never takes a key away. *)
Lemma loop_defined (keys : list str) (s : str) (parts : obj) (k : str) :
  obj_get parts k <> None -> obj_get (deconstruct_loop keys s parts) k <> None.
Proof.
  revert s parts; induction keys as [|K keys IH]; intros s parts H; [exact H|].
  simpl. destruct (lastIndexOf (K ++ [COLON]) s); [|now apply IH].
  apply IH. rewrite obj_get_set. now destruct (str_eqb (toLowerCase K) k).
Qed.

Lemma first_line_one_line (c : char) (s : str) : ~ In c (hd [] (split c s)).
Proof.
  induction s as [|x s IH]; simpl; [tauto|].
  destruct (N.eqb_spec x c) as [->|Hx]; [simpl; tauto|].
  destruct (split c s) as [|l ls]; simpl in *; intuition.
Qed.

Lemma first_line_head (s : str) :
  trimStart s = s -> trimStart (hd [] (split NL s)) = hd [] (split NL s).
Proof.
  intros H. apply trimStart_head in H. apply trimStart_head.
  destruct s as [|x s]; [exact I|]. simpl.
  destruct (N.eqb_spec x NL) as [->|Hx]; [discriminate|].
  destruct (split NL s); exact H.
Qed.

Lemma loop_shape (keys : list str) (s : str) (parts : obj) :
  (forall K, In K keys -> In K PREDEFINED_KEYS) ->
  (forall k v, obj_get parts k = Some v -> entry_shape k v) ->
  forall k v, obj_get (deconstruct_loop keys s parts) k = Some v -> entry_shape k v.
Proof.
  revert s parts; induction keys as [|K keys IH]; intros s parts Hk Hp; [exact Hp|].
  simpl. destruct (lastIndexOf (K ++ [COLON]) s) as [pos|].
  - apply IH; [intros; apply Hk; now right|].
    intros k v. rewrite obj_get_set.
    destruct (str_eqb (toLowerCase K) k) eqn:E; [|apply Hp].
    apply str_eqb_eq in E. subst k. intros [= <-]. split; [|split].
    + apply in_map. apply Hk. now left.
    + apply first_line_head. apply trim_trimStart.
    + intros _. apply first_line_one_line.
  - apply IH; [intros; apply Hk; now right|exact Hp].
Qed.

(** [deconstruct] on a text in which the anchor is found. *)
Lemma deconstruct_anchored (text : str) (start : nat) :
  lastIndexOf TOPIC_MARKER text = Some start ->
  deconstruct text
  = deconstruct_loop (rev PREDEFINED_KEYS) (firstn start text)
      [(lit "topic", trim (replace TOPIC_MARKER [] (skipn start text)))].
Proof.
  intros H. unfold deconstruct, deconstruct_with.
  change (last PREDEFINED_KEYS [] ++ [COLON]) with TOPIC_MARKER. rewrite H.
  unfold substring, substring_from.
  now rewrite Nat.max_0_l, Nat.min_0_l, Nat.sub_0_r.
Qed.

(** X6.  Whatever the text, every entry of the mapping [deconstruct] returns
    has one of the seven keys, its value does not begin with white space,
    and the value of every key but the topic stands on one line. *)
Theorem deconstruct_entries (text k v : str) :
  obj_get (deconstruct text) k = Some v -> entry_shape k v.
Proof.
  destruct (lastIndexOf TOPIC_MARKER text) as [start|] eqn:E.
  - rewrite (deconstruct_anchored text E). apply loop_shape.
    + intros K HK. now apply in_rev in HK.
    + intros k' v'. cbn [obj_get].
      destruct (str_eqb (lit "topic") k') eqn:Ek; [|discriminate].
      apply str_eqb_eq in Ek. subst k'. intros [= <-]. split; [|split].
      * vm_compute. tauto.
      * apply trim_trimStart.
      * intros H. now elim H.
  - unfold deconstruct, deconstruct_with.
    change (last PREDEFINED_KEYS [] ++ [COLON]) with TOPIC_MARKER. rewrite E.
    discriminate.
Qed.

Lemma deconstruct_entries_witness :
  let text := lit "THOUGHT:   about tea" ++ [NL] ++ lit "and more" ++ [NL]
                ++ lit "TOPIC: drinks" in
  obj_get (deconstruct text) (lit "thought") = Some (lit "about tea")
  /\ entry_shape (lit "thought") (lit "about tea").
Proof.
  intros text.
  assert (E : obj_get (deconstruct text) (lit "thought") = Some (lit "about tea"))
    by (vm_compute; reflexivity).
  split; [exact E|]. exact (@deconstruct_entries text _ _ E).
Defined.

Lemma deconstruct_without_topic (text : str) :
  lastIndexOf TOPIC_MARKER text = None -> deconstruct text = [].
Proof.
  intros E. unfold deconstruct, deconstruct_with.
  change (last PREDEFINED_KEYS [] ++ [COLON]) with TOPIC_MARKER. now rewrite E.
Qed.

(** X7.  [deconstruct] returns the empty mapping exactly for the texts in
    which [TOPIC:] does not occur, whatever else they hold. *)
Theorem deconstruct_empty (text : str) :
  deconstruct text = [] <-> ~ occurs TOPIC_MARKER text.
Proof.
  rewrite <- lastIndexOf_none. split.
  - intros H. destruct (lastIndexOf TOPIC_MARKER text) as [start|] eqn:E; [|reflexivity].
    exfalso. rewrite (deconstruct_anchored text E) in H.
    apply (@loop_defined (rev PREDEFINED_KEYS) (firstn start text)
             [(lit "topic", trim (replace TOPIC_MARKER [] (skipn start text)))]
             (lit "topic")); [discriminate|].
    now rewrite H.
  - apply deconstruct_without_topic.
Qed.

Lemma topic_marker_facts :
  ~ In NL TOPIC_MARKER /\ TOPIC_MARKER <> []
  /\ lastIndexOf TOPIC_MARKER (lit "TOPIC: general knowledge.") = Some 0.
Proof. split; [|split]; [vm_compute; intuition discriminate|discriminate|reflexivity]. Qed.

Lemma other_keys (K : str) :
  In K (tl (rev PREDEFINED_KEYS)) -> toLowerCase K <> lit "topic".
Proof.
  intros H. repeat (destruct H as [<-|H]; [vm_compute; discriminate|]). contradiction.
Qed.

(** X8.  When [TOPIC:] occurs neither in the hint nor in the completion nor
    across the two, [breakdown] gives the topic [general knowledge.]. *)
Theorem breakdown_default_topic (hint completion : str) :
  ~ occurs TOPIC_MARKER (hint ++ completion) ->
  obj_get (breakdown hint completion) (lit "topic") = Some (lit "general knowledge.").
Proof.
  intros H. unfold breakdown.
  apply lastIndexOf_none in H.
  rewrite (@deconstruct_without_topic (hint ++ completion) H). cbn [obj_get truthy].
  destruct topic_marker_facts as (Hnl & Hne & Hg).
  set (text := hint ++ completion) in *.
  assert (E : lastIndexOf TOPIC_MARKER (text ++ [NL] ++ lit "TOPIC: general knowledge.")
              = Some (length (text ++ [NL]) + 0)).
  { rewrite app_assoc. now apply lastIndexOf_app_found. }
  rewrite (deconstruct_anchored _ E).
  rewrite app_assoc, skipn_past, Nat.add_0_r, firstn_exact. cbn [skipn].
  change (rev PREDEFINED_KEYS) with (lit "TOPIC" :: tl (rev PREDEFINED_KEYS)).
  cbn [deconstruct_loop]. change (lit "TOPIC" ++ [COLON]) with TOPIC_MARKER.
  rewrite (@lastIndexOf_sep NL TOPIC_MARKER text [] Hnl Hne).
  change (lastIndexOf TOPIC_MARKER []) with (@None nat). rewrite H.
  rewrite loop_keeps by apply other_keys.
  vm_compute. reflexivity.
Qed.

Lemma breakdown_default_topic_witness :
  obj_get (breakdown (lit "TOOL: Google." ++ [NL] ++ lit "LANGUAGE: ")
             (lit "English." ++ [NL] ++ lit "KEYPHRASES: tea"))
    (lit "topic")
  = Some (lit "general knowledge.").
Proof.
  apply breakdown_default_topic. apply lastIndexOf_none. vm_compute. reflexivity.
Defined.

(** X9.  When the completion ends in a bare [TOPIC:] and the marker occurs
    nowhere before, the topic that [deconstruct] finds is the empty string;
    [breakdown] therefore takes its fall-back and reads the text again with
    the line [TOPIC: general knowledge.] added.  The fall-back does not
    help: the topic [breakdown] returns is the empty string all the same,
    because the loop of [deconstruct] finds the bare marker again in the
    text that precedes the added line. *)
Theorem breakdown_bare_topic (hint completion : str) :
  ~ occurs TOPIC_MARKER (hint ++ completion) ->
  let text := (hint ++ completion) ++ TOPIC_MARKER in
  obj_get (deconstruct text) (lit "topic") = Some []
  /\ breakdown hint (completion ++ TOPIC_MARKER)
     = deconstruct (text ++ [NL] ++ lit "TOPIC: general knowledge.")
  /\ obj_get (breakdown hint (completion ++ TOPIC_MARKER)) (lit "topic") = Some [].
Proof.
  intros H. cbv zeta. apply lastIndexOf_none in H.
  destruct topic_marker_facts as (Hnl & Hne & Hg).
  set (text := hint ++ completion) in *.
  assert (E1 : lastIndexOf TOPIC_MARKER (text ++ TOPIC_MARKER) = Some (length text + 0)).
  { apply lastIndexOf_app_found. now apply lastIndexOf_self. }
  assert (Hfirst : obj_get (deconstruct (text ++ TOPIC_MARKER)) (lit "topic") = Some []).
  { rewrite (deconstruct_anchored _ E1). rewrite skipn_past, Nat.add_0_r, firstn_exact.
    cbn [skipn].
    change (rev PREDEFINED_KEYS) with (lit "TOPIC" :: tl (rev PREDEFINED_KEYS)).
    cbn [deconstruct_loop]. change (lit "TOPIC" ++ [COLON]) with TOPIC_MARKER.
    rewrite H. rewrite loop_keeps by apply other_keys. reflexivity. }
  assert (Hb : breakdown hint (completion ++ TOPIC_MARKER)
               = deconstruct ((text ++ TOPIC_MARKER) ++ [NL]
                                ++ lit "TOPIC: general knowledge.")).
  { unfold breakdown. rewrite app_assoc. fold text. now rewrite Hfirst. }
  split; [exact Hfirst|]. split; [exact Hb|].
  rewrite Hb.
  assert (E2 : lastIndexOf TOPIC_MARKER
                 ((text ++ TOPIC_MARKER) ++ [NL] ++ lit "TOPIC: general knowledge.")
               = Some (length ((text ++ TOPIC_MARKER) ++ [NL]) + 0)).
  { rewrite app_assoc. now apply lastIndexOf_app_found. }
  rewrite (deconstruct_anchored _ E2).
  rewrite app_assoc, skipn_past, Nat.add_0_r, firstn_exact. cbn [skipn].
  change (rev PREDEFINED_KEYS) with (lit "TOPIC" :: tl (rev PREDEFINED_KEYS)).
  cbn [deconstruct_loop]. change (lit "TOPIC" ++ [COLON]) with TOPIC_MARKER.
  rewrite (@lastIndexOf_sep NL TOPIC_MARKER (text ++ TOPIC_MARKER) [] Hnl Hne).
  change (lastIndexOf TOPIC_MARKER []) with (@None nat). rewrite E1.
  rewrite loop_keeps by apply other_keys.
  rewrite obj_get_set_same. f_equal.
  unfold substring_from. rewrite <- app_assoc.
  replace (length text + 0 + length (lit "TOPIC") + 1)
    with (length text + length TOPIC_MARKER) by (simpl; lia).
  rewrite skipn_past. reflexivity.
Qed.

Lemma breakdown_bare_topic_witness :
  let hint := lit "TOOL: Google." ++ [NL] ++ lit "LANGUAGE: " in
  let completion := lit "English." ++ [NL] ++ lit "KEYPHRASES: tea" ++ [NL] in
  let text := (hint ++ completion) ++ TOPIC_MARKER in
  obj_get (deconstruct text) (lit "topic") = Some []
  /\ breakdown hint (completion ++ TOPIC_MARKER)
     = deconstruct (text ++ [NL] ++ lit "TOPIC: general knowledge.")
  /\ obj_get (breakdown hint (completion ++ TOPIC_MARKER)) (lit "topic") = Some [].
Proof.
  intros hint completion.
  apply (@breakdown_bare_topic hint completion).
  apply lastIndexOf_none. vm_compute. reflexivity.
Defined.

End DeconstructFacts.

(** ** The stages, one by one: every way each of them can end *)

Module StageFacts.

Import Spec StringFacts.
Import Display Pipeline PipelineFacts SearchFacts.
Import Terms.

Lemma enter_of (f : frontend) (n : str) :
  call_enter (delegates_of f) n = effect (record_enter n).
Proof. now destruct f. Qed.

Lemma leave_of (f : frontend) (n : str) (x : fields) :
  call_leave (delegates_of f) n x = effect (record_leave n x).
Proof. now destruct f. Qed.

(** *** [chat] and the world *)

Lemma chat_quiet (messages : list Message) (w : World) :
  snd (chat messages None w) = log_llm (unstreamed messages) w.
Proof.
  unfold chat. rewrite andb_false_r.
  destruct (llm w (length (llm_requests w))) as [r|]; [|reflexivity].
  destruct (llm_ok r); cbn [negb]; [|reflexivity].
  destruct (Chat.chat_plain (concat (llm_reads r))); reflexivity.
Qed.

Lemma show_text_keeps (text : str) (w : World) :
  stages (show_text text w) = stages w
  /\ web_queries (show_text text w) = web_queries w
  /\ llm_requests (show_text text w) = llm_requests w.
Proof. unfold show_text. destruct (push (shown w) text) as [[d [o|]]|]; now repeat split. Qed.

Lemma shown_keeps (deltas : list str) (w : World) :
  let w' := fold_left (fun w' d => show_text d w') deltas w in
  stages w' = stages w /\ web_queries w' = web_queries w
  /\ llm_requests w' = llm_requests w.
Proof.
  revert w; induction deltas as [|d ds IH]; intros w; [now repeat split|].
  simpl. destruct (IH (show_text d w)) as (H1 & H2 & H3).
  destruct (show_text_keeps d w) as (K1 & K2 & K3).
  rewrite H1, H2, H3. now repeat split.
Qed.

(** A call of [chat] sends one request, and leaves the stage log and the
    search log alone. *)
Lemma chat_world (f : frontend) (messages : list Message) (w : World) :
  let w' := snd (chat messages (stream (delegates_of f)) w) in
  stages w' = stages w /\ web_queries w' = web_queries w
  /\ exists r, llm_requests w' = r :: llm_requests w /\ req_messages r = messages.
Proof.
  unfold chat.
  set (req := {| req_messages := messages;
                 req_stream := LLM_STREAMING w
                               && match stream (delegates_of f) with
                                  | Some _ => true
                                  | None => false
                                  end |}).
  assert (Hend : stages (log_llm req w) = stages w
                 /\ web_queries (log_llm req w) = web_queries w
                 /\ exists r, llm_requests (log_llm req w) = r :: llm_requests w
                              /\ req_messages r = messages)
    by (split; [reflexivity|split; [reflexivity|now exists req]]).
  destruct (llm w (length (llm_requests w))) as [r|]; [|exact Hend].
  destruct (llm_ok r); cbn [negb]; [|exact Hend].
  destruct f; cbn [delegates_of stream test_delegates terminal_delegates] in *.
  - rewrite andb_false_r in *. cbn [negb].
    destruct (Chat.chat_plain (concat (llm_reads r))); exact Hend.
  - destruct (LLM_STREAMING w); cbn [andb negb] in *.
    + destruct (Chat.chat_stream (llm_reads r)) as [res deltas]. cbn [snd].
      destruct (shown_keeps deltas (log_llm req w)) as (H1 & H2 & H3).
      rewrite H1, H2, H3. exact Hend.
    + destruct (Chat.chat_plain (concat (llm_reads r))); cbn [snd]; try exact Hend.
      destruct (show_text_keeps a (log_llm req w)) as (H1 & H2 & H3).
      rewrite H1, H2, H3. exact Hend.
Qed.

(** *** [reason] *)

(** [reason], call by call. *)
Lemma reason_unfold (f : frontend) (context : Context) (w : World) :
  delegates context = delegates_of f ->
  reason context w =
  match chat (hinted context first_hint) None (record_enter (lit "Reason") w) with
  | (Ok completion, w1) =>
      let result := breakdown first_hint completion in
      if truthy (obj_get result (lit "keyphrases")) then
        (Ok (reasoned_context context result),
         record_leave (lit "Reason") (reason_fields result) w1)
      else
        let hint := second_hint (obj_get result (lit "thought")) in
        match chat (hinted context hint) None w1 with
        | (Ok completion', w2) =>
            let result' := breakdown hint completion' in
            (Ok (reasoned_context context result'),
             record_leave (lit "Reason") (reason_fields result') w2)
        | (Throw e, w2) => (Throw e, w2)
        | (Beyond, w2) => (Beyond, w2)
        end
  | (Throw e, w1) => (Throw e, w1)
  | (Beyond, w1) => (Beyond, w1)
  end.
Proof.
  intros Hd.
  assert (He : enter (delegates context) = Some record_enter)
    by (rewrite Hd; now destruct f).
  assert (Hl : leave (delegates context) = Some record_leave)
    by (rewrite Hd; now destruct f).
  match goal with |- _ = ?r => set (rhs := r) end.
  unfold reason, bind, call_enter, call_leave. rewrite He, Hl. unfold effect, ret.
  cbv zeta.
  match goal with
  | |- context [chat ?m None ?w0] =>
      change (chat m None w0)
        with (chat (hinted context first_hint) None (record_enter (lit "Reason") w))
  end.
  subst rhs.
  destruct (chat (hinted context first_hint) None (record_enter (lit "Reason") w))
    as [[c|e|] w1]; try reflexivity.
  match goal with |- _ = ?r => set (rhs := r) end.
  match goal with
  | |- context [truthy ?x] =>
      change (truthy x) with (truthy (obj_get (breakdown first_hint c) (lit "keyphrases")))
  end.
  subst rhs. cbv zeta.
  destruct (truthy (obj_get (breakdown first_hint c) (lit "keyphrases")));
    [reflexivity|].
  match goal with |- _ = ?r => set (rhs := r) end.
  cbv beta.
  match goal with
  | |- context [chat ?m None ?w0] =>
      change (chat m None w0)
        with (chat (hinted context
                      (second_hint (obj_get (breakdown first_hint c) (lit "thought"))))
                None w1)
  end.
  subst rhs.
  destruct (chat (hinted context
                    (second_hint (obj_get (breakdown first_hint c) (lit "thought"))))
              None w1) as [[c'|e|] w2]; reflexivity.
Qed.

(** The four ways [reason] can end: at the first call of [chat], after it,
    at the second call, or after that. *)
Lemma reason_outcome (f : frontend) (context : Context) (w : World) :
  delegates context = delegates_of f ->
  let w1 := log_llm (unstreamed (hinted context first_hint))
              (record_enter (lit "Reason") w) in
  (exists r, reason context w = (r, w1) /\ ok_value r = None)
  \/ (exists result,
        reason context w
        = (Ok (reasoned_context context result),
           record_leave (lit "Reason") (reason_fields result) w1))
  \/ exists t,
       let w2 := log_llm (unstreamed (hinted context (second_hint t))) w1 in
       (exists r, reason context w = (r, w2) /\ ok_value r = None)
       \/ (exists result,
             reason context w
             = (Ok (reasoned_context context result),
                record_leave (lit "Reason") (reason_fields result) w2)).
Proof.
  intros Hd w1. rewrite (reason_unfold f context w Hd).
  pose proof (chat_quiet (hinted context first_hint) (record_enter (lit "Reason") w)) as Hq.
  fold w1 in Hq.
  destruct (chat (hinted context first_hint) None (record_enter (lit "Reason") w))
    as [[completion|e|] w1']; cbn [snd] in Hq; subst w1'.
  2:{ left. now exists (Throw e). }
  2:{ left. now exists Beyond. }
  cbv zeta. set (result := breakdown first_hint completion).
  destruct (truthy (obj_get result (lit "keyphrases"))).
  - right. left. now exists result.
  - right. right. exists (obj_get result (lit "thought")). cbv zeta.
    pose proof (chat_quiet (hinted context (second_hint (obj_get result (lit "thought"))))
                  w1) as Hq.
    destruct (chat (hinted context (second_hint (obj_get result (lit "thought")))) None w1)
      as [[completion'|e|] w2']; cbn [snd] in Hq; subst w2'.
    + right. now eexists.
    + left. now exists (Throw e).
    + left. now exists Beyond.
Qed.

(** *** [search] *)

Lemma reference_position (hit : value) (i : nat) (r : Reference) :
  reference_of hit i = Ok r -> position r = i + 1.
Proof.
  unfold reference_of. intros H.
  repeat match type of H with
         | context [match ?x with _ => _ end] => destruct x; try discriminate
         end;
    injection H as <-; reflexivity.
Qed.

Lemma references_positions (hits : list value) (i : nat) (refs : list Reference) :
  references_of hits i = Ok refs ->
  length refs = length hits /\ map position refs = seq (i + 1) (length hits).
Proof.
  revert i refs; induction hits as [|hit hits IH]; intros i refs; simpl.
  - intros [= <-]. now split.
  - destruct (reference_of hit i) as [r| |] eqn:Er; try discriminate.
    destruct (references_of hits (S i)) as [rs| |] eqn:Es; try discriminate.
    intros [= <-]. destruct (IH _ _ Es) as [Hl Hp]. simpl.
    rewrite Hl, Hp, (reference_position _ _ Er).
    replace (S i + 1) with (S (i + 1)) by lia. now split.
Qed.

Lemma top_numbered (hits : list value) (refs : list Reference) :
  references_of (firstn TOP_K hits) 0 = Ok refs -> numbered refs.
Proof.
  intros H. apply references_positions in H as [Hl Hp]. split.
  - rewrite Hl. apply firstn_le_length.
  - now rewrite Hp, Hl.
Qed.

(** The three ways an attempt can end: with references, with an error, or
    by handing over to the retry. *)
Lemma search_attempt_outcome (f : frontend) (again : option (M Context))
  (context : Context) (k : str) (w : World) :
  delegates context = delegates_of f -> keyphrases context = Some k ->
  let w' := asked (clean_query k) w in
  (exists refs,
     search_attempt again context w
     = (Ok (with_references context refs),
        record_leave (lit "Search") (SearchFields refs) w')
     /\ numbered refs)
  \/ (exists r, search_attempt again context w = (r, w') /\ ok_value r = None)
  \/ (exists retry, again = Some retry /\ search_attempt again context w = retry w').
Proof.
  intros Hd Hk w'.
  pattern (search_attempt again context w).
  match goal with |- ?Q _ => set (P := Q) end.
  unfold search_attempt. rewrite Hd, Hk, enter_search.
  assert (Hleave : forall x, call_leave (delegates_of f) (lit "Search") x
                   = effect (record_leave (lit "Search") x)) by apply leave_search.
  unfold bind at 1. unfold effect at 1. unfold bind at 1. unfold fetch_search.
  change (web (record_enter (lit "Search") w)) with (web w).
  change (web_queries (record_enter (lit "Search") w)) with (web_queries w).
  change (log_web (clean_query k) (record_enter (lit "Search") w)) with w'.
  assert (Hend : forall (r : result Context), ok_value r = None -> P (r, w'))
    by (intros r Hr; right; left; now exists r).
  destruct (web w (length (web_queries w))) as [r|]; [|now apply Hend].
  destruct (JSON_parse (web_body r)) as [data|]; [|now apply Hend].
  assert (Hagain : forall (other : M Context),
             P (other w') ->
             P (match again with Some retry => retry | None => other end w')).
  { intros other Ho. destruct again as [retry|]; [|exact Ho].
    right. right. now exists retry. }
  assert (Hfinish : forall refs, numbered refs ->
             P ((call_leave (delegates_of f) (lit "Search") (SearchFields refs) ;;;
                 ret (with_references context refs)) w')).
  { intros refs Hn. rewrite Hleave. left. now exists refs. }
  assert (Hnone : numbered []) by (split; [apply Nat.le_0_l|reflexivity]).
  destruct (web_ok r); cbn [negb]; [|apply Hagain; now apply Hend].
  destruct data; try (now apply Hend);
    (destruct (get _ (lit "hits")) as [|[| | | |[|h hs]|]];
     try (apply Hagain; now apply Hfinish));
    unfold bind at 1, lift at 1;
    (destruct (references_of _ 0) as [refs|e|] eqn:Er;
     [apply Hfinish; now apply (top_numbered (h :: hs))|now apply Hend|now apply Hend]).
Qed.

Lemma asked_once (q : str) (w : World) :
  web_queries (asked q w) = q :: web_queries w
  /\ llm_requests (asked q w) = llm_requests w
  /\ map kind (stages (asked q w)) = map kind (stages w) ++ [(lit "Search", true)].
Proof.
  split; [reflexivity|]. split; [reflexivity|].
  unfold asked, record_enter, push_stage. cbn [log_web set_stages stages].
  now rewrite map_app.
Qed.

Lemma asked_again (q : str) (j : nat) (w : World) :
  let wj := Nat.iter j (asked q) w in
  web_queries wj = repeat q j ++ web_queries w
  /\ llm_requests wj = llm_requests w
  /\ map kind (stages wj) = map kind (stages w) ++ repeat (lit "Search", true) j.
Proof.
  induction j as [|j (Hq & Hl & Hs)]; cbn [Nat.iter nat_rect repeat].
  - now rewrite app_nil_r.
  - destruct (asked_once q (Nat.iter j (asked q) w)) as (Kq & Kl & Ks).
    split; [|split].
    + unfold Nat.iter in Kq, Hq. now rewrite Kq, Hq.
    + unfold Nat.iter in Kl, Hl. now rewrite Kl.
    + unfold Nat.iter in Ks, Hs. rewrite Ks, Hs, <- app_assoc. f_equal.
      now rewrite <- repeat_cons.
Qed.

(** [search(context, attempt)] enters once for every request it sends, and
    ends with references after a leave, or with an error without one. *)
Lemma search_from_outcome (f : frontend) (attempt : nat) (context : Context) (k : str)
  (w : World) :
  delegates context = delegates_of f -> keyphrases context = Some k ->
  exists j, 1 <= j <= Nat.max 1 attempt /\
    let wj := Nat.iter j (asked (clean_query k)) w in
    (exists refs,
       search_from attempt context w
       = (Ok (with_references context refs),
          record_leave (lit "Search") (SearchFields refs) wj)
       /\ numbered refs)
    \/ (exists r, search_from attempt context w = (r, wj) /\ ok_value r = None).
Proof.
  intros Hd Hk. revert w.
  assert (Hlast : forall w, exists j, 1 <= j <= 1 /\
            let wj := Nat.iter j (asked (clean_query k)) w in
            (exists refs,
               search_attempt None context w
               = (Ok (with_references context refs),
                  record_leave (lit "Search") (SearchFields refs) wj)
               /\ numbered refs)
            \/ (exists r, search_attempt None context w = (r, wj) /\ ok_value r = None)).
  { intros w. exists 1. split; [lia|]. cbn [Nat.iter nat_rect].
    destruct (search_attempt_outcome f None context w Hd Hk)
      as [H|[H|(retry & E & _)]]; [now left|now right|discriminate]. }
  induction attempt as [|a IH]; intros w; [exact (Hlast w)|].
  destruct a as [|n]; [exact (Hlast w)|].
  change (search_from (S (S n)) context)
    with (search_attempt (Some (search_from (S n) context)) context).
  destruct (search_attempt_outcome f (Some (search_from (S n) context)) context w Hd Hk)
    as [H|[H|(retry & E & H)]].
  - exists 1. split; [lia|]. now left.
  - exists 1. split; [lia|]. now right.
  - assert (E' : search_from (S n) context = retry) by congruence.
    rewrite H, <- E'.
    destruct (IH (asked (clean_query k) w)) as (j & Hj & Hw).
    exists (S j). split; [lia|]. cbv zeta. rewrite Nat.iter_succ_r. exact Hw.
Qed.

Lemma search_without_keyphrases (f : frontend) (attempt : nat) (context : Context)
  (w : World) :
  delegates context = delegates_of f -> keyphrases context = None ->
  search_from attempt context w = (Throw TypeError, record_enter (lit "Search") w).
Proof.
  intros Hd Hk.
  assert (H : forall again, search_attempt again context w
                            = (Throw TypeError, record_enter (lit "Search") w)).
  { intros again. unfold search_attempt. rewrite Hd, Hk, enter_search. reflexivity. }
  destruct attempt as [|[|n]]; apply H.
Qed.

(** *** [respond] *)

(** [respond] sends one request at most and leaves the search log alone;
    when it returns, it has entered and left once. *)
Lemma respond_world (f : frontend) (context : Context) (w : World) :
  delegates context = delegates_of f ->
  let run := respond context w in
  web_queries (snd run) = web_queries w
  /\ llm_calls w <= llm_calls (snd run) <= llm_calls w + 1
  /\ (forall c, fst run = Ok c ->
        llm_calls (snd run) = llm_calls w + 1
        /\ map kind (stages (snd run))
           = map kind (stages w) ++ [(lit "Respond", true); (lit "Respond", false)]).
Proof.
  intros Hd. cbv zeta.
  pattern (respond context w).
  match goal with |- ?Q _ => set (P := Q) end.
  unfold respond. rewrite Hd, enter_of.
  unfold bind at 1. unfold effect at 1. unfold bind at 1.
  set (w1 := record_enter (lit "Respond") w).
  assert (Hw1 : web_queries w1 = web_queries w /\ llm_requests w1 = llm_requests w
                /\ map kind (stages w1) = map kind (stages w) ++ [(lit "Respond", true)]).
  { split; [reflexivity|]. split; [reflexivity|].
    unfold w1, record_enter, push_stage. cbn [set_stages stages]. now rewrite map_app. }
  destruct Hw1 as (Hq1 & Hl1 & Hs1).
  set (messages := match references context with
                   | Some (r :: rs) => _
                   | _ => _
                   end).
  assert (Hm : (exists ms, messages w1 = (Ok ms, w1)) \/ messages w1 = (Beyond, w1)).
  { subst messages. destruct (references context) as [[|r rs]|];
      try (left; now eexists).
    destruct (reference_lines (r :: rs)); [left; now eexists|now right]. }
  destruct Hm as [(ms & ->)| ->].
  2:{ subst P. cbv beta iota. cbn [fst snd]. unfold llm_calls. rewrite Hl1.
      split; [assumption|]. split; [lia|]. intros c Hc. discriminate Hc. }
  unfold bind at 1.
  destruct (chat_world f ms w1) as (Hs & Hq & req & Hr & _).
  destruct (chat ms (stream (delegates_of f)) w1) as [[text|e|] w2]; cbn [snd] in *.
  - rewrite leave_of. unfold bind, effect, ret. subst P. cbv beta iota. cbn [fst snd].
    unfold llm_calls.
    change (web_queries (record_leave ?n ?x w2)) with (web_queries w2).
    change (llm_requests (record_leave ?n ?x w2)) with (llm_requests w2).
    rewrite Hq, Hr, Hl1. cbn [length]. split; [assumption|].
    split; [lia|]. intros c _. split; [lia|].
    unfold record_leave, push_stage. cbn [set_stages stages].
    rewrite map_app, Hs, Hs1, <- app_assoc. reflexivity.
  - subst P. cbv beta iota. cbn [fst snd]. unfold llm_calls. rewrite Hq, Hr, Hl1.
    cbn [length]. split; [assumption|]. split; [lia|]. intros c Hc. discriminate Hc.
  - subst P. cbv beta iota. cbn [fst snd]. unfold llm_calls. rewrite Hq, Hr, Hl1.
    cbn [length]. split; [assumption|]. split; [lia|]. intros c Hc. discriminate Hc.
Qed.

(** *** What each stage does to the logs, however it ends *)

Lemma reason_calls (f : frontend) (context : Context) (w : World) :
  delegates context = delegates_of f ->
  let w' := snd (reason context w) in
  web_queries w' = web_queries w
  /\ llm_calls w + 1 <= llm_calls w' <= llm_calls w + 2.
Proof.
  intros Hd. cbv zeta.
  destruct (reason_outcome f context w Hd)
    as [(r & -> & _)|[(result & ->)|(t & [(r & -> & _)|(result & ->)])]];
    cbn [snd]; (split; [reflexivity|]); unfold llm_calls; simpl; lia.
Qed.

Lemma reason_returns (f : frontend) (context c1 : Context) (w w1 : World) :
  delegates context = delegates_of f -> reason context w = (Ok c1, w1) ->
  delegates c1 = delegates_of f
  /\ web_queries w1 = web_queries w
  /\ map kind (stages w1)
     = map kind (stages w) ++ [(lit "Reason", true); (lit "Reason", false)].
Proof.
  intros Hd H.
  assert (Hs : forall result reqs,
             map kind (stages (record_leave (lit "Reason") (reason_fields result)
                                 (fold_right log_llm (record_enter (lit "Reason") w) reqs)))
             = map kind (stages w) ++ [(lit "Reason", true); (lit "Reason", false)]).
  { intros result reqs.
    assert (E : stages (fold_right log_llm (record_enter (lit "Reason") w) reqs)
                = stages w ++ [{| name := lit "Reason";
                                  timestamp := clock w (clock_reads w);
                                  extra := NoFields; duration := None |}])
      by (induction reqs as [|r reqs IH]; [reflexivity|exact IH]).
    unfold record_leave, push_stage. cbn [set_stages stages tick].
    rewrite E, !map_app, <- app_assoc. reflexivity. }
  destruct (reason_outcome f context w Hd)
    as [(r & E & Hr)|[(result & E)|(t & [(r & E & Hr)|(result & E)])]];
    rewrite E in H.
  - injection H as -> _. discriminate Hr.
  - injection H as <- <-. split; [exact Hd|]. split; [reflexivity|].
    apply (Hs result [_]).
  - injection H as -> _. discriminate Hr.
  - injection H as <- <-. split; [exact Hd|]. split; [reflexivity|].
    apply (Hs result [_; _]).
Qed.

Lemma search_calls (f : frontend) (context : Context) (w : World) :
  delegates context = delegates_of f ->
  let w' := snd (search context w) in
  llm_calls w' = llm_calls w /\ web_calls w <= web_calls w' <= web_calls w + 3.
Proof.
  intros Hd. cbv zeta. unfold search, llm_calls, web_calls.
  destruct (keyphrases context) as [k|] eqn:Hk.
  - destruct (search_from_outcome f 3 context w Hd Hk)
      as (j & Hj & [(refs & -> & _)|(r & -> & _)]);
      destruct (asked_again (clean_query k) j w) as (Hq & Hl & _); cbn [snd].
    + change (llm_requests (record_leave ?n ?x ?y)) with (llm_requests y).
      change (web_queries (record_leave ?n ?x ?y)) with (web_queries y).
      rewrite Hq, Hl, length_app, repeat_length. simpl in Hj. lia.
    + rewrite Hq, Hl, length_app, repeat_length. simpl in Hj. lia.
  - rewrite (search_without_keyphrases f 3 context w Hd Hk). simpl. lia.
Qed.

End StageFacts.

(** ** The retry policy of [search], at work *)

Module RetryPolicy.

Import Spec.
Import Display Pipeline PipelineFacts SearchFacts.
Import Terms.

Lemma search_three_failures_witness :
  fst (search (tea_context TestRunner) failing_world) = Throw (SearchFailed 503)
  /\ web_queries (snd (search (tea_context TestRunner) failing_world))
     = [lit "green tea"; lit "green tea"; lit "green tea"].
Proof.
  assert (Hj : JSON_parse (dq "{'error':'failed'}")
               = Some (JObj [(lit "error", JStr (lit "failed"))]))
    by (vm_compute; reflexivity).
  exact (@search_three_failures TestRunner (tea_context TestRunner) (lit "green tea.")
           failing_world (web_error 500) (web_error 502) (web_error 503) _ _ _
           eq_refl eq_refl eq_refl eq_refl eq_refl eq_refl eq_refl eq_refl Hj Hj Hj).
Defined.


End RetryPolicy.

(** ** The pipeline: the calls it makes and the log it keeps *)

Module PipelineShape.

Import Spec StringFacts.
Import Display Pipeline PipelineFacts SearchFacts StageFacts.
Import Terms.

(** X10.  [reason] asks the chat endpoint once or twice, never with
    streaming, each time with the system prompt, two messages for each of
    the last three turns of the history at most, the inquiry and its hint;
    it sends nothing to the search endpoint. *)
Theorem reason_requests (f : frontend) (context : Context) (w : World) :
  delegates context = delegates_of f ->
  let w' := snd (reason context w) in
  web_queries w' = web_queries w
  /\ exists reqs,
       llm_requests w' = reqs ++ llm_requests w
       /\ (length reqs = 1 \/ length reqs = 2)
       /\ Forall (fun r => req_stream r = false
                           /\ length (req_messages r)
                              = 3 + 2 * Nat.min 3 (length (history context))) reqs.
Proof.
  intros Hd.
  assert (Hlen : forall hint,
             length (hinted context hint)
             = 3 + 2 * Nat.min 3 (length (history context))).
  { intros hint. unfold hinted, reason_messages. rewrite !length_app. cbn [length].
    assert (H : forall l, length (history_messages l) = 2 * length l).
    { induction l as [|e l IH]; [reflexivity|].
      unfold history_messages in *. cbn [flat_map]. rewrite length_app, IH.
      simpl. lia. }
    rewrite H. unfold last_three. rewrite length_skipn. lia. }
  assert (Hreq : forall hint,
             req_stream (unstreamed (hinted context hint)) = false
             /\ length (req_messages (unstreamed (hinted context hint)))
                = 3 + 2 * Nat.min 3 (length (history context)))
    by (intros hint; split; [reflexivity|apply Hlen]).
  cbv zeta.
  destruct (reason_outcome f context w Hd)
    as [(r & -> & _)|[(result & ->)|(t & [(r & -> & _)|(result & ->)])]];
    cbn [snd]; (split; [reflexivity|]).
  - eexists [_]. split; [reflexivity|]. split; [now left|]. repeat constructor; apply Hlen.
  - eexists [_]. split; [reflexivity|]. split; [now left|]. repeat constructor; apply Hlen.
  - eexists [_; _]. split; [reflexivity|]. split; [now right|].
    repeat constructor; apply Hlen.
  - eexists [_; _]. split; [reflexivity|]. split; [now right|].
    repeat constructor; apply Hlen.
Qed.

Lemma reason_requests_witness :
  let w := fresh true (script [plain_reply []; reasoned]) (script []) steady_clock in
  length (llm_requests (snd (reason (new_context tea [] test_delegates) w))) = 2
  /\ web_queries (snd (reason (new_context tea [] test_delegates) w)) = [].
Proof.
  intros w. split; [vm_compute; reflexivity|].
  exact (proj1 (@reason_requests TestRunner (new_context tea [] test_delegates) w eq_refl)).
Defined.

(** X11.  When [search] returns, the context holds references numbered from
    one, three at most, and the last event of the stage log is the leave of
    [Search] with these very references. *)
Theorem search_references (f : frontend) (context c : Context) (w w' : World) :
  delegates context = delegates_of f -> search context w = (Ok c, w') ->
  exists refs,
    c = with_references context refs
    /\ length refs <= 3 /\ map position refs = seq 1 (length refs)
    /\ exists before ev,
         stages w' = before ++ [ev] /\ name ev = lit "Search"
         /\ extra ev = SearchFields refs.
Proof.
  intros Hd H. unfold search in H.
  destruct (keyphrases context) as [k|] eqn:Hk.
  - destruct (search_from_outcome f 3 context w Hd Hk)
      as (j & _ & [(refs & E & Hn & Hp)|(r & E & Hr)]); rewrite E in H.
    + injection H as <- <-. exists refs. split; [reflexivity|].
      split; [exact Hn|]. split; [exact Hp|].
      eexists. eexists. split; [reflexivity|]. now split.
    + injection H as -> _. discriminate Hr.
  - rewrite (search_without_keyphrases f 3 context w Hd Hk) in H. discriminate H.
Qed.

Lemma search_references_witness :
  exists c refs,
    fst (search (tea_context TestRunner) retry_world) = Ok c
    /\ references c = Some refs /\ map position refs = seq 1 (length refs).
Proof.
  set (run := search (tea_context TestRunner) retry_world).
  set (c := match fst run with Ok c => c | _ => tea_context TestRunner end).
  assert (E : search (tea_context TestRunner) retry_world = (Ok c, snd run))
    by (vm_compute; reflexivity).
  destruct (@search_references TestRunner (tea_context TestRunner) c retry_world (snd run)
              eq_refl E) as (refs & Hc & _ & Hp & _).
  exists c, refs. split; [unfold run; now rewrite E|].
  split; [now rewrite Hc|exact Hp].
Defined.

(** X12.  [search] enters once for every request it sends, three at most,
    and leaves once, at the end, if it returns: the events it adds to the
    stage log are as many enters of [Search] as requests were sent,
    followed by one leave when it returns and by nothing when it throws. *)
Theorem search_enters_per_request (f : frontend) (context : Context) (k : str)
  (w : World) :
  delegates context = delegates_of f -> keyphrases context = Some k ->
  let run := search context w in
  exists j,
    1 <= j <= 3
    /\ web_queries (snd run) = repeat (clean_query k) j ++ web_queries w
    /\ map kind (stages (snd run))
       = map kind (stages w) ++ repeat (lit "Search", true) j
           ++ match fst run with
              | Ok _ => [(lit "Search", false)]
              | _ => []
              end.
Proof.
  intros Hd Hk. cbv zeta. unfold search.
  destruct (search_from_outcome f 3 context w Hd Hk)
    as (j & Hj & [(refs & -> & _)|(r & -> & Hr)]);
    destruct (asked_again (clean_query k) j w) as (Hq & _ & Hs);
    exists j; (split; [exact Hj|]); cbn [fst snd].
  - split; [exact Hq|].
    unfold record_leave, push_stage. cbn [set_stages stages].
    now rewrite map_app, Hs, <- app_assoc.
  - split; [exact Hq|]. rewrite Hs.
    destruct r; [discriminate Hr| |]; now rewrite app_nil_r.
Qed.

Lemma search_enters_per_request_witness :
  let run := search (tea_context Terminal) retry_world in
  exists j,
    1 <= j <= 3
    /\ web_queries (snd run) = repeat (lit "green tea") j ++ []
    /\ map kind (stages (snd run))
       = [] ++ repeat (lit "Search", true) j ++ [(lit "Search", false)].
Proof.
  exact (@search_enters_per_request Terminal (tea_context Terminal) (lit "green tea.")
           retry_world eq_refl eq_refl).
Defined.

(** X13.  The stage log of a run of the pipeline that returns: the enter
    and the leave of [Reason], one enter of [Search] for every request sent
    to the search endpoint, one leave of [Search], the enter and the leave
    of [Respond].  So the log has five events more than requests were sent,
    and is made of pairs only when there was one request. *)
Theorem pipeline_stage_log (f : frontend) (context c : Context) (w w' : World) :
  delegates context = delegates_of f -> pipeline context w = (Ok c, w') ->
  exists j,
    1 <= j <= 3
    /\ web_calls w' = web_calls w + j
    /\ map kind (stages w')
       = map kind (stages w)
           ++ [(lit "Reason", true); (lit "Reason", false)]
           ++ repeat (lit "Search", true) j
           ++ [(lit "Search", false); (lit "Respond", true); (lit "Respond", false)].
Proof.
  intros Hd H. apply pipeline_ok in H as (c1 & w1 & c2 & w2 & Hr & Hs & Hp).
  destruct (reason_returns f context w Hd Hr) as (Hd1 & Hq1 & Hs1).
  unfold search in Hs.
  destruct (keyphrases c1) as [k|] eqn:Hk.
  2:{ rewrite (search_without_keyphrases f 3 c1 w1 Hd1 Hk) in Hs. discriminate Hs. }
  destruct (search_from_outcome f 3 c1 w1 Hd1 Hk)
    as (j & Hj & [(refs & E & _)|(r & E & Hx)]); rewrite E in Hs.
  2:{ injection Hs as -> _. discriminate Hx. }
  injection Hs as <- <-.
  destruct (asked_again (clean_query k) j w1) as (Hq & _ & Hst).
  destruct (respond_world f (with_references c1 refs)
              (record_leave (lit "Search") (SearchFields refs)
                 (Nat.iter j (asked (clean_query k)) w1)) Hd1) as (Hq2 & _ & Hs2).
  rewrite Hp in Hq2, Hs2. cbn [fst snd] in Hq2, Hs2.
  destruct (Hs2 c eq_refl) as (_ & Hs3).
  exists j. split; [exact Hj|]. split.
  - unfold web_calls. rewrite Hq2.
    change (web_queries (record_leave ?n ?x ?y)) with (web_queries y).
    rewrite Hq, Hq1, length_app, repeat_length. lia.
  - rewrite Hs3. unfold record_leave, push_stage. cbn [set_stages stages tick].
    rewrite map_app, Hst, Hs1, <- !app_assoc. reflexivity.
Qed.

Lemma pipeline_stage_log_witness :
  let run := pipeline (new_context tea [] terminal_delegates) retry_world in
  exists j,
    1 <= j <= 3
    /\ web_calls (snd run) = 0 + j
    /\ map kind (stages (snd run))
       = [] ++ [(lit "Reason", true); (lit "Reason", false)]
           ++ repeat (lit "Search", true) j
           ++ [(lit "Search", false); (lit "Respond", true); (lit "Respond", false)].
Proof.
  intros run.
  set (c := match fst run with Ok c => c | _ => new_context tea [] terminal_delegates end).
  assert (E : pipeline (new_context tea [] terminal_delegates) retry_world = (Ok c, snd run))
    by (vm_compute; reflexivity).
  exact (@pipeline_stage_log Terminal (new_context tea [] terminal_delegates) c retry_world
           (snd run) eq_refl E).
Defined.

(** X14.  However it ends, a run of the pipeline sends the chat endpoint
    one request at least and three at most, and the search endpoint three
    requests at most. *)
Theorem pipeline_budget (f : frontend) (context : Context) (w : World) :
  delegates context = delegates_of f ->
  let w' := snd (pipeline context w) in
  llm_calls w + 1 <= llm_calls w' <= llm_calls w + 3
  /\ web_calls w <= web_calls w' <= web_calls w + 3.
Proof.
  intros Hd. cbv zeta.
  destruct (reason_calls f context w Hd) as (Hq1 & Hl1).
  unfold pipeline, bind.
  destruct (reason context w) as [[c1|e|] w1] eqn:Hr; cbn [snd] in *;
    try (unfold web_calls; rewrite Hq1; lia).
  destruct (reason_returns f context w Hd Hr) as (Hd1 & _ & _).
  destruct (search_calls f c1 w1 Hd1) as (Hl2 & Hq2).
  destruct (search c1 w1) as [[c2|e|] w2] eqn:Hs; cbn [snd] in *;
    try (unfold web_calls in *; rewrite Hq1 in *; lia).
  assert (Hd2 : delegates c2 = delegates_of f).
  { apply search_from_result in Hs as (refs & ->). exact Hd1. }
  destruct (respond_world f c2 w2 Hd2) as (Hq3 & Hl3 & _).
  destruct (respond c2 w2) as [r w3]. cbn [snd] in *.
  unfold web_calls in *. rewrite Hq3. rewrite Hq1 in *. lia.
Qed.

Lemma pipeline_budget_witness :
  let w' := snd (pipeline (new_context tea [] test_delegates) retry_world) in
  0 + 1 <= llm_calls w' <= 0 + 3 /\ 0 <= web_calls w' <= 0 + 3.
Proof.
  exact (@pipeline_budget TestRunner (new_context tea [] test_delegates) retry_world
           eq_refl).
Defined.

End PipelineShape.

(** ** [simplify] *)

Module SimplifyFacts.

Import Spec.
Import Display Pipeline.
Import Terms.

Lemma isOdd_double (n : nat) : isOdd (2 * n) = false /\ isOdd (S (2 * n)) = true.
Proof.
  unfold isOdd. split.
  - rewrite Nat.mul_comm, Nat.Div0.mod_mul. reflexivity.
  - replace (S (2 * n)) with (1 + n * 2) by lia. rewrite Nat.Div0.mod_add. reflexivity.
Qed.

(** The pairs of a log are collapsed one by one, whatever stands before
    them, and a single event left over at the end is dropped. *)
Lemma simplify_from (ps : list (StageEvent * StageEvent)) (tail pre : list StageEvent)
  (n : nat) :
  length pre = 2 * n -> length tail <= 1 ->
  filter_index isOdd (length pre)
    (map_index (with_duration (pre ++ interleave ps ++ tail)) (length pre)
       (interleave ps ++ tail))
  = map collapse ps.
Proof.
  revert pre n; induction ps as [|[a b] ps IH]; intros pre n Hn Ht.
  - destruct tail as [|x [|y tail]]; [reflexivity| |simpl in Ht; lia].
    cbn [interleave app map_index filter_index map].
    rewrite Hn. now rewrite (proj1 (isOdd_double n)).
  - cbn [interleave app map_index filter_index map].
    rewrite Hn at 1. rewrite (proj1 (isOdd_double n)).
    rewrite Hn at 1. rewrite (proj2 (isOdd_double n)).
    f_equal.
    + unfold with_duration. rewrite Hn at 1. rewrite (proj2 (isOdd_double n)).
      replace (S (length pre) - 1) with (length pre + 0) by lia.
      rewrite nth_error_app2 by lia.
      replace (length pre + 0 - length pre) with 0 by lia. reflexivity.
    + specialize (IH (pre ++ [a; b]) (S n)).
      rewrite length_app in IH. cbn [length] in IH.
      replace (length pre + 2) with (S (S (length pre))) in IH by lia.
      rewrite <- app_assoc in IH. apply IH; lia.
Qed.

(** X15.  On a log made of pairs, [simplify] gives one entry for each pair:
    the second event of the pair, with the time between the two as its
    duration.  An event left over at the end of the log is dropped. *)
Theorem simplify_pairs (ps : list (StageEvent * StageEvent)) :
  simplify (interleave ps) = map collapse ps
  /\ forall x, simplify (interleave ps ++ [x]) = map collapse ps.
Proof.
  unfold simplify. split.
  - pose proof (@simplify_from ps [] [] 0 eq_refl (Nat.le_0_l 1)) as H.
    now rewrite !app_nil_r in H.
  - intros x. exact (@simplify_from ps [x] [] 0 eq_refl (Nat.le_refl 1)).
Qed.

End SimplifyFacts.

(** ** [regexify] *)

Module RegexifyFacts.

Import Spec StringFacts.
Import Regex.
Import Terms.

Lemma skipn_exact {A} (a b : list A) : skipn (length a) (a ++ b) = b.
Proof. induction a; [reflexivity|assumption]. Qed.

Lemma filler_from_stop (f rest : str) (i : nat) :
  ~ In SLASH f -> filler_from (f ++ SLASH :: rest) i = i + length f.
Proof.
  revert i; induction f as [|c f IH]; intros i Hf; simpl.
  - lia.
  - destruct (N.eqb_spec c SLASH) as [->|_]; [exfalso; apply Hf; now left|].
    rewrite IH by (intros H; apply Hf; now right). lia.
Qed.

Lemma filler_from_end (f : str) (i : nat) :
  ~ In SLASH f -> filler_from f i = i + length f.
Proof.
  revert i; induction f as [|c f IH]; intros i Hf; simpl.
  - lia.
  - destruct (N.eqb_spec c SLASH) as [->|_]; [exfalso; apply Hf; now left|].
    rewrite IH by (intros H; apply Hf; now right). lia.
Qed.

Lemma filler_from_least (s : str) (i : nat) : i <= filler_from s i <= i + length s.
Proof.
  revert i; induction s as [|c s IH]; intros i; simpl; [lia|].
  destruct (N.eqb c SLASH); [lia|]. specialize (IH (S i)). lia.
Qed.

Lemma pattern_from_close (p rest : str) (prev : char) (i : nat) :
  escaped prev p -> pattern_from prev (p ++ SLASH :: rest) i = i + length p.
Proof.
  revert prev i; induction p as [|c p IH]; intros prev i H;
    cbn [app pattern_from length escaped] in *.
  - change (N.eqb SLASH SLASH) with true.
    destruct (N.eqb_spec prev BACKSLASH); [contradiction|]. cbn [andb negb]. lia.
  - destruct H as [Hc Hp].
    destruct (N.eqb_spec c SLASH) as [E|_]; cbn [andb].
    + rewrite (Hc E), N.eqb_refl. cbn [negb]. rewrite IH by assumption. lia.
    + rewrite IH by assumption. lia.
Qed.

Lemma pattern_from_end (q : str) (prev : char) (i : nat) :
  ~ In SLASH q -> pattern_from prev q i = i + length q.
Proof.
  revert prev i; induction q as [|c q IH]; intros prev i Hq; simpl.
  - lia.
  - destruct (N.eqb_spec c SLASH) as [->|_]; [exfalso; apply Hq; now left|].
    cbn [andb]. rewrite IH by (intros H; apply Hq; now right). lia.
Qed.

Lemma pattern_from_least (s : str) (prev : char) (i : nat) :
  i <= pattern_from prev s i.
Proof.
  revert prev i; induction s as [|c s IH]; intros prev i; simpl; [lia|].
  destruct (N.eqb c SLASH && negb (N.eqb prev BACKSLASH)); [lia|].
  specialize (IH c (S i)). lia.
Qed.

Lemma filler_stop (pre f rest : str) :
  ~ In SLASH f -> filler (pre ++ f ++ SLASH :: rest) (length pre) = length pre + length f.
Proof. intros H. unfold filler. rewrite skipn_exact. now apply filler_from_stop. Qed.

Lemma filler_end (pre f : str) :
  ~ In SLASH f -> filler (pre ++ f) (length pre) = length pre + length f.
Proof. intros H. unfold filler. rewrite skipn_exact. now apply filler_from_end. Qed.

Lemma pattern_close (pre p rest : str) :
  enclosed p ->
  pattern (pre ++ SLASH :: p ++ SLASH :: rest) (length pre) = length pre + 1 + length p.
Proof.
  intros H. unfold pattern. rewrite skipn_exact. change (N.eqb SLASH SLASH) with true.
  cbv iota. rewrite pattern_from_close by exact H. lia.
Qed.

Lemma pattern_open (pre q : str) :
  ~ In SLASH q -> pattern (pre ++ SLASH :: q) (length pre) = length pre + 1 + length q.
Proof.
  intros H. unfold pattern. rewrite skipn_exact. change (N.eqb SLASH SLASH) with true.
  cbv iota. rewrite pattern_from_end by exact H. lia.
Qed.

Lemma pattern_at_end (text : str) : pattern text (length text) = length text.
Proof. unfold pattern. now rewrite skipn_all. Qed.

Lemma pattern_least (text : str) (index : nat) : index <= pattern text index.
Proof.
  unfold pattern. destruct (skipn index text) as [|c rest]; [lia|].
  destruct (N.eqb c SLASH); [|lia].
  pose proof (pattern_from_least rest c (S index)). lia.
Qed.

Lemma filler_least (text : str) (index : nat) : index <= filler text index.
Proof. unfold filler. apply filler_from_least. Qed.

Lemma between (pre p rest : str) :
  substring (length pre + 1) (length pre + 1 + length p) (pre ++ SLASH :: p ++ rest) = p.
Proof.
  unfold substring. rewrite Nat.max_r, Nat.min_l by lia.
  replace (length pre + 1 + length p - (length pre + 1)) with (length p) by lia.
  replace (pre ++ SLASH :: p ++ rest) with ((pre ++ [SLASH]) ++ p ++ rest)
    by now rewrite <- app_assoc.
  replace (length pre + 1) with (length (pre ++ [SLASH]))
    by (rewrite length_app; reflexivity).
  rewrite skipn_exact. rewrite firstn_app, Nat.sub_diag, firstn_all. simpl.
  apply app_nil_r.
Qed.

(** The loop, standing behind the patterns it has taken so far. *)
Lemma loop_items (accepted : str -> bool) (items : list (str * str)) (tail : str) :
  Forall well_slashed items -> unclosed tail ->
  forall (pre f : str) (acc : list str) (fuel : nat),
    ~ In SLASH f -> length items < fuel ->
    regexify_loop accepted fuel (pre ++ f ++ slashed items ++ tail) (length pre) acc
    = Some (if forallb accepted (map fst items) then Ok (acc ++ map fst items)
            else Throw SyntaxError).
Proof.
  intros Hitems Htail. induction Hitems as [|[p f1] items [Hp Hf1] _ IH];
    intros pre f acc fuel Hf Hfuel.
  - cbn [slashed app map forallb]. rewrite app_nil_r.
    destruct fuel as [|fuel]; [lia|]. cbn [regexify_loop].
    destruct (length pre <? length (pre ++ f ++ tail)); [|reflexivity].
    destruct Htail as [->|(q & -> & Hq)].
    + rewrite app_nil_r, filler_end by exact Hf.
      replace (length pre + length f) with (length (pre ++ f))
        by now rewrite length_app.
      rewrite pattern_at_end, Nat.ltb_irrefl. reflexivity.
    + rewrite filler_stop by exact Hf.
      replace (pre ++ f ++ SLASH :: q) with ((pre ++ f) ++ SLASH :: q)
        by now rewrite <- app_assoc.
      replace (length pre + length f) with (length (pre ++ f))
        by now rewrite length_app.
      rewrite pattern_open by exact Hq.
      replace (length (pre ++ f) + 1 + length q) with (length ((pre ++ f) ++ SLASH :: q))
        by (rewrite !length_app; simpl; lia).
      rewrite Nat.ltb_irrefl, andb_false_r. reflexivity.
  - cbn [slashed map fst forallb]. destruct fuel as [|fuel]; [simpl in Hfuel; lia|].
    cbn [regexify_loop].
    set (text := pre ++ f ++ (SLASH :: p ++ SLASH :: f1 ++ slashed items) ++ tail).
    assert (Htext : text = (pre ++ f) ++ SLASH :: p ++ SLASH :: f1 ++ slashed items ++ tail).
    { unfold text. repeat (progress (rewrite <- ?app_assoc; cbn [app])). reflexivity. }
    assert (Hlen : length text
                   = length pre + length f + 1 + length p + 1
                     + length (f1 ++ slashed items ++ tail)).
    { rewrite Htext, !length_app. cbn [length]. rewrite !length_app. cbn [length].
      rewrite !length_app. lia. }
    assert (Hfill : filler text (length pre) = length (pre ++ f)).
    { unfold text. cbn [app]. rewrite filler_stop by exact Hf. now rewrite length_app. }
    assert (Hpat : pattern text (length (pre ++ f)) = length (pre ++ f) + 1 + length p).
    { rewrite Htext. now apply pattern_close. }
    rewrite Hfill, Hpat.
    replace (length pre <? length text) with true
      by (symmetry; apply Nat.ltb_lt; lia).
    replace (length (pre ++ f) <? length (pre ++ f) + 1 + length p) with true
      by (symmetry; apply Nat.ltb_lt; lia).
    replace (length (pre ++ f) + 1 + length p <? length text) with true
      by (symmetry; apply Nat.ltb_lt; rewrite length_app; lia).
    cbn [andb].
    assert (Hsub : substring (length (pre ++ f) + 1) (length (pre ++ f) + 1 + length p) text
                   = p) by (rewrite Htext; apply between).
    rewrite Hsub.
    destruct (accepted p); cbn [andb]; [|reflexivity].
    set (pre' := (pre ++ f) ++ SLASH :: p ++ [SLASH]).
    assert (Hnext : length (pre ++ f) + 1 + length p + 1 = length pre').
    { unfold pre'. rewrite !length_app. cbn [length]. rewrite length_app. simpl. lia. }
    assert (Htext' : text = pre' ++ f1 ++ slashed items ++ tail).
    { rewrite Htext. unfold pre'.
      repeat (progress (rewrite <- ?app_assoc; cbn [app])). reflexivity. }
    rewrite Hnext, Htext'.
    rewrite IH by (assumption || (simpl in Hfuel; lia)).
    now rewrite <- app_assoc.
Qed.

Lemma slashed_length (items : list (str * str)) : 2 * length items <= length (slashed items).
Proof.
  induction items as [|[p f] items IH]; [simpl; lia|].
  cbn [slashed length]. rewrite length_app. cbn [length]. rewrite length_app. lia.
Qed.

(** X16.  An expectation that holds patterns between slashes: [regexify]
    makes a regular expression of each pattern, in their order, and passes
    over what stands between them and around them; it returns them when the
    engine takes every pattern, and throws a [SyntaxError] when the engine
    refuses one.  Inside a pattern a slash counts only with a backslash
    before it, and a slash that is never closed is passed over together
    with what follows it. *)
Theorem regexify_slashed (accepted : str -> bool) (before tail : str)
  (items : list (str * str)) :
  ~ In SLASH before -> Forall well_slashed items -> items <> [] -> unclosed tail ->
  regexify accepted (before ++ slashed items ++ tail)
  = Some (compiled accepted (map fst items)).
Proof.
  intros Hb Hitems Hne Htail. unfold regexify, compiled.
  pose proof (@loop_items accepted items tail Hitems Htail [] before []
                (length (before ++ slashed items ++ tail)) Hb) as H.
  cbn [app length] in H. rewrite H.
  - destruct (forallb accepted (map fst items)); [|reflexivity].
    destruct items; [contradiction|reflexivity].
  - rewrite !length_app. pose proof (slashed_length items).
    destruct items; [contradiction|]. simpl in *. lia.
Qed.

Lemma regexify_slashed_witness :
  regexify balanced (lit "contains /green tea/ and /1\/2 cup/ or /more")
  = Some (Ok [lit "green tea"; lit "1\/2 cup"])
  /\ regexify balanced (lit "say /(/") = Some (Throw SyntaxError).
Proof.
  split.
  - apply (@regexify_slashed balanced (lit "contains ") (lit "/more")
             [(lit "green tea", lit " and "); (lit "1\/2 cup", lit " or ")]).
    + vm_compute. intuition discriminate.
    + repeat constructor; vm_compute; intuition discriminate.
    + discriminate.
    + right. exists (lit "more"). split; [reflexivity|]. vm_compute. intuition discriminate.
  - apply (@regexify_slashed balanced (lit "say ") [] [(lit "(", [])]).
    + vm_compute. intuition discriminate.
    + repeat constructor; vm_compute; intuition discriminate.
    + discriminate.
    + now left.
Defined.

(** X17.  An expectation without a slash is taken as one pattern, the whole
    of it; so is one whose only slash is never closed.  [regexify] returns
    the one regular expression when the engine takes the text, and throws a
    [SyntaxError] when it refuses it. *)
Theorem regexify_plain (accepted : str -> bool) (m : str) :
  unclosed m \/ ~ In SLASH m ->
  regexify accepted m = Some (compiled accepted [m]).
Proof.
  intros H. unfold regexify, compiled. cbn [forallb]. rewrite andb_true_r.
  assert (E : regexify_loop accepted (length m) m 0 [] = Some (Ok [])).
  { destruct H as [[->|(q & -> & Hq)]|Hm].
    - reflexivity.
    - apply (@loop_items accepted [] (SLASH :: q) (Forall_nil _)
               (or_intror (ex_intro _ q (conj eq_refl Hq))) [] [] []); [tauto|simpl; lia].
    - destruct m as [|c m]; [reflexivity|].
      pose proof (@loop_items accepted [] [] (Forall_nil _) (or_introl eq_refl) []
                    (c :: m) [] (length (c :: m)) Hm) as E.
      cbn [slashed app map forallb] in E. rewrite app_nil_r in E. apply E. simpl. lia. }
  rewrite E. now destruct (accepted m).
Qed.

Lemma regexify_plain_witness :
  regexify balanced (lit "green tea") = Some (Ok [lit "green tea"])
  /\ regexify balanced (lit "/green tea") = Some (Ok [lit "/green tea"])
  /\ regexify balanced (lit "C++ (") = Some (Throw SyntaxError).
Proof.
  split; [|split].
  - apply (@regexify_plain balanced). right. vm_compute. intuition discriminate.
  - apply (@regexify_plain balanced). left. right. exists (lit "green tea").
    split; [reflexivity|]. vm_compute. intuition discriminate.
  - apply (@regexify_plain balanced). right. vm_compute. intuition discriminate.
Defined.

(** The loop comes to an end within the fuel it is given. *)
Lemma loop_ends (accepted : str -> bool) (m : str) (fuel pos : nat) (acc : list str) :
  length m - pos <= fuel -> regexify_loop accepted fuel m pos acc <> None.
Proof.
  revert pos acc; induction fuel as [|fuel IH]; intros pos acc H; cbn [regexify_loop].
  - destruct (Nat.ltb_spec pos (length m)); [lia|discriminate].
  - destruct (Nat.ltb_spec pos (length m)); [|discriminate].
    destruct (andb _ _); [|discriminate].
    destruct (accepted _); [|discriminate].
    apply IH. pose proof (filler_least m pos).
    pose proof (pattern_least m (filler m pos)). lia.
Qed.

(** For every expectation, the loop of [regexify] comes to an end: the call
    throws a [SyntaxError] or returns at least one regular expression. *)
Lemma regexify_returns (accepted : str -> bool) (m : str) :
  regexify accepted m = Some (Throw SyntaxError)
  \/ exists first rest, regexify accepted m = Some (Ok (first :: rest)).
Proof.
  unfold regexify.
  pose proof (@loop_ends accepted m (length m) 0 []) as H.
  assert (Hthrow : forall fuel pos acc e,
             regexify_loop accepted fuel m pos acc = Some (Throw e) -> e = SyntaxError).
  { induction fuel as [|fuel IH]; intros pos acc e; cbn [regexify_loop].
    - destruct (pos <? length m); discriminate.
    - destruct (pos <? length m); [|discriminate].
      destruct (andb _ _); [|discriminate].
      destruct (accepted _); [apply IH|now intros [= <-]]. }
  assert (Hbeyond : forall fuel pos acc,
             regexify_loop accepted fuel m pos acc <> Some Beyond).
  { induction fuel as [|fuel IH]; intros pos acc; cbn [regexify_loop].
    - destruct (pos <? length m); discriminate.
    - destruct (pos <? length m); [|discriminate].
      destruct (andb _ _); [|discriminate].
      destruct (accepted _); [apply IH|discriminate]. }
  destruct (regexify_loop accepted (length m) m 0 []) as [[[|x l]|e|]|] eqn:E.
  - destruct (accepted m); [right; now exists m, []|now left].
  - right. now exists x, l.
  - left. now rewrite (Hthrow _ _ _ _ E).
  - exfalso. now apply (Hbeyond _ _ _ E).
  - exfalso. apply H; [lia|reflexivity].
Qed.

End RegexifyFacts.

(** ** [highlight] *)

Module HighlightFacts.

Import Spec StringFacts CodecFacts.
Import Display Regex.
Import Terms.

Lemma firstn_plus {A} (a b : nat) (l : list A) :
  firstn (a + b) l = firstn a l ++ firstn b (skipn a l).
Proof.
  revert l; induction a as [|a IH]; intros l; [reflexivity|].
  destruct l as [|x l]; [simpl; now rewrite firstn_nil|]. simpl. now rewrite IH.
Qed.

Lemma substring_from_zero (i : nat) (s : str) : substring 0 i s = firstn i s.
Proof. unfold substring. now rewrite Nat.max_0_l, Nat.min_0_l, Nat.sub_0_r. Qed.

Lemma substring_span (i l : nat) (s : str) :
  substring i (i + l) s = firstn l (skipn i s).
Proof.
  unfold substring. rewrite Nat.max_r, Nat.min_l by lia.
  now replace (i + l - i) with l by lia.
Qed.

Lemma substring_rising (a b : nat) (s : str) :
  a <= b -> substring a b s = firstn (b - a) (skipn a s).
Proof. intros H. unfold substring. now rewrite Nat.max_r, Nat.min_l by lia. Qed.

(** A span is painted by putting the two sequences around it: the result,
    without them, is the text that was there. *)
Lemma paint_parts (color result : str) (s : span) :
  firstn (s_index s) result ++ firstn (s_length s) (skipn (s_index s) result)
    ++ skipn (s_index s + s_length s) result
  = result.
Proof.
  rewrite app_assoc, <- firstn_plus. apply firstn_skipn.
Qed.

Lemma paint_unfold (color result : str) (s : span) :
  paint color result s
  = firstn (s_index s) result ++ color
      ++ firstn (s_length s) (skipn (s_index s) result) ++ NORMAL
      ++ skipn (s_index s + s_length s) result.
Proof. unfold paint. now rewrite substring_from_zero, substring_span. Qed.

Lemma subseq_trans {A} (a b c : list A) : subseq a b -> subseq b c -> subseq a c.
Proof.
  intros Hab Hbc. revert a Hab.
  induction Hbc as [l|x l1 l2 _ IH|x l1 l2 _ IH]; intros a Hab.
  - inversion Hab; subst. constructor.
  - inversion Hab; subst; constructor; now apply IH.
  - constructor. now apply IH.
Qed.

Lemma subseq_insert {A} (a b c : list A) : subseq (a ++ c) (a ++ b ++ c).
Proof.
  apply subseq_app; [apply subseq_refl|].
  rewrite <- (app_nil_l c) at 1. apply subseq_app; [constructor|apply subseq_refl].
Qed.

Lemma paint_keeps (color result : str) (s : span) :
  length (paint color result s) = length result + (length color + length NORMAL)
  /\ subseq result (paint color result s).
Proof.
  rewrite paint_unfold. pose proof (paint_parts color result s) as H.
  set (a := firstn (s_index s) result) in *.
  set (b := firstn (s_length s) (skipn (s_index s) result)) in *.
  set (c := skipn (s_index s + s_length s) result) in *. split.
  - replace (length result) with (length (a ++ b ++ c)) by now rewrite H.
    rewrite !length_app. lia.
  - replace (subseq result) with (subseq (a ++ b ++ c)) by now rewrite H.
    apply subseq_app; [apply subseq_refl|].
    rewrite <- (app_nil_l (b ++ c)) at 1. apply subseq_app; [constructor|].
    apply subseq_app; [apply subseq_refl|].
    rewrite <- (app_nil_l c) at 1. apply subseq_app; [constructor|apply subseq_refl].
Qed.

Lemma insert_span_perm (s : span) (l : list span) : Permutation (insert_span s l) (s :: l).
Proof.
  induction l as [|x l IH]; simpl; [reflexivity|].
  destruct (s_index x <? s_index s); [reflexivity|].
  rewrite IH. apply perm_swap.
Qed.

Lemma sort_from_perm (spans acc : list span) :
  Permutation (fold_left (fun sorted s => insert_span s sorted) spans acc) (spans ++ acc).
Proof.
  revert acc; induction spans as [|s spans IH]; intros acc; simpl; [reflexivity|].
  rewrite IH, insert_span_perm. symmetry. apply Permutation_middle.
Qed.

Lemma sort_spans_perm (spans : list span) : Permutation (sort_spans spans) spans.
Proof. unfold sort_spans. rewrite sort_from_perm. now rewrite app_nil_r. Qed.

(** X18.  Whatever the spans are, [highlight] only inserts: its result has
    the characters of the text in their order, and is longer than the text
    by the colour sequence and [NORMAL] for every span. *)
Theorem highlight_keeps_text (text color : str) (spans : list span) :
  length (highlight text spans color)
  = length text + length spans * (length color + length NORMAL)
  /\ subseq text (highlight text spans color).
Proof.
  unfold highlight. rewrite <- (Permutation_length (sort_spans_perm spans)).
  generalize (sort_spans spans) as l. intros l. revert text.
  induction l as [|s l IH]; intros text; cbn [fold_left length].
  - split; [lia|apply subseq_refl].
  - destruct (IH (paint color text s)) as [Hl Hs].
    destruct (paint_keeps color text s) as [Kl Ks].
    split; [rewrite Hl, Kl; cbn [Nat.mul]; lia|]. eapply subseq_trans; eassumption.
Qed.

(** *** Spans that do not overlap *)

Lemma apart_bound (from n : nat) (spans : list span) : apart from n spans -> from <= n.
Proof.
  revert from; induction spans as [|s spans IH]; intros from; simpl; [tauto|].
  intros (H1 & H2 & H3). apply IH in H3. lia.
Qed.

Lemma apart_rising (from n : nat) (spans : list span) :
  apart from n spans ->
  StronglySorted (fun a b => s_index a < s_index b) spans
  /\ Forall (fun s => from <= s_index s) spans.
Proof.
  revert from; induction spans as [|s spans IH]; intros from; simpl.
  - intros _. split; constructor.
  - intros (H1 & H2 & H3). destruct (IH _ H3) as [Hs Hf]. split.
    + constructor; [exact Hs|]. eapply Forall_impl; [|exact Hf]. simpl. intros; lia.
    + constructor; [exact H1|]. eapply Forall_impl; [|exact Hf]. simpl. intros; lia.
Qed.

(** Painting the spans from the last to the first. *)
Lemma paint_backwards (color text : str) (spans : list span) (from : nat) :
  apart from (length text) spans ->
  fold_left (paint color) (rev spans) text
  = firstn from text ++ wrapped color text from spans.
Proof.
  revert from; induction spans as [|s spans IH]; intros from H; simpl in *.
  - symmetry. apply firstn_skipn.
  - destruct H as (H1 & H2 & H3). pose proof (apart_bound _ _ _ H3) as Hn.
    rewrite fold_left_app. cbn [fold_left]. rewrite (IH _ H3), paint_unfold.
    set (i := s_index s) in *. set (l := s_length s) in *.
    set (W := wrapped color text (i + l) spans).
    assert (Hlen : length (firstn (i + l) text) = i + l) by (apply firstn_length_le; lia).
    assert (E1 : firstn i (firstn (i + l) text ++ W) = firstn i text).
    { rewrite firstn_app, Hlen. replace (i - (i + l)) with 0 by lia.
      rewrite firstn_firstn, Nat.min_l by lia. simpl. apply app_nil_r. }
    assert (E2 : skipn i (firstn (i + l) text ++ W) = firstn l (skipn i text) ++ W).
    { rewrite skipn_app, Hlen. replace (i - (i + l)) with 0 by lia.
      cbn [skipn]. f_equal. rewrite firstn_plus.
      rewrite skipn_app, firstn_length_le by lia.
      rewrite Nat.sub_diag. cbn [skipn].
      rewrite skipn_all2 by (rewrite firstn_length_le; lia). reflexivity. }
    assert (E3 : skipn (i + l) (firstn (i + l) text ++ W) = W).
    { rewrite <- Hlen at 1. apply RegexifyFacts.skipn_exact. }
    rewrite E1, E2, E3.
    assert (Hl : length (firstn l (skipn i text)) = l).
    { apply firstn_length_le. rewrite length_skipn. lia. }
    rewrite firstn_app, Hl, Nat.sub_diag, firstn_firstn, Nat.min_id.
    cbn [firstn]. rewrite app_nil_r.
    rewrite substring_span, (substring_rising text H1).
    replace i with (from + (i - from)) at 1 by lia.
    rewrite firstn_plus, <- !app_assoc. reflexivity.
Qed.

(** Two lists in strictly falling order with the same members are the same
    list. *)
Lemma falling_unique (l1 l2 : list span) :
  StronglySorted (fun a b => s_index b < s_index a) l1 ->
  StronglySorted (fun a b => s_index b < s_index a) l2 ->
  Permutation l1 l2 -> l1 = l2.
Proof.
  revert l2; induction l1 as [|a l1 IH]; intros l2 H1 H2 Hp.
  - apply Permutation_nil in Hp. now subst.
  - destruct l2 as [|b l2]; [symmetry in Hp; now apply Permutation_nil in Hp|].
    inversion H1 as [|? ? Hs1 Hf1]; subst. inversion H2 as [|? ? Hs2 Hf2]; subst.
    assert (E : a = b).
    { assert (Ha : In a (b :: l2)) by (eapply Permutation_in; [exact Hp|now left]).
      assert (Hb : In b (a :: l1))
        by (eapply Permutation_in; [symmetry; exact Hp|now left]).
      destruct Ha as [Ha|Ha]; [now symmetry|]. destruct Hb as [Hb|Hb]; [exact Hb|].
      rewrite Forall_forall in Hf1, Hf2.
      specialize (Hf1 _ Hb). specialize (Hf2 _ Ha). lia. }
    subst b. f_equal. apply IH; try assumption.
    now apply Permutation_cons_inv in Hp.
Qed.

Lemma insert_span_falling (s : span) (l : list span) :
  StronglySorted (fun a b => s_index b <= s_index a) l ->
  StronglySorted (fun a b => s_index b <= s_index a) (insert_span s l).
Proof.
  induction 1 as [|x l Hs IH Hf]; simpl.
  - repeat constructor.
  - destruct (Nat.ltb_spec (s_index x) (s_index s)).
    + constructor; [now constructor|]. constructor; [lia|].
      eapply Forall_impl; [|exact Hf]. simpl. intros; lia.
    + constructor; [exact IH|].
      eapply Permutation_Forall; [symmetry; apply insert_span_perm|].
      constructor; assumption.
Qed.

Lemma sort_spans_falling (spans : list span) :
  StronglySorted (fun a b => s_index b <= s_index a) (sort_spans spans).
Proof.
  unfold sort_spans.
  assert (H : forall acc,
             StronglySorted (fun a b => s_index b <= s_index a) acc ->
             StronglySorted (fun a b => s_index b <= s_index a)
               (fold_left (fun sorted s => insert_span s sorted) spans acc)).
  { induction spans as [|s spans IH]; intros acc Hacc; [exact Hacc|].
    simpl. apply IH. now apply insert_span_falling. }
  apply H. constructor.
Qed.

(** In a list without two spans of the same index, falling order is
    strict. *)
Lemma falling_strict (l : list span) :
  NoDup (map s_index l) ->
  StronglySorted (fun a b => s_index b <= s_index a) l ->
  StronglySorted (fun a b => s_index b < s_index a) l.
Proof.
  induction l as [|x l IH]; intros Hn Hs; [constructor|].
  inversion Hn as [|? ? Hx Hn']; subst. inversion Hs as [|? ? Hs' Hf]; subst.
  constructor; [now apply IH|].
  rewrite Forall_forall in *. intros y Hy. specialize (Hf y Hy).
  assert (s_index y <> s_index x); [|lia].
  intros E. apply Hx. rewrite <- E. now apply in_map.
Qed.

Lemma rising_rev (l : list span) :
  StronglySorted (fun a b => s_index a < s_index b) l ->
  StronglySorted (fun a b => s_index b < s_index a) (rev l)
  /\ NoDup (map s_index l).
Proof.
  induction 1 as [|x l Hs [IH1 IH2] Hf]; simpl.
  - split; constructor.
  - split.
    + clear IH2. induction (rev l) as [|y r IHr] eqn:E in IH1, Hf, l, Hs |- *.
      * repeat constructor.
      * assert (Hall : Forall (fun s => s_index x < s_index s) (y :: r)).
        { rewrite <- E. apply Forall_rev. exact Hf. }
        clear E. induction IH1 as [|z r' Hr' IHr' Hz]; [repeat constructor|].
        simpl. inversion Hall; subst. constructor.
        -- apply IHr'. assumption.
        -- apply Forall_app. split; [exact Hz|]. constructor; [assumption|constructor].
    + constructor; [|exact IH2]. intros Hin. apply in_map_iff in Hin as (y & E & Hy).
      rewrite Forall_forall in Hf. specialize (Hf y Hy). lia.
Qed.

(** The spans of [asc], in whatever order, painted: the order in which
    [highlight] takes them is from the last to the first. *)
Lemma sort_spans_apart (spans asc : list span) (from n : nat) :
  Permutation spans asc -> apart from n asc -> sort_spans spans = rev asc.
Proof.
  intros Hp Ha. destruct (apart_rising _ _ _ Ha) as [Hr _].
  destruct (rising_rev Hr) as [Hrev Hnd].
  apply falling_unique; [|exact Hrev|].
  - apply falling_strict; [|apply sort_spans_falling].
    eapply Permutation_NoDup; [|exact Hnd].
    apply Permutation_map. symmetry. rewrite sort_spans_perm. exact Hp.
  - rewrite sort_spans_perm, Hp. apply Permutation_rev.
Qed.

(** X19.  For spans that lie in the text, are not empty and do not overlap,
    given in whatever order, [highlight] returns the text with each span set
    between the colour sequence and [NORMAL], and everything else as it
    was. *)
Theorem highlight_wraps (text color : str) (spans asc : list span) :
  Permutation spans asc -> apart 0 (length text) asc ->
  highlight text spans color = wrapped color text 0 asc.
Proof.
  intros Hp Ha. unfold highlight.
  rewrite (@sort_spans_apart spans asc 0 (length text) Hp Ha).
  now rewrite (@paint_backwards color text asc 0 Ha).
Qed.

Lemma highlight_wraps_witness :
  highlight (lit "green tea is a drink")
    [{| s_index := 15; s_length := 5 |}; {| s_index := 0; s_length := 9 |}] GREEN
  = GREEN ++ lit "green tea" ++ NORMAL ++ lit " is a " ++ GREEN ++ lit "drink" ++ NORMAL.
Proof.
  rewrite (@highlight_wraps (lit "green tea is a drink") GREEN
             [{| s_index := 15; s_length := 5 |}; {| s_index := 0; s_length := 9 |}]
             [{| s_index := 0; s_length := 9 |}; {| s_index := 15; s_length := 5 |}]).
  - vm_compute. reflexivity.
  - apply perm_swap.
  - simpl. lia.
Defined.

End HighlightFacts.

(** ** The test runner: the lines of a test file *)

Module EvaluateFacts.

Import Spec StringFacts TrimFacts.
Import Terms.

Lemma indexOf_char_none (c : char) (s : str) : indexOf [c] s = None -> ~ In c s.
Proof.
  induction s as [|x s IH]; simpl; [tauto|].
  destruct (N.eqb_spec c x) as [->|Hx]; simpl; [discriminate|].
  destruct (indexOf [c] s); [discriminate|]. intros _ [H|H]; [now symmetry in H|].
  now apply IH.
Qed.

Lemma indexOf_char_some (c : char) (s : str) (i : nat) :
  indexOf [c] s = Some i -> ~ In c (firstn i s).
Proof.
  revert i; induction s as [|x s IH]; intros i; simpl; [discriminate|].
  destruct (N.eqb_spec c x) as [->|Hx]; simpl.
  - intros [= <-]. simpl. tauto.
  - destruct (indexOf [c] s) as [j|]; [|discriminate]. intros [= <-]. simpl.
    intros [H|H]; [now symmetry in H|]. now apply (IH j).
Qed.

Lemma indexOf_char_in (c : char) (s : str) (i : nat) :
  indexOf [c] s = Some i -> In c s.
Proof.
  revert i; induction s as [|x s IH]; intros i; simpl; [discriminate|].
  destruct (N.eqb_spec c x) as [->|Hx]; simpl; [intros; now left|].
  destruct (indexOf [c] s) as [j|]; [|discriminate]. intros _. right. now apply (IH j).
Qed.

Lemma indexOf_char_absent (c : char) (s : str) : ~ In c s -> indexOf [c] s = None.
Proof.
  induction s as [|x s IH]; intros H; simpl; [reflexivity|].
  destruct (N.eqb_spec c x) as [->|_]; [exfalso; apply H; now left|]. simpl.
  rewrite IH by (intros K; apply H; now right). reflexivity.
Qed.

Lemma indexOf_char_first (c : char) (a b : str) :
  ~ In c a -> indexOf [c] (a ++ c :: b) = Some (length a).
Proof.
  induction a as [|x a IH]; intros H; simpl.
  - now rewrite N.eqb_refl.
  - destruct (N.eqb_spec c x) as [->|_]; [exfalso; apply H; now left|]. simpl.
    rewrite IH by (intros K; apply H; now right). reflexivity.
Qed.

Lemma trimStart_before (a b : str) (c : char) :
  is_ws c = false -> trimStart (a ++ c :: b) = trimStart a ++ c :: b.
Proof.
  intros Hc. induction a as [|x a IH]; simpl; [now rewrite Hc|].
  now destruct (is_ws x).
Qed.

Lemma trimEnd_after (a b : str) (c : char) :
  is_ws c = false -> trimEnd (a ++ c :: b) = a ++ c :: trimEnd b.
Proof.
  intros Hc. unfold trimEnd. rewrite rev_app_distr. cbn [rev].
  rewrite <- app_assoc. cbn [app]. rewrite trimStart_before by exact Hc.
  rewrite rev_app_distr. cbn [rev]. rewrite rev_involutive.
  now rewrite <- app_assoc.
Qed.

(** X20.  The [trim] that [evaluate] applies to every line of a test file
    keeps what stands before the first [#] of the line, without the white
    space around it, and cuts off the [#] and everything after it, also
    inside an inquiry.  A line without [#] is only trimmed.  So the result
    never holds a [#]. *)
Theorem line_without_comment (before after : str) :
  ~ In Evaluate.HASH before ->
  Evaluate.trim (before ++ Evaluate.HASH :: after) = trim before
  /\ Evaluate.trim before = trim before
  /\ ~ In Evaluate.HASH (trim before).
Proof.
  intros H.
  assert (Hno : ~ In Evaluate.HASH (trim before))
    by (intros K; apply H; now apply trim_In).
  split; [|split; [|exact Hno]].
  - unfold Evaluate.trim.
    assert (E : trim (before ++ Evaluate.HASH :: after)
                = trimStart before ++ Evaluate.HASH :: trimEnd after).
    { unfold trim at 1. rewrite trimStart_before by reflexivity.
      now apply trimEnd_after. }
    rewrite E.
    rewrite indexOf_char_first by (intros K; apply H; now apply trimStart_In).
    unfold substr. cbn [skipn]. rewrite RoundTrip.firstn_exact.
    unfold trim. now rewrite trimStart_idem.
  - unfold Evaluate.trim. now rewrite indexOf_char_absent.
Qed.

Lemma line_without_comment_witness :
  Evaluate.trim (lit "  User: What is C#?  ") = lit "User: What is C"
  /\ Evaluate.trim (lit "  User: What is C") = lit "User: What is C"
  /\ ~ In Evaluate.HASH (lit "User: What is C").
Proof.
  apply (@line_without_comment (lit "  User: What is C") (lit "?  ")).
  vm_compute. intuition discriminate.
Defined.

Lemma split_at_first (c : char) (a b : str) :
  ~ In c a -> split c (a ++ c :: b) = a :: split c b.
Proof.
  induction a as [|x a IH]; intros H; simpl.
  - now rewrite N.eqb_refl.
  - destruct (N.eqb_spec x c) as [->|_]; [exfalso; apply H; now left|].
    rewrite IH by (intros K; apply H; now right). reflexivity.
Qed.

Lemma split_not_empty (c : char) (s : str) : split c s <> [].
Proof.
  induction s as [|x s IH]; simpl; [discriminate|].
  destruct (N.eqb x c); [discriminate|]. destruct (split c s); discriminate.
Qed.

(** X21.  [handle] takes the text of a line up to its first colon as the
    role and everything after that colon, trimmed, as the content, so that
    the content may hold colons of its own; a line without a colon has
    neither and is passed over. *)
Theorem role_and_content_of_line (role rest : str) :
  ~ In COLON role ->
  Evaluate.role_and_content (role ++ COLON :: rest) = Some (role, trim rest)
  /\ Evaluate.role_and_content role = None.
Proof.
  intros H. unfold Evaluate.role_and_content, Evaluate.parts. split.
  - assert (E : split COLON (role ++ COLON :: rest) = role :: split COLON rest)
      by now apply split_at_first.
    destruct (role ++ COLON :: rest) as [|x l] eqn:El; [now destruct role|].
    rewrite E. pose proof (split_not_empty COLON rest) as Hne.
    destruct (split COLON rest) as [|y ys]; [contradiction|].
    rewrite <- El. unfold substring_from.
    replace (length role + 1) with (length (role ++ [COLON]))
      by (rewrite length_app; reflexivity).
    replace (role ++ COLON :: rest) with ((role ++ [COLON]) ++ rest)
      by now rewrite <- app_assoc.
    now rewrite RegexifyFacts.skipn_exact.
  - destruct role as [|x l]; [reflexivity|].
    now rewrite split_no_sep.
Qed.

Lemma role_and_content_of_line_witness :
  Evaluate.role_and_content (lit "User: What is the ratio 1:2?")
  = Some (lit "User", lit "What is the ratio 1:2?").
Proof.
  apply (@role_and_content_of_line (lit "User") (lit " What is the ratio 1:2?")).
  vm_compute. intuition discriminate.
Defined.

End EvaluateFacts.

(** ** The display of the terminal, and the formatter of the Telegram
    front-end, on any text *)

Module ShowFacts.

Import Spec StringFacts.
Import Display Pipeline.
Import Terms.

Lemma scan_none (s : str) (i : nat) : ~ In BRACKET s -> scan s i = None.
Proof.
  revert i; induction s as [|c s IH]; intros i H; [reflexivity|].
  cbn [scan]. unfold match_here.
  assert (E : starts_with (lit "[citation:") (c :: s) = false).
  { cbn [starts_with lit map String.list_ascii_of_string].
    destruct (N.eqb_spec (N_of_ascii "[") c) as [<-|_]; [|reflexivity].
    exfalso. apply H. now left. }
  rewrite E. apply IH. intros K. apply H. now right.
Qed.

Lemma push_loop_none (fuel : nat) (buffer : str) (refs : list nat) (lastIndex : nat) :
  exec buffer lastIndex = None -> push_loop fuel buffer refs lastIndex = Some (buffer, refs).
Proof. intros H. destruct fuel; simpl; now rewrite H. Qed.

(** [push] on a text without a bracket: the text goes through, but for the
    characters held back. *)
Lemma push_plain (d : display) (text : str) :
  ~ In BRACKET (d_buffer d ++ text) ->
  let buffer := d_buffer d ++ text in
  push d text
  = if MAX_LOOKAHEAD <? length buffer then
      Some ({| d_buffer := skipn (length buffer - MAX_LOOKAHEAD) buffer;
               d_refs := d_refs d |},
            Some (firstn (length buffer - MAX_LOOKAHEAD) buffer))
    else Some ({| d_buffer := buffer; d_refs := d_refs d |}, None).
Proof.
  intros H buffer. unfold push. fold buffer.
  rewrite push_loop_none; [reflexivity|].
  unfold exec. cbn [Nat.ltb Nat.leb skipn]. now apply scan_none.
Qed.

Lemma feed_plain (chunks : list str) (d : display) (out total : str) :
  ~ In BRACKET (total ++ concat chunks) -> d_refs d = [] -> held total out (d_buffer d) ->
  exists d' out',
    feed d chunks out = Some (d', out') /\ d_refs d' = []
    /\ held (total ++ concat chunks) out' (d_buffer d').
Proof.
  revert d out total; induction chunks as [|text chunks IH];
    intros d out total Hfree Hrefs (Hsum & Hlen & Hfull).
  - exists d, out. cbn [concat]. rewrite app_nil_r. now repeat split.
  - cbn [concat] in Hfree. rewrite app_assoc in Hfree.
    assert (Hb : ~ In BRACKET (d_buffer d ++ text)).
    { intros K. apply Hfree. apply in_or_app. left. rewrite <- Hsum, <- app_assoc.
      apply in_or_app. now right. }
    cbn [feed concat]. rewrite (push_plain d text Hb). cbv zeta. rewrite app_assoc.
    destruct (Nat.ltb_spec MAX_LOOKAHEAD (length (d_buffer d ++ text))) as [Hlt|Hge].
    + apply IH; [exact Hfree|exact Hrefs|]. cbn [d_buffer]. split; [|split].
      * rewrite <- app_assoc, firstn_skipn, app_assoc. now rewrite Hsum.
      * rewrite length_skipn. lia.
      * intros _. rewrite length_skipn. lia.
    + apply IH; [exact Hfree|exact Hrefs|]. cbn [d_buffer]. split; [|split].
      * rewrite app_assoc. now rewrite Hsum.
      * exact Hge.
      * intros Hout. specialize (Hfull Hout). rewrite length_app in *. lia.
Qed.

Lemma held_split (total out buffer : str) :
  held total out buffer ->
  out = firstn (length total - MAX_LOOKAHEAD) total
  /\ buffer = skipn (length total - MAX_LOOKAHEAD) total.
Proof.
  intros (Hsum & Hlen & Hfull). subst total. rewrite length_app.
  destruct out as [|c out].
  - replace (length (@nil char) + length buffer - MAX_LOOKAHEAD) with 0 by (simpl; lia).
    now split.
  - rewrite Hfull by discriminate.
    replace (length (c :: out) + MAX_LOOKAHEAD - MAX_LOOKAHEAD) with (length (c :: out))
      by lia.
    split; [symmetry; apply RoundTrip.firstn_exact|symmetry; apply RegexifyFacts.skipn_exact].
Qed.

(** X22.  A text without a bracket goes through the display of the terminal
    as it is, however it is cut into chunks: what is written, after the
    flush, is the text without the white space at the end of its last
    [MAX_LOOKAHEAD] characters, and no reference is recorded. *)
Theorem plain_text_shown (chunks : list str) :
  ~ In BRACKET (concat chunks) ->
  let text := concat chunks in
  rewritten chunks
  = Some (firstn (length text - MAX_LOOKAHEAD) text
            ++ trimEnd (skipn (length text - MAX_LOOKAHEAD) text), []).
Proof.
  intros H text. unfold rewritten.
  destruct (@feed_plain chunks {| d_buffer := []; d_refs := [] |} [] [] H eq_refl)
    as (d' & out' & -> & Hrefs & Hheld).
  - split; [reflexivity|]. split; [apply Nat.le_0_l|]. intros K. now elim K.
  - cbn [app] in Hheld. fold text in Hheld.
    destruct (held_split Hheld) as [<- <-]. cbn [flush snd]. now rewrite Hrefs.
Qed.

Lemma plain_text_shown_witness :
  rewritten [lit "Tea is "; lit "a drink made from the leaves "; lit "of the tea plant.  "]
  = Some (lit "Tea is a drink made from the leaves of the tea plant.", []).
Proof.
  rewrite plain_text_shown; [vm_compute; reflexivity|].
  vm_compute. intuition discriminate.
Defined.

(** *** [format] *)

Lemma starts_with_bracket (c : char) (s : str) :
  c <> BRACKET -> starts_with (lit "[citation:") (c :: s) = false.
Proof.
  intros H. cbn [starts_with lit map String.list_ascii_of_string].
  destruct (N.eqb_spec (N_of_ascii "[") c) as [E|_]; [|reflexivity].
  exfalso. apply H. now symmetry.
Qed.

Lemma indexOf_none (s : str) : ~ In BRACKET s -> indexOf (lit "[citation:") s = None.
Proof.
  induction s as [|c s IH]; intros H; [reflexivity|].
  cbn [indexOf]. rewrite starts_with_bracket by (intros ->; apply H; now left).
  rewrite IH by (intros K; apply H; now right). reflexivity.
Qed.

Lemma indexOf_after (pre s : str) :
  ~ In BRACKET pre ->
  indexOf (lit "[citation:") (pre ++ s)
  = option_map (Nat.add (length pre)) (indexOf (lit "[citation:") s).
Proof.
  induction pre as [|c pre IH]; intros H.
  - cbn [app length]. now destruct (indexOf _ s).
  - cbn [app indexOf]. rewrite starts_with_bracket by (intros ->; apply H; now left).
    rewrite IH by (intros K; apply H; now right).
    now destruct (indexOf _ s).
Qed.

Lemma digits (d : char) :
  is_digit d = true -> In d [48; 49; 50; 51; 52; 53; 54; 55; 56; 57]%N.
Proof.
  unfold is_digit. intros H. apply andb_true_iff in H as [H1 H2].
  apply N.leb_le in H1, H2. cbn [In].
  assert (E : (d = 48 \/ d = 49 \/ d = 50 \/ d = 51 \/ d = 52 \/ d = 53 \/ d = 54
               \/ d = 55 \/ d = 56 \/ d = 57)%N) by lia.
  intuition.
Qed.

(** [parseInt] on one digit. *)
Lemma parseInt_digit (d : char) :
  is_digit d = true -> parseInt [d] = N.to_nat (d - 48).
Proof.
  intros Hd. apply digits in Hd.
  repeat (destruct Hd as [<-|Hd]; [reflexivity|]). contradiction.
Qed.

(** The loop of [format] on a text with one marker. *)
Lemma format_loop_one (pre post : str) (digit : char) (fuel : nat) :
  ~ In BRACKET pre -> ~ In BRACKET post -> is_digit digit = true ->
  format_loop (S fuel) (pre ++ marker digit ++ post) []
  = Some (pre ++ lit "[1]" ++ post, [N.to_nat (digit - 48)]).
Proof.
  intros Hpre Hpost Hd. cbn [format_loop].
  rewrite indexOf_after by exact Hpre.
  assert (E : indexOf (lit "[citation:") (marker digit ++ post) = Some 0) by reflexivity.
  rewrite E. cbn [option_map]. rewrite Nat.add_0_r.
  assert (En : nth_error (pre ++ marker digit ++ post) (length pre + 10) = Some digit).
  { rewrite nth_error_app2 by lia. now replace (length pre + 10 - length pre) with 10 by lia. }
  rewrite En, Hd.
  rewrite (parseInt_digit digit Hd).
  assert (Ec : cite (N.to_nat (digit - 48)) [] = ([N.to_nat (digit - 48)], 1))
    by reflexivity.
  rewrite Ec.
  assert (Eb : substr 0 (length pre) (pre ++ marker digit ++ post)
                 ++ lit "[" ++ nat_to_str 1 ++ lit "]"
                 ++ substring_from (length pre + 12) (pre ++ marker digit ++ post)
               = pre ++ lit "[1]" ++ post).
  { unfold substr, substring_from. cbn [skipn].
    rewrite RoundTrip.firstn_exact, RoundTrip.skipn_past. reflexivity. }
  rewrite Eb.
  assert (Enone : indexOf (lit "[citation:") (pre ++ lit "[1]" ++ post) = None).
  { rewrite indexOf_after by exact Hpre.
    change (lit "[1]" ++ post) with (BRACKET :: 49%N :: 93%N :: post).
    cbn [indexOf starts_with lit map String.list_ascii_of_string].
    change (N.eqb (N_of_ascii "[") BRACKET) with true.
    change (N.eqb (N_of_ascii "c") 49%N) with false.
    change (N.eqb (N_of_ascii "[") 49%N) with false.
    change (N.eqb (N_of_ascii "[") 93%N) with false.
    cbn [andb]. now rewrite indexOf_none. }
  destruct fuel; cbn [format_loop]; now rewrite Enone.
Qed.

(** X23.  [format] on an answer that cites, once, a source there is no
    reference for (the number nought, or a number greater than the number
    of references): it throws a [TypeError], reading [url] of
    [undefined]. *)
Theorem citation_without_reference (pre post : str) (digit : char)
  (references : list Reference) :
  ~ In BRACKET pre -> ~ In BRACKET post -> is_digit digit = true ->
  references <> [] ->
  digit = 48%N \/ length references < N.to_nat (digit - 48) ->
  format (pre ++ marker digit ++ post) (Some references) = Some (Throw TypeError).
Proof.
  intros Hpre Hpost Hd Hne Hout. unfold format.
  assert (Hl : length (pre ++ marker digit ++ post) = S (length pre + 11 + length post)).
  { rewrite !length_app. simpl. lia. }
  rewrite Hl, format_loop_one by assumption.
  cbn [length]. destruct references as [|r rs]; [contradiction|].
  cbn [Nat.leb reference_list].
  destruct Hout as [->|Hlt]; [reflexivity|].
  destruct (Nat.eqb_spec (N.to_nat (digit - 48)) 0); [reflexivity|].
  assert (E : nth_error (r :: rs) (N.to_nat (digit - 48) - 1) = None)
    by (apply nth_error_None; lia).
  now rewrite E.
Qed.

Lemma citation_without_reference_witness :
  format (lit "Tea is a drink [citation:0].") (Some [tea_reference]) = Some (Throw TypeError)
  /\ format (lit "Tea is a drink [citation:2].") (Some [tea_reference])
     = Some (Throw TypeError).
Proof.
  split.
  - apply (@citation_without_reference (lit "Tea is a drink ") (lit ".") 48%N);
      [vm_compute; intuition discriminate | vm_compute; intuition discriminate
      | reflexivity | discriminate | now left].
  - apply (@citation_without_reference (lit "Tea is a drink ") (lit ".") 50%N);
      [vm_compute; intuition discriminate | vm_compute; intuition discriminate
      | reflexivity | discriminate | right; simpl; lia].
Defined.

(** X24.  [format] does not come to an end on an answer in which the first
    [[citation:] is not followed by a digit: the loop finds the same place
    again and again, and changes nothing. *)
Theorem format_never_ends (text : str) (index : nat) :
  indexOf (lit "[citation:") text = Some index ->
  match nth_error text (index + 10) with
  | Some c => is_digit c = false
  | None => True
  end ->
  (forall fuel refs, format_loop fuel text refs = None)
  /\ forall references, format text references = None.
Proof.
  intros Hi Hc.
  assert (H : forall fuel refs, format_loop fuel text refs = None).
  { induction fuel as [|fuel IH]; intros refs; cbn [format_loop]; rewrite Hi;
      [reflexivity|].
    destruct (nth_error text (index + 10)) as [c|]; [rewrite Hc|]; apply IH. }
  split; [exact H|]. intros references. unfold format. now rewrite H.
Qed.

Lemma format_never_ends_witness :
  format (lit "Tea is a drink [citation:x].") (Some [tea_reference]) = None.
Proof.
  apply (proj2 (@format_never_ends (lit "Tea is a drink [citation:x].") 15 eq_refl eq_refl)).
Defined.

(** *** The links of the terminal front-end *)

(** X25.  Printing the links, which the terminal front-end does when it has
    at least as many references as numbers were cited, throws exactly when
    one of the numbers cited has no reference: nought, or a number greater
    than the number of references. *)
Theorem links_need_references (refs : list nat) (references : list Reference) :
  print_links refs references = Throw TypeError
  <-> exists ref, In ref refs /\ (ref = 0 \/ length references < ref).
Proof.
  induction refs as [|n rest IH]; cbn [print_links].
  - split; [discriminate|]. intros (x & [] & _).
  - destruct (Nat.eqb_spec n 0) as [->|Hz].
    + split; [|reflexivity]. intros _. exists 0. split; [now left|now left].
    + destruct (nth_error references (n - 1)) as [r|] eqn:E.
      * rewrite IH. split; intros (x & Hx & Hb).
        -- exists x. split; [now right|exact Hb].
        -- destruct Hx as [->|Hx]; [|now exists x].
           exfalso. assert (x - 1 < length references)
             by (apply nth_error_Some; congruence).
           lia.
      * split; [|reflexivity]. intros _. exists n. split; [now left|].
        right. apply nth_error_None in E. lia.
Qed.

End ShowFacts.

(** ** [reason]: what the second completion is read as *)

Module RetryFacts.

Import Spec StringFacts CodecFacts RoundTrip.
Import Display Pipeline PipelineFacts StageFacts.
Import Terms.

Lemma fixed_values :
  plain_value (lit "Google.") /\ plain_value (lit "general knowledge.").
Proof.
  split; (split; [reflexivity|split; [vm_compute; intuition discriminate|]]);
    intros K HK;
    repeat (destruct HK as [<-|HK]; [vm_compute; reflexivity|]); contradiction.
Qed.

Lemma retried_plain (t c2 : str) :
  plain_value t -> plain_value c2 ->
  forall k v, obj_get (retried t c2) k = Some v -> plain_value v.
Proof.
  intros Ht Hc k v H. destruct fixed_values as [Hg Hk].
  apply obj_get_In in H.
  destruct H as [[= <- <-]|[[= <- <-]|[[= <- <-]|[[= <- <-]|[]]]]]; assumption.
Qed.

(** The text of the second hint and a plain completion, with the line that
    [breakdown] adds, is the text [construct] writes for [retried]. *)
Lemma retried_text (o : option str) (c2 : str) :
  text_or_undefined o <> [] -> c2 <> [] ->
  (second_hint o ++ c2) ++ [NL] ++ lit "TOPIC: general knowledge."
  = construct (retried (text_or_undefined o) c2).
Proof.
  intros Ht Hc. unfold second_hint.
  destruct (text_or_undefined o) as [|x t]; [contradiction|].
  destruct c2 as [|y c2]; [contradiction|].
  unfold construct, retried.
  cbn. repeat (rewrite <- ?app_assoc; cbn). reflexivity.
Qed.

(** No [TOPIC:] in the second hint followed by a plain completion. *)
Lemma retried_without_topic (o : option str) (c2 : str) :
  plain_value (text_or_undefined o) -> plain_value c2 ->
  lastIndexOf (lit "TOPIC" ++ [COLON]) (second_hint o ++ c2) = None.
Proof.
  intros (_ & _ & Ht) (_ & _ & Hc). destruct fixed_values as [(_ & _ & Hg) _].
  assert (Htopic : In (lit "TOPIC") PREDEFINED_KEYS) by (vm_compute; tauto).
  assert (E : second_hint o ++ c2
              = line (lit "TOOL") (lit "Google.") ++ NL
                  :: line (lit "THOUGHT") (text_or_undefined o) ++ NL
                  :: line (lit "KEYPHRASES") c2).
  { unfold second_hint, line. cbn [join]. repeat (rewrite <- ?app_assoc; cbn [app]).
    reflexivity. }
  rewrite E.
  rewrite lastIndexOf_line by (assumption || (vm_compute; tauto)).
  rewrite lastIndexOf_line by (assumption || (vm_compute; tauto)).
  destruct (marker_pattern Htopic) as (Hsp & _ & Hne & _).
  rewrite <- (app_nil_r (line _ c2)), line_split, app_nil_r.
  rewrite lastIndexOf_sep by assumption. rewrite (Hc _ Htopic).
  reflexivity.
Qed.

(** What [breakdown] finds in the second completion when it is a plain
    text. *)
Lemma breakdown_retried (o : option str) (c2 : str) :
  plain_value (text_or_undefined o) -> text_or_undefined o <> [] ->
  plain_value c2 -> c2 <> [] ->
  let found := breakdown (second_hint o) c2 in
  obj_get found (lit "language") = None
  /\ obj_get found (lit "topic") = Some (lit "general knowledge.")
  /\ obj_get found (lit "thought") = Some (text_or_undefined o)
  /\ obj_get found (lit "keyphrases") = Some c2
  /\ obj_get found (lit "observation") = None.
Proof.
  intros Ht Hte Hc Hce. cbv zeta. unfold breakdown.
  assert (E : deconstruct (second_hint o ++ c2) = []).
  { unfold deconstruct, deconstruct_with.
    change (last PREDEFINED_KEYS []) with (lit "TOPIC").
    now rewrite retried_without_topic. }
  rewrite E. cbn [obj_get truthy].
  rewrite retried_text by assumption.
  rewrite (@deconstruct_construct (retried (text_or_undefined o) c2)
             (lit "general knowledge.") eq_refl)
    by (discriminate || now apply retried_plain).
  destruct (text_or_undefined o) as [|x t]; [contradiction|].
  destruct c2 as [|y c2]; [contradiction|].
  repeat split; reflexivity.
Qed.

(** X26.  When the first completion brings no keyphrases, [reason] asks
    again with a hint that carries the thought it has found, the text
    [undefined] if it has found none, and no language.  If the second
    completion is a plain text, that text becomes the keyphrases, the topic
    is [general knowledge.], and the language the first completion had
    named is lost: the context has none. *)
Theorem retry_drops_language (f : frontend) (h : list HistoryEntry) (i : str)
  (w w1 w2 : World) (c1 c2 : str) :
  let context := new_context i h (delegates_of f) in
  chat (hinted context first_hint) None (record_enter (lit "Reason") w) = (Ok c1, w1) ->
  let found := breakdown first_hint c1 in
  truthy (obj_get found (lit "keyphrases")) = false ->
  chat (hinted context (second_hint (obj_get found (lit "thought")))) None w1
  = (Ok c2, w2) ->
  let thought' := text_or_undefined (obj_get found (lit "thought")) in
  plain_value thought' -> thought' <> [] -> plain_value c2 -> c2 <> [] ->
  exists c',
    fst (reason context w) = Ok c'
    /\ language c' = None
    /\ thought c' = Some thought'
    /\ keyphrases c' = Some c2
    /\ topic c' = Some (lit "general knowledge.")
    /\ observation c' = None.
Proof.
  intros context H1 found Hk H2 thought' Ht Hte Hc Hce.
  rewrite (reason_unfold f context w eq_refl). rewrite H1. cbv zeta.
  fold found. rewrite Hk, H2.
  destruct (breakdown_retried (obj_get found (lit "thought")) Ht Hte Hc Hce)
    as (Hl & Hto & Hth & Hke & Hob).
  eexists. split; [reflexivity|].
  unfold reasoned_context. cbn [language thought keyphrases topic observation context
                                new_context or_else].
  rewrite Hl, Hto, Hth, Hke, Hob. now repeat split.
Qed.

Lemma retry_drops_language_witness :
  exists c',
    fst (reason (new_context tea [] test_delegates) halting_world) = Ok c'
    /\ language c' = None
    /\ thought c' = Some (lit "about tea.")
    /\ keyphrases c' = Some (lit "green tea")
    /\ topic c' = Some (lit "general knowledge.")
    /\ observation c' = None.
Proof.
  set (context := new_context tea [] (delegates_of TestRunner)).
  set (run1 := chat (hinted context first_hint) None
                 (record_enter (lit "Reason") halting_world)).
  assert (H1 : run1 = (Ok (lit "English." ++ [NL] ++ lit "THOUGHT: about tea."), snd run1))
    by (vm_compute; reflexivity).
  assert (Hk : truthy (obj_get (breakdown first_hint
                                  (lit "English." ++ [NL] ++ lit "THOUGHT: about tea."))
                         (lit "keyphrases")) = false)
    by (vm_compute; reflexivity).
  set (found := breakdown first_hint (lit "English." ++ [NL] ++ lit "THOUGHT: about tea."))
    in *.
  set (run2 := chat (hinted context (second_hint (obj_get found (lit "thought")))) None
                 (snd run1)).
  assert (H2 : run2 = (Ok (lit "green tea"), snd run2)) by (vm_compute; reflexivity).
  assert (Hth : text_or_undefined (obj_get found (lit "thought")) = lit "about tea.")
    by (vm_compute; reflexivity).
  assert (Hp : forall v, v = lit "about tea." \/ v = lit "green tea" -> plain_value v).
  { intros v [-> | ->];
      (split; [reflexivity|split; [vm_compute; intuition discriminate|]]);
      intros K HK;
      repeat (destruct HK as [<-|HK]; [vm_compute; reflexivity|]); contradiction. }
  pose proof (@retry_drops_language TestRunner [] tea halting_world (snd run1) (snd run2)
                (lit "English." ++ [NL] ++ lit "THOUGHT: about tea.") (lit "green tea")
                H1 Hk H2) as H.
  cbv zeta in H. fold found in H. rewrite Hth in H.
  apply H; [apply Hp; now left|discriminate|apply Hp; now right|discriminate].
Defined.

End RetryFacts.

(** ** The pipeline after a retry that brings no keyphrases *)

Module KeyphrasesFacts.

Import Spec StringFacts.
Import Display Pipeline PipelineFacts StageFacts.
Import Terms.

(** C6, amended.  When the completion of the retry brings the empty string
    for the keyphrases, [reason] returns, with these keyphrases; [search]
    sends its request with the empty query, as often as its retries allow;
    when its three attempts are all answered without hits it returns an
    empty list of references; [respond] then sends the chat endpoint a
    request that holds no message, and the pipeline ends as that call ends:
    with the text that came back as the answer, or with the error of the
    call. *)
Theorem empty_keyphrases_go_on (f : frontend) (h : list HistoryEntry) (i : str)
  (w wa wb : World) (t1 t2 : str) (r0 r1 r2 : WebReply) :
  let context := new_context i h (delegates_of f) in
  chat (hinted context first_hint) None (record_enter (lit "Reason") w) = (Ok t1, wa) ->
  let found := breakdown first_hint t1 in
  truthy (obj_get found (lit "keyphrases")) = false ->
  let hint := second_hint (obj_get found (lit "thought")) in
  chat (hinted context hint) None wa = (Ok t2, wb) ->
  obj_get (breakdown hint t2) (lit "keyphrases") = Some [] ->
  let n := length (web_queries wb) in
  web wb n = Some r0 -> web wb (S n) = Some r1 -> web wb (S (S n)) = Some r2 ->
  without_hits r0 -> without_hits r1 -> without_hits r2 ->
  exists c1 w1 w2,
    reason context w = (Ok c1, w1) /\ keyphrases c1 = Some []
    /\ search c1 w1 = (Ok (with_references c1 []), w2)
    /\ web_queries w2 = [] :: [] :: [] :: web_queries w1
    /\ (exists request,
          llm_requests (snd (pipeline context w)) = request :: llm_requests w1
          /\ req_messages request = [])
    /\ pipeline context w
       = match chat [] (stream (delegates_of f)) (record_enter (lit "Respond") w2) with
         | (Ok text, w3) =>
             (Ok (with_answer (with_references c1 []) text),
              record_leave (lit "Respond") (RespondFields i) w3)
         | (Throw e, w3) => (Throw e, w3)
         | (Beyond, w3) => (Beyond, w3)
         end.
Proof.
  intros context H1 found Hk hint H2 Hkp n H0 H1' H2' Hn0 Hn1 Hn2.
  set (result' := breakdown hint t2) in *.
  set (c1 := reasoned_context context result').
  set (w1 := record_leave (lit "Reason") (reason_fields result') wb).
  assert (Hr : reason context w = (Ok c1, w1)).
  { rewrite (reason_unfold f context w eq_refl). rewrite H1. cbv zeta.
    fold found. rewrite Hk. fold hint. rewrite H2. reflexivity. }
  assert (Hkc : keyphrases c1 = Some []).
  { unfold c1, reasoned_context. cbn [keyphrases context new_context or_else].
    now rewrite Hkp. }
  assert (Hd : delegates c1 = delegates_of f) by reflexivity.
  set (asked := fun w => log_web (clean_query []) (record_enter (lit "Search") w)).
  set (w2 := record_leave (lit "Search") (SearchFields []) (asked (asked (asked w1)))).
  assert (Hs : search c1 w1 = (Ok (with_references c1 []), w2)).
  { unfold search. cbn [search_from].
    rewrite (search_attempt_without_hits f _ c1 w1 Hd Hkc H0 Hn0).
    rewrite (search_attempt_without_hits f _ c1 (asked w1) Hd Hkc H1' Hn1).
    rewrite (search_attempt_without_hits f _ c1 (asked (asked w1)) Hd Hkc H2' Hn2).
    reflexivity. }
  assert (Hp : pipeline context w
               = match chat [] (stream (delegates_of f))
                         (record_enter (lit "Respond") w2) with
                 | (Ok text, w3) =>
                     (Ok (with_answer (with_references c1 []) text),
                      record_leave (lit "Respond") (RespondFields i) w3)
                 | (Throw e, w3) => (Throw e, w3)
                 | (Beyond, w3) => (Beyond, w3)
                 end).
  { unfold pipeline. unfold bind at 1. rewrite Hr.
    unfold bind at 1. rewrite Hs.
    unfold respond. cbn [references with_references delegates]. rewrite Hd.
    rewrite enter_of, leave_of. unfold bind, effect, ret.
    destruct (chat [] (stream (delegates_of f)) (record_enter (lit "Respond") w2))
      as [[text|e|] w3]; reflexivity. }
  exists c1, w1, w2.
  split; [exact Hr|]. split; [exact Hkc|]. split; [exact Hs|].
  split; [reflexivity|]. split; [|exact Hp].
  rewrite Hp.
  destruct (chat_world f [] (record_enter (lit "Respond") w2)) as (_ & _ & req & Hq & Hm).
  exists req. split; [|exact Hm].
  destruct (chat [] (stream (delegates_of f)) (record_enter (lit "Respond") w2))
    as [[text|e|] w3]; cbn [snd] in *; exact Hq.
Qed.

(** A run of the test runner at which the theorem applies: the chat endpoint
    completes with nothing twice, the search endpoint has no hits three
    times, and the chat endpoint answers the request without messages with
    a text, which becomes the answer. *)
Lemma empty_keyphrases_go_on_witness :
  let context := new_context tea [] test_delegates in
  let w := fresh true
             (script [plain_reply []; plain_reply []; plain_reply (lit "Hello there.")])
             (script [web_no_hits; web_no_hits; web_no_hits]) steady_clock in
  exists c1 w1 w2,
    reason context w = (Ok c1, w1) /\ keyphrases c1 = Some []
    /\ search c1 w1 = (Ok (with_references c1 []), w2)
    /\ web_queries w2 = [] :: [] :: [] :: web_queries w1
    /\ (exists request,
          llm_requests (snd (pipeline context w)) = request :: llm_requests w1
          /\ req_messages request = [])
    /\ option_map answer (ok_value (fst (pipeline context w)))
       = Some (Some (lit "Hello there.")).
Proof.
  intros context w.
  set (run1 := chat (hinted (new_context tea [] (delegates_of TestRunner)) first_hint) None
                 (record_enter (lit "Reason") w)).
  assert (H1 : run1 = (Ok [], snd run1)) by (vm_compute; reflexivity).
  assert (Hk : truthy (obj_get (breakdown first_hint []) (lit "keyphrases")) = false)
    by (vm_compute; reflexivity).
  set (hint := second_hint (obj_get (breakdown first_hint []) (lit "thought"))).
  set (run2 := chat (hinted (new_context tea [] (delegates_of TestRunner)) hint) None
                 (snd run1)).
  assert (H2 : run2 = (Ok [], snd run2)) by (vm_compute; reflexivity).
  assert (Hkp : obj_get (breakdown hint []) (lit "keyphrases") = Some [])
    by (vm_compute; reflexivity).
  assert (H0 : web (snd run2) (length (web_queries (snd run2))) = Some web_no_hits)
    by (vm_compute; reflexivity).
  assert (H3 : web (snd run2) (S (length (web_queries (snd run2)))) = Some web_no_hits)
    by (vm_compute; reflexivity).
  assert (H4 : web (snd run2) (S (S (length (web_queries (snd run2))))) = Some web_no_hits)
    by (vm_compute; reflexivity).
  assert (Hn : without_hits web_no_hits).
  { split; [reflexivity|]. exists (JObj [(lit "hits", JArr [])]).
    split; [vm_compute; reflexivity|]. split; [discriminate|exact I]. }
  pose proof (@empty_keyphrases_go_on TestRunner [] tea w (snd run1) (snd run2) [] []
                web_no_hits web_no_hits web_no_hits H1 Hk H2 Hkp H0 H3 H4 Hn Hn Hn) as H.
  destruct H as (c1 & w1 & w2 & Hr & Hkc & Hs & Hq & Hl & _).
  exists c1, w1, w2.
  split; [exact Hr|]. split; [exact Hkc|]. split; [exact Hs|]. split; [exact Hq|].
  split; [exact Hl|].
  vm_compute. reflexivity.
Defined.

End KeyphrasesFacts.

(** ** [review] *)

Module ReviewFacts.

Import Spec.
Import Display Pipeline Review.
Import Terms.

Lemma reason_lines (language topic thought keyphrases observation : option str) :
  let f := ReasonFields language topic thought keyphrases observation in
  (lacking f /\ field_lines (field_texts f) = Throw TypeError)
  \/ (~ lacking f /\ exists lines, field_lines (field_texts f) = Ok lines).
Proof.
  cbv zeta. destruct language as [l|]; [|left; split; [now left|reflexivity]].
  destruct topic as [t|]; [|left; split; [right; now left|reflexivity]].
  destruct thought as [th|]; [|left; split; [right; right; now left|reflexivity]].
  destruct keyphrases as [k|];
    [|left; split; [right; right; right; now left|reflexivity]].
  destruct observation as [o|];
    [|left; split; [right; right; right; now right|reflexivity]].
  right. split; [|eexists; reflexivity].
  intros [H|[H|[H|[H|H]]]]; discriminate H.
Qed.

Lemma stage_text_cases (index : nat) (e : StageEvent) :
  printable e ->
  (lacking (extra e) /\ stage_text index e = Throw TypeError)
  \/ (~ lacking (extra e) /\ exists text, stage_text index e = Ok text).
Proof.
  intros [Hd Hx]. unfold stage_text.
  assert (Ht : exists ms, match duration e with
                          | None => Some (lit "undefined")
                          | Some z => integer_text z
                          end = Some ms).
  { destruct (duration e) as [z|]; [|now eexists]. unfold integer_text.
    specialize (Hd z eq_refl). apply Z.ltb_lt in Hd. rewrite Hd. now eexists. }
  destruct Ht as (ms & ->).
  destruct (extra e) as [|l t th k o|refs|inquiry].
  - right. split; [tauto|]. eexists. reflexivity.
  - destruct (reason_lines l t th k o) as [[Hl ->]|[Hl (lines & ->)]].
    + now left.
    + right. split; [exact Hl|]. now eexists.
  - right. split; [tauto|]. destruct Hx as (text & Hx).
    cbn [field_texts field_lines]. rewrite Hx. eexists. reflexivity.
  - right. split; [tauto|]. eexists. reflexivity.
Qed.

Lemma review_from_cases (stages : list StageEvent) (index : nat) :
  Forall printable stages ->
  ((exists e, In e stages /\ lacking (extra e))
   /\ review_from index stages = Throw TypeError)
  \/ ((forall e, In e stages -> ~ lacking (extra e))
      /\ exists text, review_from index stages = Ok text).
Proof.
  intros H. revert index. induction H as [|e stages He _ IH]; intros index.
  - right. split; [intros e []|now eexists].
  - cbn [review_from].
    destruct (stage_text_cases index He) as [[Hl ->]|[Hl (text & ->)]].
    + left. split; [|reflexivity]. exists e. split; [now left|exact Hl].
    + destruct (IH (S index)) as [[(x & Hx & Hlx) ->]|[Hall (more & ->)]].
      * left. split; [|reflexivity]. exists x. split; [now right|exact Hlx].
      * right. split; [|now eexists]. intros x [<-|Hx]; [exact Hl|now apply Hall].
Qed.

(** X27.  [review] throws a [TypeError] exactly when one of the stages it is
    given is a stage of [Reason] with a field that is [undefined], as it is
    when the completion had no line for that field; otherwise it returns
    its buffer.  (For durations and references whose text form the model
    covers.) *)
Theorem review_needs_every_field (stages : list StageEvent) :
  Forall printable stages ->
  (review stages = Throw TypeError <-> exists e, In e stages /\ lacking (extra e))
  /\ ((exists buffer, review stages = Ok buffer)
      <-> forall e, In e stages -> ~ lacking (extra e)).
Proof.
  intros H. unfold review.
  destruct (review_from_cases 0 H) as [[(x & Hx & Hlx) ->]|[Hall (text & ->)]].
  - split; split.
    + intros _. now exists x.
    + reflexivity.
    + intros (buffer & E). discriminate E.
    + intros Hall. exfalso. now apply (Hall x).
  - split; split.
    + discriminate.
    + intros (x & Hx & Hlx). exfalso. now apply (Hall x).
    + intros _. exact Hall.
    + intros _. now eexists.
Qed.

Lemma review_needs_every_field_witness :
  let stages := simplify (stages (snd (evaluate_user [] tea calm_world))) in
  map name stages = [lit "Reason"; lit "Search"; lit "Respond"]
  /\ review stages = Throw TypeError.
Proof.
  intros stages. split; [vm_compute; reflexivity|].
  remember stages as l eqn:E. unfold stages in E. vm_compute in E.
  assert (Hp : Forall printable l).
  { subst l.
    repeat (apply Forall_cons;
            [split; [intros z Hz; injection Hz as <-; reflexivity
                    |try exact I; eexists; vm_compute; reflexivity]|]).
    apply Forall_nil. }
  apply (proj1 (review_needs_every_field Hp)).
  subst l. eexists. split; [left; reflexivity|]. simpl. tauto.
Defined.

End ReviewFacts.

(** ** The display of the terminal: a marker that comes in two pieces *)

Module LookaheadFacts.

Import Spec StringFacts.
Import Display Pipeline.
Import Terms ShowFacts.

Lemma scan_over (a b : str) (i : nat) :
  ~ In BRACKET a -> scan (a ++ b) i = scan b (i + length a).
Proof.
  revert i; induction a as [|c a IH]; intros i H.
  - cbn [app length]. now rewrite Nat.add_0_r.
  - cbn [app scan]. unfold match_here.
    rewrite starts_with_bracket by (intros ->; apply H; now left).
    rewrite IH by (intros K; apply H; now right).
    cbn [length]. f_equal. lia.
Qed.

(** No match in a marker that is not complete. *)
Lemma scan_piece (d : char) (k i : nat) :
  is_digit d = true -> k < 12 -> scan (firstn k (marker d)) i = None.
Proof.
  intros Hd Hk. apply digits in Hd.
  repeat (destruct Hd as [<-|Hd];
          [do 12 (destruct k as [|k]; [reflexivity|]); lia|]).
  contradiction.
Qed.

Lemma scan_marker (d : char) (post : str) (i : nat) :
  is_digit d = true -> scan (marker d ++ post) i = Some (i, [d]).
Proof.
  intros Hd. apply digits in Hd.
  repeat (destruct Hd as [<-|Hd]; [reflexivity|]). contradiction.
Qed.

Lemma digit_cited (d : char) :
  is_digit d = true ->
  str_leb (lit "0") [d] && str_leb [d] (lit "9") = true
  /\ parseInt [d] = N.to_nat (d - 48).
Proof.
  intros Hd. apply digits in Hd.
  repeat (destruct Hd as [<-|Hd]; [now split|]). contradiction.
Qed.

(** The loop of [push] on a buffer with one marker. *)
Lemma push_loop_one (pre post : str) (d : char) (fuel : nat) :
  ~ In BRACKET pre -> ~ In BRACKET post -> is_digit d = true ->
  push_loop (S fuel) (pre ++ marker d ++ post) [] 0
  = Some (pre ++ coloured 1 ++ post, [N.to_nat (d - 48)]).
Proof.
  intros Hpre Hpost Hd. cbn [push_loop]. unfold exec at 1.
  cbn [Nat.ltb Nat.leb skipn].
  rewrite scan_over by exact Hpre. rewrite scan_marker by exact Hd.
  cbn [Nat.add]. destruct (digit_cited d Hd) as [-> ->].
  cbn [cite index_of app length].
  assert (Eb : substr 0 (length pre) (pre ++ marker d ++ post)
                 ++ (GRAY ++ lit "[" ++ nat_to_str (1 + 0) ++ lit "]" ++ NORMAL)
                 ++ substring_from (length pre + 12) (pre ++ marker d ++ post)
               = pre ++ coloured 1 ++ post).
  { unfold substr, substring_from. cbn [skipn].
    rewrite RoundTrip.firstn_exact, RoundTrip.skipn_past. reflexivity. }
  rewrite Eb. apply push_loop_none. unfold exec.
  assert (El : length (pre ++ coloured 1 ++ post) = length pre + 12 + length post)
    by (rewrite !length_app; change (length (coloured 1)) with 12; lia).
  replace (length pre + length (lit "[citation:") + 1 + 1) with (length pre + 12)
    by (simpl; lia).
  destruct (Nat.ltb_spec (length (pre ++ coloured 1 ++ post)) (length pre + 12));
    [reflexivity|].
  rewrite RoundTrip.skipn_past. now apply scan_none.
Qed.

Lemma push_settled (d : display) (text buffer : str) (refs : list nat) :
  push_loop (length (d_buffer d ++ text)) (d_buffer d ++ text) (d_refs d) 0
  = Some (buffer, refs) ->
  push d text = Some (settled buffer refs).
Proof.
  intros H. unfold push, settled. rewrite H.
  now destruct (MAX_LOOKAHEAD <? length buffer).
Qed.

(** What is written and what is kept after [push], when the buffer it held
    has been rewritten, with the text that came in, to [buffer]. *)
Lemma settled_held (out buffer : str) (refs : list nat) :
  (out <> [] -> MAX_LOOKAHEAD <= length buffer) ->
  let out' := match snd (settled buffer refs) with
              | Some o => out ++ o
              | None => out
              end in
  held (out ++ buffer) out' (d_buffer (fst (settled buffer refs)))
  /\ d_refs (fst (settled buffer refs)) = refs.
Proof.
  intros H. unfold settled.
  destruct (Nat.ltb_spec MAX_LOOKAHEAD (length buffer)) as [Hlt|Hge]; cbn [fst snd d_buffer].
  - split; [|reflexivity]. split; [|split].
    + now rewrite <- app_assoc, firstn_skipn.
    + rewrite length_skipn. lia.
    + intros _. rewrite length_skipn. lia.
  - split; [|reflexivity]. split; [reflexivity|]. split; [exact Hge|].
    intros Hout. specialize (H Hout). lia.
Qed.

Lemma rewritten_held (total out : str) (d : display) :
  held total out (d_buffer d) -> out ++ snd (flush d) = shown_of total.
Proof.
  intros H. destruct (held_split H) as [E1 E2]. unfold shown_of, flush. cbn [snd].
  now rewrite <- E1, <- E2.
Qed.

(** X28.  A marker that comes in two pieces, the end of one chunk and the
    beginning of the next, is rewritten as if it had come in one: what is
    written in the end, and the references recorded, are the same.  (For a
    text with one marker of one digit, around which there is no other
    bracket.) *)
Theorem marker_in_two_pieces (pre post : str) (d : char) (k : nat) :
  ~ In BRACKET pre -> ~ In BRACKET post -> is_digit d = true -> k < 12 ->
  rewritten [pre ++ firstn k (marker d); skipn k (marker d) ++ post]
  = rewritten [pre ++ marker d ++ post]
  /\ rewritten [pre ++ marker d ++ post]
     = Some (shown_of (pre ++ coloured 1 ++ post), [N.to_nat (d - 48)]).
Proof.
  intros Hpre Hpost Hd Hk.
  set (R := pre ++ coloured 1 ++ post).
  set (num := N.to_nat (d - 48)).
  set (empty := {| d_buffer := []; d_refs := [] |}).
  assert (Hwhole : rewritten [pre ++ marker d ++ post] = Some (shown_of R, [num])).
  { unfold rewritten. fold empty. cbn [feed].
    assert (Hp : push empty (pre ++ marker d ++ post) = Some (settled R [num])).
    { apply push_settled. cbn [d_buffer d_refs empty app].
      assert (El : length (pre ++ marker d ++ post) = S (length pre + 11 + length post))
        by (rewrite !length_app; simpl; lia).
      rewrite El. now apply push_loop_one. }
    rewrite Hp.
    destruct (@settled_held [] R [num]) as [Hh Hr]; [intros K; now elim K|].
    cbn [app] in Hh.
    destruct (settled R [num]) as [d1 [o|]]; cbn [fst snd] in *;
      rewrite Hr; f_equal; f_equal; now apply (@rewritten_held _ _ _ Hh). }
  split; [|exact Hwhole]. rewrite Hwhole.
  unfold rewritten. fold empty. cbn [feed].
  (* the first chunk: nothing to rewrite *)
  assert (H1 : push empty (pre ++ firstn k (marker d))
               = Some (settled (pre ++ firstn k (marker d)) [])).
  { apply push_settled. cbn [d_buffer d_refs empty app].
    apply push_loop_none. unfold exec. cbn [Nat.ltb Nat.leb skipn].
    rewrite scan_over by exact Hpre. now apply scan_piece. }
  rewrite H1.
  destruct (@settled_held [] (pre ++ firstn k (marker d)) [])
    as [Hh1 Hr1]; [intros K; now elim K|].
  cbn [app] in Hh1.
  set (s1 := settled (pre ++ firstn k (marker d)) []) in *.
  set (out1 := match snd s1 with Some o => o | None => [] end).
  change (held (pre ++ firstn k (marker d)) out1 (d_buffer (fst s1))) in Hh1.
  (* what is kept of it ends with the piece *)
  assert (Hkept : exists pre2,
             d_buffer (fst s1) = pre2 ++ firstn k (marker d)
             /\ pre = out1 ++ pre2 /\ ~ In BRACKET pre2).
  { assert (Hlen : length (firstn k (marker d)) = k)
      by (apply firstn_length_le; simpl; lia).
    unfold out1, s1, settled in *.
    destruct (Nat.ltb_spec MAX_LOOKAHEAD (length (pre ++ firstn k (marker d))))
      as [Hlt|Hge]; cbn [fst snd d_buffer] in *.
    - rewrite length_app, Hlen in *.
      assert (Hm : length pre + k - MAX_LOOKAHEAD <= length pre)
        by (unfold MAX_LOOKAHEAD; simpl; lia).
      exists (skipn (length pre + k - MAX_LOOKAHEAD) pre).
      rewrite skipn_app, firstn_app.
      replace (length pre + k - MAX_LOOKAHEAD - length pre) with 0 by lia.
      cbn [skipn firstn]. rewrite app_nil_r.
      split; [reflexivity|]. split; [now rewrite firstn_skipn|].
      intros K. apply Hpre. rewrite <- (firstn_skipn (length pre + k - MAX_LOOKAHEAD) pre).
      apply in_or_app. now right.
    - exists pre. now repeat split. }
  destruct Hkept as (pre2 & Hb1 & Hsum & Hpre2).
  (* the second chunk: the marker is whole again *)
  assert (H2 : push (fst s1) (skipn k (marker d) ++ post)
               = Some (settled (pre2 ++ coloured 1 ++ post) [num])).
  { apply push_settled. rewrite Hb1, Hr1.
    replace ((pre2 ++ firstn k (marker d)) ++ skipn k (marker d) ++ post)
      with (pre2 ++ marker d ++ post)
      by (rewrite <- app_assoc; f_equal; rewrite app_assoc; now rewrite firstn_skipn).
    assert (El : length (pre2 ++ marker d ++ post) = S (length pre2 + 11 + length post))
      by (rewrite !length_app; simpl; lia).
    rewrite El. now apply push_loop_one. }
  destruct s1 as [d1 o1]. cbn [fst snd] in *.
  destruct (@settled_held out1 (pre2 ++ coloured 1 ++ post) [num]) as [Hh2 Hr2].
  { intros Hne. destruct Hh1 as (_ & _ & Hfull). specialize (Hfull Hne).
    rewrite Hb1, length_app in Hfull. rewrite !length_app.
    assert (length (firstn k (marker d)) <= 12) by (rewrite length_firstn; simpl; lia).
    change (length (coloured 1)) with 12. lia. }
  assert (HR : out1 ++ pre2 ++ coloured 1 ++ post = R)
    by (unfold R; rewrite Hsum; now rewrite <- app_assoc).
  rewrite HR in Hh2.
  destruct o1 as [o|]; cbn [app]; rewrite H2; unfold out1 in *; cbn [snd app] in *;
    destruct (settled (pre2 ++ coloured 1 ++ post) [num]) as [d2 [o2|]];
    cbn [fst snd app] in *; rewrite Hr2; f_equal; f_equal;
    now apply (@rewritten_held _ _ _ Hh2).
Qed.

Lemma marker_in_two_pieces_witness :
  rewritten [lit "Tea is a drink " ++ firstn 6 (marker 51%N);
             skipn 6 (marker 51%N) ++ lit "."]
  = rewritten [lit "Tea is a drink " ++ marker 51%N ++ lit "."]
  /\ rewritten [lit "Tea is a drink " ++ marker 51%N ++ lit "."]
     = Some (shown_of (lit "Tea is a drink " ++ coloured 1 ++ lit "."), [3]).
Proof.
  apply (@marker_in_two_pieces (lit "Tea is a drink ") (lit ".") 51%N 6);
    [vm_compute; intuition discriminate | vm_compute; intuition discriminate
    | reflexivity | simpl; lia].
Defined.

End LookaheadFacts.

(** ** What [respond] asks of the model *)

Module RespondFacts.

Import Spec StringFacts.
Import Display Pipeline.
Import Terms StageFacts.

Lemma expand_plain (repl matched before after : str) :
  ~ In DOLLAR repl -> expand_replacement repl matched before after = repl.
Proof.
  induction repl as [|c r IH]; intros H; [reflexivity|].
  assert (Hc : c <> DOLLAR) by (intros ->; apply H; now left).
  assert (Hr : ~ In DOLLAR r) by (intros K; apply H; now right).
  specialize (IH Hr).
  assert (E : expand_replacement (c :: r) matched before after
              = c :: expand_replacement r matched before after).
  { destruct c as [|p]; [reflexivity|].
    do 6 (destruct p as [p|p|]; try reflexivity).
    now elim Hc. }
  rewrite E, IH. reflexivity.
Qed.

Lemma replace_plain (pat repl s : str) :
  ~ In DOLLAR repl ->
  replace pat repl s
  = match indexOf pat s with
    | Some i => firstn i s ++ repl ++ skipn (i + length pat) s
    | None => s
    end.
Proof.
  intros H. unfold replace. destruct (indexOf pat s); [|reflexivity].
  now rewrite expand_plain.
Qed.

(** The two replacements of [respond], for texts without a dollar sign. *)
Lemma prompt_filled (refs language : str) :
  ~ In DOLLAR refs -> ~ In DOLLAR language ->
  replace (lit "{REFERENCES}") refs (replace (lit "{LANGUAGE}") language RESPOND_PROMPT)
  = filled refs language.
Proof.
  intros Hr Hl.
  rewrite (@replace_plain (lit "{LANGUAGE}") language RESPOND_PROMPT Hl).
  assert (Ei : indexOf (lit "{LANGUAGE}") RESPOND_PROMPT = Some 1355)
    by (vm_compute; reflexivity).
  rewrite Ei.
  match goal with
  | |- replace ?p refs ?s = _ =>
      rewrite (@replace_plain p refs s Hr);
      assert (Ej : indexOf p s = Some 1063) by (vm_compute; reflexivity);
      rewrite Ej
  end.
  unfold filled, around.
  assert (Ek : indexOf (lit "{REFERENCES}") RESPOND_PROMPT = Some 1063)
    by (vm_compute; reflexivity).
  rewrite Ek.
  assert (El : indexOf (lit "{LANGUAGE}")
                 (skipn (1063 + length (lit "{REFERENCES}")) RESPOND_PROMPT) = Some 280)
    by (vm_compute; reflexivity).
  rewrite El.
  vm_compute. reflexivity.
Qed.

(** [respond] sends its request whatever happens after. *)
Lemma respond_request (f : frontend) (context : Context) (w : World)
  (messages : list Message) :
  delegates context = delegates_of f ->
  match references context with
  | Some (r :: rs) =>
      match reference_lines (r :: rs) with
      | Some refs =>
          messages
          = [{| role := lit "system";
                content := replace (lit "{REFERENCES}") (join [NL] refs)
                             (replace (lit "{LANGUAGE}")
                                (text_or_undefined (language context)) RESPOND_PROMPT) |};
             {| role := lit "user"; content := inquiry context |}]
      | None => False
      end
  | _ => messages = []
  end ->
  exists r, llm_requests (snd (respond context w)) = r :: llm_requests w
            /\ req_messages r = messages.
Proof.
  intros Hd Hm.
  pattern (respond context w).
  match goal with |- ?Q _ => set (P := Q) end.
  unfold respond. rewrite Hd, enter_of.
  unfold bind at 1. unfold effect at 1. unfold bind at 1.
  set (w1 := record_enter (lit "Respond") w).
  set (ms := match references context with
             | Some (r :: rs) => _
             | _ => _
             end).
  assert (Hms : ms w1 = (Ok messages, w1)).
  { subst ms. destruct (references context) as [[|r rs]|]; try (now subst messages).
    destruct (reference_lines (r :: rs)); [now subst messages|contradiction]. }
  rewrite Hms. unfold bind at 1.
  destruct (chat_world f messages w1) as (_ & _ & req & Hr & Hq).
  destruct (chat messages (stream (delegates_of f)) w1) as [[text|e|] w2]; cbn [snd] in *.
  - rewrite leave_of. unfold bind, effect, ret. subst P. cbv beta iota. cbn [snd].
    change (llm_requests (record_leave ?n ?x w2)) with (llm_requests w2).
    exists req. now split.
  - subst P. cbv beta iota. cbn [snd]. exists req. now split.
  - subst P. cbv beta iota. cbn [snd]. exists req. now split.
Qed.

(** X29.  With references, [respond] asks the model with two messages: the
    system prompt in which the lines of the references, one
    [[citation:n] title - snippet] each, stand in the place of
    [{REFERENCES}] and the language in the place of [{LANGUAGE}], and the
    inquiry as the message of the user.  It is so when neither text holds a
    dollar sign, which [replace] does not take as it stands. *)
Theorem respond_prompt (f : frontend) (context : Context) (w : World)
  (r : Reference) (rs : list Reference) (refs : list str) :
  delegates context = delegates_of f ->
  references context = Some (r :: rs) ->
  reference_lines (r :: rs) = Some refs ->
  ~ In DOLLAR (join [NL] refs) ->
  ~ In DOLLAR (text_or_undefined (language context)) ->
  exists request,
    llm_requests (snd (respond context w)) = request :: llm_requests w
    /\ req_messages request
       = [{| role := lit "system";
             content := filled (join [NL] refs) (text_or_undefined (language context)) |};
          {| role := lit "user"; content := inquiry context |}].
Proof.
  intros Hd Href Hlines Hr Hl.
  apply (@respond_request f context w _ Hd).
  rewrite Href, Hlines. now rewrite prompt_filled.
Qed.

Lemma respond_prompt_witness :
  exists request,
    llm_requests (snd (respond (searched_context Terminal) calm_world)) = [request]
    /\ req_messages request
       = [{| role := lit "system";
             content := filled (lit "[citation:1] Tea - Tea is a drink.") (lit "English.") |};
          {| role := lit "user"; content := tea |}].
Proof.
  apply (@respond_prompt Terminal (searched_context Terminal) calm_world
           {| position := 1; title := Val (JStr (lit "Tea"));
              url := Val (JStr (lit "http://tea.example"));
              snippet := lit "Tea is a drink." |} []
           [lit "[citation:1] Tea - Tea is a drink."]);
    [reflexivity | reflexivity | reflexivity
    | vm_compute; intuition discriminate | vm_compute; intuition discriminate].
Defined.

(** X30.  Without references (none, or an empty list) [respond] still asks
    the model: it sends a request that holds no message at all. *)
Theorem respond_without_references (f : frontend) (context : Context) (w : World) :
  delegates context = delegates_of f ->
  references context = None \/ references context = Some [] ->
  exists request,
    llm_requests (snd (respond context w)) = request :: llm_requests w
    /\ req_messages request = [].
Proof.
  intros Hd Href. apply (@respond_request f context w _ Hd).
  now destruct Href as [-> | ->].
Qed.

Lemma respond_without_references_witness :
  exists request,
    llm_requests (snd (respond (tea_context Terminal) calm_world)) = [request]
    /\ req_messages request = [].
Proof.
  apply (@respond_without_references Terminal (tea_context Terminal) calm_world);
    [reflexivity | now left].
Defined.

End RespondFacts.
